(** * A shallow embedding of the heap allocator of [myHeap.c]

    The allocator manages one arena obtained from the operating system.
    Every block starts with a 4-byte header [size_status]; a free block
    also ends with a 4-byte footer.  The functions [myAlloc], [myFree],
    [coalesce], [myInit] and the loop of [dispMem] are transcribed
    below over an explicit memory, and the properties of the
    specification are then stated and proved about them.

    Conventions of the embedding:
    - an [int] is a [Z] and every [int] addition or subtraction is
      followed by [wrap], the two's complement wrap-around to 32 bits;
      [/] and [%] are C's truncating [Z.quot] and [Z.rem];
    - a pointer is a [Z], an address of the 32-bit address space the
      source is written for (it casts pointers to [unsigned int]);
    - the memory is the mapped region [map_lo, map_hi) of 4-byte words;
      an access outside it, or at an address that is not a multiple of
      4, has no defined behaviour in C and is a fault, the result [None];
    - the [while] loops take a fuel argument; running out of fuel is
      [None] as well;
    - the payload of an allocated block belongs to the client, whose
      stores are steps of the reachability relation. *)

From Stdlib Require Import ZArith Lia List Bool.
From stdpp Require Import base option gmap.

#[local] Open Scope Z_scope.

(** [lia] also decides goals with [/], [mod], [Z.quot] and [Z.rem] by
    constants. *)
#[local] Ltac Zify.zify_post_hook ::= Z.to_euclidean_division_equations.

(** ** Machine integers *)

(** The values of type [int]. *)
Definition is_int (z : Z) : Prop := -2147483648 <= z <= 2147483647.

Definition wrap (z : Z) : Z := (z + 2147483648) mod 4294967296 - 2147483648.

(** [(unsigned int) ptr] *)
Definition to_uint (p : Z) : Z := p mod 4294967296.

Definition NULL : Z := 0.

(** [sizeof(blockHeader)] *)
Definition hdr_size : Z := 4.

(** ** Program state *)

(** The globals [heapStart] and [allocsize], the [static] flag
    [allocated_once] of [myInit], and the mapped memory.  The mapping is
    zero-filled ([/dev/zero]): a word that was never written reads 0. *)
Record heap : Type := mkHeap {
  mem : gmap Z Z;
  map_lo : Z;
  map_hi : Z;
  heapStart : Z;
  allocsize : Z;
  allocated_once : bool
}.

Definition rd (m : gmap Z Z) (a : Z) : Z := default 0 (m !! a).

Definition mapped (h : heap) (a : Z) : bool :=
  (map_lo h <=? a) && (a + 4 <=? map_hi h) && (a mod 4 =? 0).

Definition load (h : heap) (a : Z) : option Z :=
  if mapped h a then Some (rd (mem h) a) else None.

Definition set_mem (h : heap) (m : gmap Z Z) : heap :=
  mkHeap m (map_lo h) (map_hi h) (heapStart h) (allocsize h) (allocated_once h).

Definition store (h : heap) (a v : Z) : option heap :=
  if mapped h a then Some (set_mem h (<[a := v]> (mem h))) else None.

(** ** [myAlloc] *)

(** Lines 109-112: the block size for a payload of [size] bytes. *)
Definition block_size (size : Z) : Z :=
  let size := wrap (hdr_size + size) in
  if negb (Z.rem size 8 =? 0) then wrap (wrap (size + 8) - Z.rem size 8)
  else size.

(** Lines 117-124: the size of a block without its two status bits. *)
Definition true_size (size_status : Z) : Z :=
  let trueSize := size_status in
  let trueSize :=
    if negb (Z.land size_status 1 =? 0) then wrap (trueSize - 1) else trueSize in
  if negb (Z.land size_status 2 =? 0) then wrap (trueSize - 2) else trueSize.

(** Lines 116-138: the best-fit scan.  The loop state is [traverse],
    [memoryAvailable], [block] and [previousBlock]. *)
Fixpoint best_fit (fuel : nat) (h : heap) (size : Z)
    (traverse memoryAvailable block previousBlock : Z) : option (Z * Z * Z) :=
  match fuel with
  | O => None
  | S fuel =>
    size_status ← load h traverse;
    if size_status =? 1 then Some (memoryAvailable, block, previousBlock)
    else
      let blockSize := size_status in
      let trueSize := true_size size_status in
      if (Z.rem blockSize 2 =? 0) && (size <=? trueSize)
         && ((memoryAvailable =? -1) || (trueSize <? memoryAvailable))
      then best_fit fuel h size (traverse + trueSize) trueSize traverse
             (if negb (Z.land size_status 2 =? 0) then 2 else 0)
      else best_fit fuel h size (traverse + trueSize)
             memoryAvailable block previousBlock
  end.

(** The result is the heap after the call and the returned pointer. *)
Definition myAlloc (fuel : nat) (h : heap) (size : Z) : option (heap * Z) :=
  if size <=? 0 then Some (h, NULL)
  else
    let size := block_size size in
    if allocsize h <? size then Some (h, NULL)
    else
      '(memoryAvailable, block, previousBlock) ←
         best_fit fuel h size (heapStart h) (-1) NULL 0;
      if size <? memoryAvailable then
        h1 ← store h block (wrap (wrap (size + previousBlock) + 1));
        sp ← load h1 (block + size);
        if sp =? 1 then Some (h1, block + 4)
        else
          h2 ← store h1 (block + size) (wrap (wrap (memoryAvailable - size) + 2));
          Some (h2, block + 4)
      else if memoryAvailable =? size then
        b ← load h block;
        h1 ← store h block (wrap (b + 1));
        sp ← load h1 (block + size);
        if sp =? 1 then Some (h1, block + 4)
        else
          h2 ← store h1 (block + size) (wrap (sp + 2));
          Some (h2, block + 4)
      else Some (h, NULL).

(** ** [myFree] *)

(** The result is the heap after the call and the returned [int]. *)
Definition myFree (h : heap) (ptr : Z) : option (heap * Z) :=
  if ptr =? NULL then Some (h, -1)
  else if negb (to_uint ptr mod 8 =? 0) then Some (h, -1)
  else if to_uint ptr <? to_uint (heapStart h) then Some (h, -1)
  else
    hd ← load h (ptr - 4);
    if negb (Z.rem hd 2 =? 1) then Some (h, -1)
    else
      let currentBlock := ptr - 4 in
      h1 ← store h currentBlock (wrap (hd - 1));
      c1 ← load h1 currentBlock;
      let currBlock_size := Z.quot c1 8 * 8 in
      h2 ← store h1 (currentBlock + currBlock_size - 4) currBlock_size;
      c2 ← load h2 currentBlock;
      let nextBlock := currentBlock + Z.quot c2 8 * 8 in
      n ← load h2 nextBlock;
      if negb (n =? 1) then
        h3 ← store h2 nextBlock (wrap (n - 2));
        Some (h3, 0)
      else Some (h2, 0).

(** ** [coalesce] *)

(** Lines 218-226: the merge of the next block into the current one. *)
Definition merge_next (h : heap) (currentBlock : Z) : option heap :=
  c ← load h currentBlock;
  let nextBlock := currentBlock + Z.quot c 8 * 8 in
  n ← load h nextBlock;
  if (Z.rem n 2 =? 0) && negb (n =? 1) then
    h1 ← store h currentBlock (wrap (c + Z.quot n 8 * 8));
    c1 ← load h1 currentBlock;
    let temporarySize := Z.quot c1 8 * 8 in
    store h1 (currentBlock + temporarySize - 4) temporarySize
  else Some h.

(** Lines 228-235: the merge of the current block into the one before. *)
Definition merge_prev (h : heap) (currentBlock : Z) : option heap :=
  c ← load h currentBlock;
  if Z.rem c 8 =? 0 then
    p_bit ← load h (currentBlock - 4);
    let p := currentBlock - p_bit in
    ps ← load h p;
    h1 ← store h p (wrap (ps + Z.quot c 8 * 8));
    p1 ← load h1 p;
    let temporarySize := Z.quot p1 8 * 8 in
    store h1 (p + temporarySize - 4) temporarySize
  else Some h.

(** Lines 215-239. *)
Fixpoint coalesce_loop (fuel : nat) (h : heap) (currentBlock : Z) : option heap :=
  match fuel with
  | O => None
  | S fuel =>
    c ← load h currentBlock;
    if c =? 1 then Some h
    else
      h' ← (if Z.rem c 2 =? 0
            then h1 ← merge_next h currentBlock; merge_prev h1 currentBlock
            else Some h);
      c' ← load h' currentBlock;
      coalesce_loop fuel h' (currentBlock + Z.quot c' 8 * 8)
  end.

Definition coalesce (fuel : nat) (h : heap) : option heap :=
  coalesce_loop fuel h (heapStart h).

(** ** [myInit] *)

(** The answers of the operating system to the three calls of [myInit]:
    [getpagesize()], [open("/dev/zero", O_RDWR)] and [mmap(...)]. *)
Record os : Type := mkOs {
  getpagesize : Z;
  open_dev_zero : Z;
  mmap : Z
}.

(** [MAP_FAILED] is [(void * ) -1]. *)
Definition MAP_FAILED : Z := 4294967295.

(** The result is the state after the call and the returned [int].  The
    stores go through [store]: they fault if the mapping is too small. *)
Definition myInit (e : os) (h : heap) (sizeOfRegion : Z) : option (heap * Z) :=
  if allocated_once h then Some (h, -1)
  else if sizeOfRegion <=? 0 then Some (h, -1)
  else
    let pagesize := getpagesize e in
    let padsize := Z.rem sizeOfRegion pagesize in
    let padsize := Z.rem (wrap (pagesize - padsize)) pagesize in
    let allocsize0 := wrap (sizeOfRegion + padsize) in
    let h0 := mkHeap (mem h) (map_lo h) (map_hi h) (heapStart h) allocsize0
                     (allocated_once h) in
    if open_dev_zero e =? -1 then Some (h0, -1)
    else if mmap e =? MAP_FAILED then
      Some (mkHeap (mem h) (map_lo h) (map_hi h) (heapStart h) allocsize0 false, -1)
    else
      let allocsize1 := wrap (allocsize0 - 8) in
      let start := mmap e + 4 in
      let h1 := mkHeap ∅ (mmap e) (mmap e + to_uint allocsize0) start allocsize1 true in
      h2 ← store h1 (start + allocsize1) 1;
      h3 ← store h2 start allocsize1;
      s ← load h3 start;
      h4 ← store h3 start (wrap (s + 2));
      h5 ← store h4 (start + allocsize1 - 4) allocsize1;
      Some (h5, 0).

(** The state of the program before [myInit]: nothing is mapped,
    [heapStart] is [NULL]. *)
Definition boot : heap := mkHeap ∅ 0 0 NULL 0 false.

(** ** The block walk of [dispMem] *)

Record row : Type := mkRow {
  r_no : Z;
  r_used : bool;       (* Status: true = alloc, false = FREE *)
  r_prev_used : bool;  (* Prev *)
  t_begin : Z;
  t_end : Z;
  t_size : Z
}.

(** Lines 356-389: one row per block, up to the end mark. *)
Fixpoint walk (fuel : nat) (h : heap) (current counter : Z) : option (list row) :=
  match fuel with
  | O => None
  | S fuel =>
    size_status ← load h current;
    if size_status =? 1 then Some []
    else
      let t_size := size_status in
      let is_used := negb (Z.land t_size 1 =? 0) in
      let t_size := if is_used then wrap (t_size - 1) else t_size in
      let p_used := negb (Z.land t_size 2 =? 0) in
      let t_size := if p_used then wrap (t_size - 2) else t_size in
      rest ← walk fuel h (current + t_size) (wrap (counter + 1));
      Some (mkRow counter is_used p_used current (current + t_size - 1) t_size :: rest)
  end.

Definition dispMem (fuel : nat) (h : heap) : option (list row) :=
  walk fuel h (heapStart h) 1.

(** Lines 356-389 once more, for the sums [used_size] and [free_size]
    that the loop keeps beside the rows. *)
Fixpoint walk_sizes (fuel : nat) (h : heap) (current used_size free_size : Z)
    : option (Z * Z) :=
  match fuel with
  | O => None
  | S fuel =>
    size_status ← load h current;
    if size_status =? 1 then Some (used_size, free_size)
    else
      let t_size := size_status in
      let is_used := negb (Z.land t_size 1 =? 0) in
      let t_size := if is_used then wrap (t_size - 1) else t_size in
      let p_used := negb (Z.land t_size 2 =? 0) in
      let t_size := if p_used then wrap (t_size - 2) else t_size in
      let used_size := if is_used then wrap (used_size + t_size) else used_size in
      let free_size := if is_used then free_size else wrap (free_size + t_size) in
      walk_sizes fuel h (current + t_size) used_size free_size
  end.

(** Lines 395-397: the three totals that [dispMem] prints after the
    rows, [Total used size], [Total free size] and [Total size]. *)
Definition dispMem_totals (fuel : nat) (h : heap) : option (Z * Z * Z) :=
  '(used_size, free_size) ← walk_sizes fuel h (heapStart h) 0 0;
  Some (used_size, free_size, wrap (used_size + free_size)).

(** ** Decoded chains *)

(** No two neighbouring rows are both FREE. *)
Fixpoint no_adjacent_free (rows : list row) : bool :=
  match rows with
  | r1 :: ((r2 :: _) as t) =>
      negb (negb (r_used r1) && negb (r_used r2)) && no_adjacent_free t
  | _ => true
  end.

(** The p-bit of every row with a predecessor is the a-bit of that
    predecessor. *)
Fixpoint pbits_consistent (rows : list row) : bool :=
  match rows with
  | r1 :: ((r2 :: _) as t) =>
      Bool.eqb (r_prev_used r2) (r_used r1) && pbits_consistent t
  | _ => true
  end.

(** The rows that [dispMem] prints for [h]. *)
Definition chain (h : heap) (rows : list row) : Prop :=
  exists fuel, dispMem fuel h = Some rows.

(** The footer of a block: the word in its last four bytes. *)
Definition footer (h : heap) (r : row) : option Z := load h (t_end r - 3).

(** ** Reachable states *)

(** What is assumed of the operating system's answers: the page size is
    an [int], a multiple of 8 and at least 16; the mapping starts at a
    page boundary above address 0, ends inside the address space and is
    at most [PTRDIFF_MAX] bytes long. *)
Definition os_ok (e : os) (h : heap) : Prop :=
  16 <= getpagesize e <= 2147483647 /\ getpagesize e mod 8 = 0 /\
  0 < mmap e /\ mmap e mod getpagesize e = 0 /\
  map_hi h <= 4294967296 /\ map_hi h - map_lo h <= 2147483647.

(** The address that the chain [rows] ends at: that of its end mark. *)
Definition chain_end (h : heap) (rows : list row) : Z :=
  heapStart h + fold_right Z.add 0 (map t_size rows).

(** [ptr] is the payload address of an allocated block of the chain. *)
Definition live (h : heap) (ptr : Z) : Prop :=
  exists rows r,
    chain h rows /\ In r rows /\ r_used r = true /\ ptr = t_begin r + 4.

(** The word at [x] is the client's to write: it lies in the payload of
    an allocated block of the chain, or after the end mark of the chain,
    where the allocator never reads (the blocks that an early return of
    [myAlloc] has cut off from the chain lie there). *)
Definition client_word (h : heap) (x : Z) : Prop :=
  exists rows,
    chain h rows /\
    ((exists r, In r rows /\ r_used r = true /\
                t_begin r + 4 <= x <= t_end r - 3) \/
     chain_end h rows < x).

(** The states a client reaches from a successful [myInit] by calls of
    [myAlloc], [coalesce], [myFree], further calls of [myInit], and by
    its own stores.  The [int] arguments are values of type [int].
    [myFree] is called on the payload address of an allocated block of
    the chain; any other call of [myFree] is a step as well if it
    returns -1.  The client stores [int]s in the words that are its
    own. *)
Inductive reachable : heap -> Prop :=
| reach_init e sizeOfRegion h :
    os_ok e h -> is_int sizeOfRegion ->
    myInit e boot sizeOfRegion = Some (h, 0) -> reachable h
| reach_reinit e sizeOfRegion h h' r :
    reachable h -> myInit e h sizeOfRegion = Some (h', r) -> reachable h'
| reach_alloc fuel size h h' p :
    reachable h -> is_int size ->
    myAlloc fuel h size = Some (h', p) -> reachable h'
| reach_free ptr h h' r :
    reachable h -> live h ptr \/ r = -1 ->
    myFree h ptr = Some (h', r) -> reachable h'
| reach_coalesce fuel h h' :
    reachable h -> coalesce fuel h = Some h' -> reachable h'
| reach_store x v h h' :
    reachable h -> client_word h x -> is_int v ->
    store h x v = Some h' -> reachable h'.

(** * Block lists

    The auxiliary definitions of the proofs: the list of blocks that
    describes a well-formed heap, with the functions and predicates on
    it, and the states of two concrete runs. *)

(** The header of a block of size [s] with a-bit [al] and p-bit [p]. *)
Definition hdr (s : Z) (al p : bool) : Z :=
  s + (if al then 1 else 0) + (if p then 2 else 0).

(** A heap is described by the list of its blocks, in address order,
    each with its size and its a-bit. *)
Fixpoint total (bs : list (Z * bool)) : Z :=
  match bs with
  | [] => 0
  | (s, _) :: bs' => s + total bs'
  end.

(** The a-bit of the last block of [bs], [p] for the empty list: the
    p-bit of whatever follows [bs]. *)
Fixpoint last_used (p : bool) (bs : list (Z * bool)) : bool :=
  match bs with
  | [] => p
  | (_, al) :: bs' => last_used al bs'
  end.

(** The headers of [bs] are laid out in [m] from address [a] on; [p] is
    the p-bit of the first one. *)
Fixpoint seg (m : gmap Z Z) (a : Z) (p : bool) (bs : list (Z * bool)) : Prop :=
  match bs with
  | [] => True
  | (s, al) :: bs' =>
      8 <= s /\ s mod 8 = 0 /\ rd m a = hdr s al p /\ seg m (a + s) al bs'
  end.

(** The fixed part of a state after initialisation. *)
Record Geo (h : heap) : Prop := mkGeo {
  geo_lo : 0 < map_lo h;
  geo_lo8 : map_lo h mod 8 = 0;
  geo_start : heapStart h = map_lo h + 4;
  geo_hi : map_hi h = heapStart h + allocsize h + 4;
  geo_top : map_hi h <= 4294967296;
  geo_size : 8 <= allocsize h <= 2147483632;
  geo_size8 : allocsize h mod 8 = 0;
  geo_once : allocated_once h = true
}.

(** [h] is a well-formed heap with blocks [bs]: the headers of [bs] are
    laid out from [heapStart] on inside the arena, and the word after
    them is an end mark. *)
Record Rep (h : heap) (bs : list (Z * bool)) : Prop := mkRep {
  rep_geo : Geo h;
  rep_total : total bs <= allocsize h;
  rep_seg : seg (mem h) (heapStart h) true bs;
  rep_end : rd (mem h) (heapStart h + total bs) = 1
}.

(** The rows of the blocks [bs] laid out from [a]; [p] is the p-bit of
    the first block and [n] its number. *)
Fixpoint rows_of (a : Z) (p : bool) (n : Z) (bs : list (Z * bool)) : list row :=
  match bs with
  | [] => []
  | (s, al) :: bs' =>
      mkRow n al p a (a + s - 1) s :: rows_of (a + s) al (wrap (n + 1)) bs'
  end.

(** No two neighbouring blocks of [bs] are both free. *)
Fixpoint nadj (bs : list (Z * bool)) : bool :=
  match bs with
  | (_, al1) :: (((_, al2) :: _) as t) => negb (negb al1 && negb al2) && nadj t
  | _ => true
  end.

(** The best-fit scan on the block list: the loop state after the blocks
    [bs], laid out from [a], have been visited. *)
Fixpoint pick (size a : Z) (p : bool) (bs : list (Z * bool)) (acc : Z * Z * Z)
    : Z * Z * Z :=
  match bs with
  | [] => acc
  | (s, al) :: bs' =>
      if negb al && (size <=? s) && ((acc.1.1 =? -1) || (s <? acc.1.1))
      then pick size (a + s) al bs' (s, a, if p then 2 else 0)
      else pick size (a + s) al bs' acc
  end.

(** [coalesce] on the block list: every run of neighbouring free blocks
    becomes one free block, of the size of the run. *)
Fixpoint squash (bs : list (Z * bool)) : list (Z * bool) :=
  match bs with
  | [] => []
  | (s, al) :: bs' =>
      match al, squash bs' with
      | false, (s2, false) :: t => (s + s2, false) :: t
      | _, t => (s, al) :: t
      end
  end.

(** Some allocated block of [bs], laid out from [a], has an address and a
    size that satisfy [P]. *)
Fixpoint used_sat (P : Z -> Z -> Prop) (a : Z) (bs : list (Z * bool)) : Prop :=
  match bs with
  | [] => False
  | (s, al) :: bs' => (al = true /\ P a s) \/ used_sat P (a + s) bs'
  end.

(** The word at [x] lies in the payload of the block of size [s] at [a]. *)
Definition in_used (x a s : Z) : Prop := a + 4 <= x <= a + s - 4.

(** [q] is the payload address of the block at [a]. *)
Definition starts (q a s : Z) : Prop := q = a + 4.

(** The size and the a-bit of a row. *)
Definition shape (r : row) : Z * bool := (t_size r, r_used r).

(** The shape of [r] once the block at [a] is free. *)
Definition freed (a : Z) (r : row) : Z * bool :=
  (t_size r, if t_begin r =? a then false else r_used r).

(** The word at [x] lies in the payload of an allocated block of the
    chain. *)
Definition in_payload (h : heap) (x : Z) : Prop :=
  exists rows r,
    chain h rows /\ In r rows /\ r_used r = true /\
    t_begin r + 4 <= x <= t_end r - 3.

(** The rows lie one after the other from [a] on, and the size of each
    is a multiple of 8 and at least 8. *)
Fixpoint tiles (a : Z) (rows : list row) : Prop :=
  match rows with
  | [] => True
  | r :: t =>
      t_begin r = a /\ t_end r = a + t_size r - 1 /\
      8 <= t_size r /\ t_size r mod 8 = 0 /\ tiles (a + t_size r) t
  end.

(** The sum of the sizes of the rows with a-bit [al]. *)
Definition size_of (al : bool) (rows : list row) : Z :=
  fold_right Z.add 0
    (map t_size (List.filter (fun r => Bool.eqb (r_used r) al) rows)).

(** The sum of the sizes of the blocks with a-bit [al]. *)
Fixpoint total_of (al : bool) (bs : list (Z * bool)) : Z :=
  match bs with
  | [] => 0
  | (s, al') :: bs' => (if Bool.eqb al' al then s else 0) + total_of al bs'
  end.

(** [h'] is [h] with another memory: the globals and the mapping are
    those of [h]. *)
Definition same_arena (h h' : heap) : Prop := h' = set_mem h (mem h').

(** The footer that the backward merge reads is up to date: whenever
    the block before [c] and the block at [c] are both free, the word
    before [c] is the size of the block before [c]. *)
Definition foot_ok (m : gmap Z Z) (c : Z) (pre suf : list (Z * bool)) : Prop :=
  forall pre0 s0 s3 r3,
    pre = pre0 ++ [(s0, false)] -> suf = (s3, false) :: r3 -> rd m (c - 4) = s0.

(** ** A concrete run

    [myInit(4096)] on a system with 4096-byte pages that maps the region
    at address 65536, then [a1 = myAlloc(40)], [a2 = myAlloc(40)],
    [myFree(a2)], [myFree(a1)] and [coalesce()]. *)

Definition linux : os := mkOs 4096 3 65536.

Definition arena (words : list (Z * Z)) : heap :=
  mkHeap (list_to_map words) 65536 69632 65540 4088 true.

Definition st_init : heap :=
  arena [(65540, 4090); (69624, 4088); (69628, 1)].

Definition st_a1 : heap :=
  arena [(65540, 51); (65588, 4042); (69624, 4088); (69628, 1)].

Definition st_a2 : heap :=
  arena [(65540, 51); (65588, 51); (65636, 3994); (69624, 4088); (69628, 1)].

Definition st_f2 : heap :=
  arena [(65540, 51); (65588, 50); (65632, 48); (65636, 3992);
         (69624, 4088); (69628, 1)].

Definition st_f1 : heap :=
  arena [(65540, 50); (65584, 48); (65588, 48); (65632, 48); (65636, 3992);
         (69624, 4088); (69628, 1)].

Definition st_co : heap :=
  arena [(65540, 4090); (65584, 48); (65588, 48); (65632, 96); (65636, 3992);
         (69624, 4088); (69628, 1)].

(** The state after [coalesce()] in the state [st_f2]. *)
Definition st_f2_co : heap :=
  arena [(65540, 51); (65588, 4042); (65632, 48); (65636, 3992);
         (69624, 4040); (69628, 1)].

(** The state after [myAlloc(40)] in the state [st_f2]. *)
Definition st_f2_a : heap :=
  arena [(65540, 51); (65588, 51); (65632, 48); (65636, 3994);
         (69624, 4088); (69628, 1)].

(** A second run from [st_init]: [b = myAlloc(100)], the client stores
    1 in the word at [b + 44], [myFree(b)], then [myAlloc(40)]. *)
Definition st_b1 : heap :=
  arena [(65540, 107); (65644, 3986); (69624, 4088); (69628, 1)].

Definition st_b2 : heap :=
  arena [(65540, 107); (65588, 1); (65644, 3986); (69624, 4088); (69628, 1)].

Definition st_b3 : heap :=
  arena [(65540, 106); (65588, 1); (65640, 104); (65644, 3984);
         (69624, 4088); (69628, 1)].

Definition st_b4 : heap :=
  arena [(65540, 51); (65588, 1); (65640, 104); (65644, 3984);
         (69624, 4088); (69628, 1)].

(** The state after [myFree] of the address one past the arena, in the
    state [st_init]. *)
Definition st_bad : heap :=
  arena [(65540, 4090); (69624, 0); (69628, -2)].

(** * Well-formed heaps *)

(** ** Arithmetic of headers *)

Lemma wrap_id z : is_int z -> wrap z = z.
Proof. unfold is_int, wrap. lia. Qed.

Lemma wrap_is_int z : is_int (wrap z).
Proof. unfold is_int, wrap. lia. Qed.

Lemma land_1 x : Z.land x 1 = x mod 2.
Proof. change 1 with (Z.ones 1). now rewrite Z.land_ones by lia. Qed.

Lemma land_2_mod4 x : Z.land x 2 = Z.land (x mod 4) 2.
Proof.
  change (x mod 4) with (x mod 2 ^ 2).
  rewrite <- Z.land_ones, <- Z.land_assoc by lia. reflexivity.
Qed.

Lemma land_2 x : Z.land x 2 = if x mod 4 <? 2 then 0 else 2.
Proof.
  rewrite land_2_mod4.
  assert (H : x mod 4 = 0 \/ x mod 4 = 1 \/ x mod 4 = 2 \/ x mod 4 = 3) by lia.
  destruct H as [-> | [-> | [-> | ->]]]; reflexivity.
Qed.

Ltac bits :=
  cbn [negb andb];
  repeat match goal with
         | |- context [?a =? ?b] => destruct (Z.eqb_spec a b)
         end;
  try reflexivity; try lia.

Section Header.
Variables (s : Z) (al p : bool).
Hypothesis Hs : 0 <= s.
Hypothesis H8 : s mod 8 = 0.

Lemma hdr_land_1 : (Z.land (hdr s al p) 1 =? 0) = negb al.
Proof. rewrite land_1. unfold hdr. destruct al, p; bits. Qed.

Lemma hdr_land_2 : (Z.land (hdr s al p) 2 =? 0) = negb p.
Proof.
  rewrite land_2. unfold hdr.
  destruct al, p; cbn [negb];
    match goal with |- context [?a <? ?b] => destruct (Z.ltb_spec a b) end;
    try reflexivity; lia.
Qed.

Lemma hdr_rem_2 : (Z.rem (hdr s al p) 2 =? 0) = negb al.
Proof. unfold hdr. destruct al, p; bits. Qed.

Lemma hdr_rem_2_1 : (Z.rem (hdr s al p) 2 =? 1) = al.
Proof. unfold hdr. destruct al, p; bits. Qed.

Lemma hdr_rem_8 : (Z.rem (hdr s al p) 8 =? 0) = negb al && negb p.
Proof. unfold hdr. destruct al, p; bits. Qed.

Lemma hdr_quot_8 : Z.quot (hdr s al p) 8 * 8 = s.
Proof. unfold hdr. destruct al, p; lia. Qed.

Lemma hdr_true_size : is_int (hdr s al p) -> true_size (hdr s al p) = s.
Proof.
  intros Hi. unfold true_size. rewrite hdr_land_1, hdr_land_2, !negb_involutive.
  unfold is_int, hdr in *. destruct al, p; rewrite ?wrap_id; unfold is_int; try lia.
  all: rewrite ?wrap_id; unfold is_int; lia.
Qed.
End Header.

(** ** Memory *)

Lemma rd_insert_eq m a v : rd (<[a := v]> m) a = v.
Proof. unfold rd. now rewrite lookup_insert_eq. Qed.

Lemma rd_insert_ne m a b v : a <> b -> rd (<[a := v]> m) b = rd m b.
Proof. intros. unfold rd. now rewrite lookup_insert_ne. Qed.

Lemma load_Some h a : mapped h a = true -> load h a = Some (rd (mem h) a).
Proof. unfold load. now intros ->. Qed.

Lemma store_Some h a v :
  mapped h a = true -> store h a v = Some (set_mem h (<[a := v]> (mem h))).
Proof. unfold store. now intros ->. Qed.

Lemma load_inv h a v : load h a = Some v -> mapped h a = true /\ v = rd (mem h) a.
Proof. unfold load. destruct (mapped h a); now inversion 1. Qed.

Lemma store_inv h a v h' :
  store h a v = Some h' -> mapped h a = true /\ h' = set_mem h (<[a := v]> (mem h)).
Proof. unfold store. destruct (mapped h a); now inversion 1. Qed.

Lemma mapped_set_mem h m a : mapped (set_mem h m) a = mapped h a.
Proof. reflexivity. Qed.

(** ** The block list of a heap *)

Lemma total_app l1 l2 : total (l1 ++ l2) = total l1 + total l2.
Proof. induction l1 as [|[s al] l1 IH]; simpl; lia. Qed.

Lemma last_used_app p l1 l2 :
  last_used p (l1 ++ l2) = last_used (last_used p l1) l2.
Proof. revert p. induction l1 as [|[s al] l1 IH]; simpl; auto. Qed.

Lemma last_used_false pre :
  last_used true pre = false -> exists pre0 s0, pre = pre0 ++ [(s0, false)].
Proof.
  induction pre as [|[s al] pre _] using rev_ind; [discriminate|].
  rewrite last_used_app. simpl. intros ->. eauto.
Qed.

Lemma seg_total m a p bs : seg m a p bs -> 0 <= total bs.
Proof.
  revert a p. induction bs as [|[s al] bs IH]; simpl; intros a p; [lia|].
  intros (? & ? & ? & H). apply IH in H. lia.
Qed.

Lemma seg_total8 m a p bs : seg m a p bs -> total bs mod 8 = 0.
Proof.
  revert a p. induction bs as [|[s al] bs IH]; simpl; intros a p; [lia|].
  intros (? & ? & ? & H). apply IH in H. lia.
Qed.

Lemma seg_app m a p l1 l2 :
  seg m a p (l1 ++ l2) <->
  seg m a p l1 /\ seg m (a + total l1) (last_used p l1) l2.
Proof.
  revert a p. induction l1 as [|[s al] l1 IH]; simpl; intros a p.
  - rewrite Z.add_0_r. tauto.
  - rewrite IH, Z.add_assoc. tauto.
Qed.

(** A layout only depends on the words at the addresses [a + 8 k]
    inside it. *)
Lemma seg_frame m m' a p bs :
  seg m a p bs ->
  (forall y, a <= y < a + total bs -> (y - a) mod 8 = 0 -> rd m' y = rd m y) ->
  seg m' a p bs.
Proof.
  revert a p. induction bs as [|[s al] bs IH]; simpl; intros a p; [tauto|].
  intros (Hs & H8 & Hr & Hseg) Hm.
  pose proof (seg_total _ _ _ _ Hseg).
  repeat split; try assumption.
  - rewrite Hm; [assumption|lia|lia].
  - apply IH; [assumption|]. intros y Hy Hy8. apply Hm; lia.
Qed.

Lemma seg_insert m a p bs x v :
  seg m a p bs -> x < a \/ a + total bs <= x \/ (x - a) mod 8 <> 0 ->
  seg (<[x := v]> m) a p bs.
Proof.
  intros Hseg Hx. apply (seg_frame m); [assumption|].
  intros y Hy Hy8. apply rd_insert_ne. lia.
Qed.

Lemma Geo_set_mem h m : Geo h -> Geo (set_mem h m).
Proof. intros []. constructor; assumption. Qed.

Lemma Geo_mapped h x :
  Geo h -> heapStart h - 4 <= x <= heapStart h + allocsize h -> x mod 4 = 0 ->
  mapped h x = true.
Proof.
  intros [] Hx H4. unfold mapped.
  rewrite !andb_true_iff, !Z.leb_le, Z.eqb_eq. lia.
Qed.

Lemma Geo_mapped_hdr h x :
  Geo h -> heapStart h <= x <= heapStart h + allocsize h ->
  (x - heapStart h) mod 8 = 0 -> mapped h x = true.
Proof. intros HG Hx H8. apply Geo_mapped; [assumption|lia|]. destruct HG. lia. Qed.

Lemma Rep_block_bounds h pre s al post :
  Rep h (pre ++ (s, al) :: post) ->
  8 <= s /\ s mod 8 = 0 /\ 0 <= total pre /\ 0 <= total post /\
  total pre + s + total post <= allocsize h /\ total pre mod 8 = 0 /\
  rd (mem h) (heapStart h + total pre) = hdr s al (last_used true pre).
Proof.
  intros [HG Ht Hs _]. rewrite total_app in Ht. simpl in Ht.
  apply seg_app in Hs as [Hpre (H8 & Hm & Hr & Hpost)].
  apply seg_total in Hpost. pose proof (seg_total _ _ _ _ Hpre).
  pose proof (seg_total8 _ _ _ _ Hpre).
  destruct HG. repeat split; try assumption; lia.
Qed.

(** ** The walk of [dispMem] on a well-formed heap *)

Lemma walk_seg h (HG : Geo h) bs :
  forall fuel a p n,
  seg (mem h) a p bs -> heapStart h <= a -> (a - heapStart h) mod 8 = 0 ->
  a + total bs <= heapStart h + allocsize h ->
  rd (mem h) (a + total bs) = 1 ->
  walk fuel h a n =
    if (length bs <? fuel)%nat then Some (rows_of a p n bs) else None.
Proof.
  induction bs as [|[s al] bs IH]; intros fuel a p n Hseg Ha Ha8 Ht He;
    (destruct fuel as [|fuel]; [reflexivity|]); simpl in Ht.
  - simpl. rewrite load_Some by (apply Geo_mapped_hdr; [assumption|lia|assumption]).
    simpl. rewrite Z.add_0_r in He. rewrite He. reflexivity.
  - destruct Hseg as (Hs & H8 & Hr & Hseg).
    pose proof (seg_total _ _ _ _ Hseg) as Hpos.
    assert (Hi : is_int (hdr s al p))
      by (destruct HG; unfold is_int, hdr; destruct al, p; lia).
    assert (Hi' : is_int (hdr s false p))
      by (destruct HG; unfold is_int, hdr; destruct p; lia).
    cbn [walk length].
    rewrite load_Some by (apply Geo_mapped_hdr; [assumption|lia|assumption]).
    cbn [mbind option_bind]. rewrite Hr.
    replace (hdr s al p =? 1) with false
      by (symmetry; apply Z.eqb_neq; unfold hdr; destruct al, p; lia).
    rewrite hdr_land_1, negb_involutive by lia.
    replace (if al then wrap (hdr s al p - 1) else hdr s al p)
      with (hdr s false p).
    2:{ destruct al; [|reflexivity]. rewrite wrap_id.
        - unfold hdr. lia.
        - unfold is_int, hdr in *. destruct p; lia. }
    rewrite hdr_land_2, negb_involutive by lia.
    replace (if p then wrap (hdr s false p - 2) else hdr s false p) with s.
    2:{ destruct p.
        - rewrite wrap_id; unfold is_int, hdr in *; lia.
        - unfold hdr. lia. }
    rewrite (IH fuel (a + s) al)
      by (try assumption; try lia; now rewrite <- Z.add_assoc).
    change (S (length bs) <? S fuel)%nat with (length bs <? fuel)%nat.
    destruct (length bs <? fuel)%nat; reflexivity.
Qed.

Lemma Rep_chain h bs :
  Rep h bs -> chain h (rows_of (heapStart h) true 1 bs).
Proof.
  intros [HG Ht Hs He]. exists (S (length bs)). unfold dispMem.
  rewrite (walk_seg h HG bs _ _ true) by (try assumption; lia).
  now rewrite (proj2 (Nat.ltb_lt _ _)) by lia.
Qed.

Lemma Rep_chain_inv h bs rows :
  Rep h bs -> chain h rows -> rows = rows_of (heapStart h) true 1 bs.
Proof.
  intros [HG Ht Hs He] [fuel Hw]. unfold dispMem in Hw.
  rewrite (walk_seg h HG bs _ _ true) in Hw by (try assumption; lia).
  destruct (length bs <? fuel)%nat; congruence.
Qed.

Lemma no_adjacent_free_rows a p n bs :
  no_adjacent_free (rows_of a p n bs) = nadj bs.
Proof.
  revert a p n. induction bs as [|[s al] [|[s2 al2] bs] IH]; intros a p n;
    try reflexivity.
  specialize (IH (a + s) al (wrap (n + 1))). simpl in *. now rewrite IH.
Qed.

Lemma pbits_consistent_rows a p n bs :
  pbits_consistent (rows_of a p n bs) = true.
Proof.
  revert a p n. induction bs as [|[s al] [|[s2 al2] bs] IH]; intros a p n;
    try reflexivity.
  specialize (IH (a + s) al (wrap (n + 1))). simpl in *.
  rewrite IH. now destruct al.
Qed.

Lemma rows_of_app a p n l1 l2 :
  exists n', rows_of a p n (l1 ++ l2) =
    rows_of a p n l1 ++ rows_of (a + total l1) (last_used p l1) n' l2.
Proof.
  revert a p n. induction l1 as [|[s al] l1 IH]; simpl; intros a p n.
  - exists n. now rewrite Z.add_0_r.
  - destruct (IH (a + s) al (wrap (n + 1))) as [n' ->]. exists n'.
    now rewrite Z.add_assoc.
Qed.

Lemma rows_of_In m a p n bs r :
  seg m a p bs -> In r (rows_of a p n bs) ->
  In (t_size r, r_used r) bs /\ a <= t_begin r /\ t_end r = t_begin r + t_size r - 1.
Proof.
  revert a p n. induction bs as [|[s al] bs IH]; simpl; intros a p n; [tauto|].
  intros (Hs & H8 & Hr & Hseg) [<-|Hin]; simpl.
  - split; [now left|lia].
  - destruct (IH _ _ _ Hseg Hin) as (? & ? & ?). split; [now right|lia].
Qed.

(** ** [myInit] builds a well-formed heap *)

Lemma init_allocsize sz ps :
  0 < sz <= 2147483647 -> 16 <= ps <= 2147483647 -> ps mod 8 = 0 ->
  let a0 := wrap (sz + Z.rem (wrap (ps - Z.rem sz ps)) ps) in
  to_uint a0 <= 2147483647 ->
  16 <= a0 /\ a0 mod 8 = 0 /\ to_uint a0 = a0.
Proof.
  intros Hsz Hps Hps8 a0. subst a0.
  rewrite (Z.rem_mod_nonneg sz ps) by lia.
  pose proof (Z.mod_pos_bound sz ps ltac:(lia)) as Hr.
  pose proof (Z.div_mod sz ps ltac:(lia)) as Hdm.
  assert (Hq : 0 <= sz / ps) by (apply Z.div_pos; lia).
  rewrite (wrap_id (ps - sz mod ps)) by (unfold is_int; lia).
  rewrite Z.rem_mod_nonneg by lia.
  set (q := sz / ps) in *. set (r := sz mod ps) in *.
  assert (Hsum : exists k, 1 <= k /\ sz + (ps - r) mod ps = ps * k /\
                           (ps - r) mod ps < ps).
  { destruct (Z.eq_dec r 0) as [Hr0|Hr0].
    - exists q. rewrite Hr0, Z.sub_0_r, Z.mod_same by lia.
      assert (q <> 0) by (intros Hq0; rewrite Hq0 in Hdm; lia).
      repeat split; lia.
    - exists (q + 1). rewrite Z.mod_small by lia. repeat split; lia. }
  destruct Hsum as (k & Hk & Hsum & Hpad). rewrite Hsum.
  assert (Hge : ps <= ps * k) by nia.
  assert (Hlt : ps * k < 4294967296) by lia.
  assert (H8 : (ps * k) mod 8 = 0).
  { destruct (Z.mod_divide ps 8 ltac:(lia)) as [Hd _].
    destruct (Hd Hps8) as [j ->].
    replace (j * 8 * k) with (j * k * 8) by ring. apply Z.mod_mul. lia. }
  clear Hsum Hdm. revert H8 Hge Hlt. generalize (ps * k). intros t H8 Hge Hlt.
  unfold to_uint, wrap. intros Hu. lia.
Qed.

Lemma myInit_Rep e sz h :
  os_ok e h -> is_int sz -> myInit e boot sz = Some (h, 0) ->
  Rep h [(allocsize h, false)].
Proof.
  intros (Hps & Hps8 & Hlo & Hal & Htop & Hlen) Hi. unfold myInit.
  cbn [allocated_once boot].
  destruct (sz <=? 0) eqn:Hsz; [discriminate|]. apply Z.leb_gt in Hsz.
  destruct (open_dev_zero e =? -1); [discriminate|].
  destruct (mmap e =? MAP_FAILED); [discriminate|].
  set (a0 := wrap (sz + Z.rem (wrap (getpagesize e - Z.rem sz (getpagesize e)))
                             (getpagesize e))).
  intros H.
  repeat match type of H with
         | (?x ≫= _) = Some _ =>
             let E := fresh "E" in
             destruct x eqn:E; cbn [mbind option_bind] in H; [|discriminate]
         end.
  injection H as <-.
  apply store_inv in E as [_ ->]. apply store_inv in E0 as [_ ->].
  apply load_inv in E1 as [_ ->]. apply store_inv in E2 as [_ ->].
  apply store_inv in E3 as [_ ->].
  cbn [set_mem mem map_lo map_hi heapStart allocsize allocated_once] in *.
  destruct (init_allocsize sz (getpagesize e)) as (H16 & H8 & Hu);
    [unfold is_int in Hi; lia|lia|assumption | fold a0; lia |].
  fold a0 in H16, H8, Hu.
  assert (Ha : wrap (a0 - 8) = a0 - 8) by (apply wrap_id; unfold is_int; lia).
  rewrite Ha in *. rewrite rd_insert_eq.
  assert (Hw : wrap (a0 - 8 + 2) = a0 - 8 + 2)
    by (apply wrap_id; unfold is_int; lia).
  rewrite Hw.
  assert (Hm8 : mmap e mod 8 = 0).
  { destruct (Z.mod_divide (mmap e) (getpagesize e) ltac:(lia)) as [Hd _].
    destruct (Hd Hal) as [j Hj].
    destruct (Z.mod_divide (getpagesize e) 8 ltac:(lia)) as [Hd8 _].
    destruct (Hd8 Hps8) as [i Hi8]. rewrite Hj, Hi8.
    replace (j * (i * 8)) with (j * i * 8) by ring. apply Z.mod_mul. lia. }
  clearbody a0.
  constructor; cbn [set_mem mem map_lo map_hi heapStart allocsize allocated_once total seg].
  - constructor; cbn [set_mem mem map_lo map_hi heapStart allocsize allocated_once];
      try reflexivity; lia.
  - lia.
  - repeat split; try lia.
    rewrite rd_insert_ne, rd_insert_eq by lia. unfold hdr. lia.
  - rewrite Z.add_0_r, !rd_insert_ne, rd_insert_eq by lia. reflexivity.
Qed.

(** ** [myFree] on a well-formed heap *)

Ltac rd_simpl :=
  repeat first [rewrite rd_insert_eq | rewrite rd_insert_ne by lia].

Ltac geo_facts HG :=
  pose proof (geo_lo _ HG); pose proof (geo_lo8 _ HG);
  pose proof (geo_start _ HG); pose proof (geo_hi _ HG);
  pose proof (geo_top _ HG); pose proof (geo_size _ HG);
  pose proof (geo_size8 _ HG).

Ltac mapped_tac HG :=
  repeat rewrite mapped_set_mem; apply (Geo_mapped _ _ HG); lia.

Ltac do_store HG :=
  rewrite store_Some by mapped_tac HG; cbn [mbind option_bind mem set_mem].

Ltac do_load HG :=
  rewrite load_Some by mapped_tac HG; cbn [mbind option_bind mem set_mem].

Lemma Rep_split h pre mid post :
  Rep h (pre ++ mid ++ post) ->
  seg (mem h) (heapStart h) true pre /\
  seg (mem h) (heapStart h + total pre) (last_used true pre) mid /\
  seg (mem h) (heapStart h + total pre + total mid)
      (last_used (last_used true pre) mid) post /\
  total pre + total mid + total post <= allocsize h /\
  0 <= total pre /\ 0 <= total mid /\ 0 <= total post /\ total pre mod 8 = 0 /\
  total mid mod 8 = 0 /\
  rd (mem h) (heapStart h + total pre + total mid + total post) = 1.
Proof.
  intros [HG Ht Hs He]. rewrite !total_app in Ht, He.
  apply seg_app in Hs as [Hpre Hs]. apply seg_app in Hs as [Hmid Hpost].
  pose proof (seg_total _ _ _ _ Hpre). pose proof (seg_total _ _ _ _ Hmid).
  pose proof (seg_total _ _ _ _ Hpost). pose proof (seg_total8 _ _ _ _ Hpre).
  pose proof (seg_total8 _ _ _ _ Hmid).
  rewrite !Z.add_assoc in He.
  repeat split; try assumption; lia.
Qed.

Lemma Rep_rebuild h m' pre mid post :
  Geo h ->
  total pre + total mid + total post <= allocsize h ->
  seg m' (heapStart h) true pre ->
  seg m' (heapStart h + total pre) (last_used true pre) mid ->
  seg m' (heapStart h + total pre + total mid)
      (last_used (last_used true pre) mid) post ->
  rd m' (heapStart h + total pre + total mid + total post) = 1 ->
  Rep (set_mem h m') (pre ++ mid ++ post).
Proof.
  intros HG Ht Hpre Hmid Hpost He. constructor; cbn [set_mem mem heapStart allocsize].
  - now apply Geo_set_mem.
  - rewrite !total_app. lia.
  - rewrite !seg_app. auto.
  - rewrite !total_app, !Z.add_assoc. assumption.
Qed.

(** [myFree] on the payload address of an allocated block. *)
Lemma myFree_Rep h pre s post :
  Rep h (pre ++ (s, true) :: post) ->
  let c := heapStart h + total pre in
  exists h',
    myFree h (c + 4) = Some (h', 0) /\
    Rep h' (pre ++ (s, false) :: post) /\
    h' = set_mem h (mem h') /\
    rd (mem h') (c + s - 4) = s /\
    (forall x, x <> c -> x <> c + s - 4 -> x <> c + s ->
               rd (mem h') x = rd (mem h) x).
Proof.
  intros HR c. subst c.
  destruct (Rep_block_bounds _ _ _ _ _ HR)
    as (Hs & Hs8 & Hpre & Hpost & Htot & Hpre8 & Hrd).
  destruct (Rep_split h pre [(s, true)] post HR)
    as (Spre & _ & Spost & _ & _ & _ & _ & _ & _ & Hend).
  cbn [total last_used] in Spost, Hend. rewrite Z.add_0_r in Spost, Hend.
  pose proof (rep_geo _ _ HR) as HG. geo_facts HG.
  remember (heapStart h + total pre) as c eqn:Hc.
  set (p := last_used true pre) in *.
  unfold myFree.
  destruct (Z.eqb_spec (c + 4) NULL) as [E|_]; [unfold NULL in E; lia|].
  assert (Hu : to_uint (c + 4) = c + 4) by (unfold to_uint; lia).
  assert (Hus : to_uint (heapStart h) = heapStart h) by (unfold to_uint; lia).
  rewrite Hu, Hus.
  destruct (Z.eqb_spec ((c + 4) mod 8) 0) as [_|E]; [|lia]. cbn [negb].
  destruct (Z.ltb_spec (c + 4) (heapStart h)) as [E|_]; [lia|].
  replace (c + 4 - 4) with c by lia.
  do_load HG. rewrite Hrd, hdr_rem_2_1 by lia. cbn [negb].
  assert (Hw : wrap (hdr s true p - 1) = hdr s false p)
    by (rewrite wrap_id; unfold is_int, hdr; destruct p; lia).
  rewrite Hw. do_store HG. do_load HG. rd_simpl.
  rewrite hdr_quot_8 by lia. do_store HG. do_load HG. rd_simpl.
  rewrite hdr_quot_8 by lia. do_load HG. rd_simpl.
  destruct post as [|[s2 al2] post2].
  - cbn [total] in Hend. rewrite Z.add_0_r in Hend. rewrite Hend.
    cbn [Z.eqb Pos.eqb negb]. eexists. split; [reflexivity|].
    cbn [set_mem mem]. split_and!.
    2: reflexivity. 2: rd_simpl; reflexivity.
    2: intros x ? ? ?; rd_simpl; reflexivity.
    apply (Rep_rebuild h _ pre [(s, false)] []); try assumption;
      cbn [total last_used seg]; rewrite <- ?Hc, ?Z.add_0_r.
    + simpl in Htot. lia.
    + do 2 (apply seg_insert; [|lia]). assumption.
    + rd_simpl. repeat split; try lia; reflexivity.
    + rd_simpl. assumption.
  - destruct Spost as (Hs2 & Hs28 & Hr2 & Spost2). cbn [total] in *.
    pose proof (seg_total _ _ _ _ Spost2).
    rewrite Hr2.
    assert (E1 : (hdr s2 al2 true =? 1) = false)
      by (apply Z.eqb_neq; unfold hdr; destruct al2; lia).
    rewrite E1. cbn [negb]. do_store HG.
    assert (Hw2 : wrap (hdr s2 al2 true - 2) = hdr s2 al2 false)
      by (rewrite wrap_id; unfold is_int, hdr; destruct al2; lia).
    rewrite Hw2. eexists. split; [reflexivity|].
    cbn [set_mem mem]. split_and!.
    2: reflexivity. 2: rd_simpl; reflexivity.
    2: intros x ? ? ?; rd_simpl; reflexivity.
    apply (Rep_rebuild h _ pre [(s, false)] ((s2, al2) :: post2)); try assumption;
      cbn [total last_used seg]; rewrite <- ?Hc, ?Z.add_0_r.
    + lia.
    + do 3 (apply seg_insert; [|lia]). assumption.
    + rd_simpl. repeat split; try lia; reflexivity.
    + repeat split; try assumption.
      * rd_simpl. reflexivity.
      * do 3 (apply seg_insert; [|lia]). assumption.
    + rd_simpl. assumption.
Qed.

(** ** [myAlloc] on a well-formed heap *)

Lemma best_fit_seg h (HG : Geo h) size bs :
  forall fuel a p mA blk pb,
  seg (mem h) a p bs -> heapStart h <= a -> (a - heapStart h) mod 8 = 0 ->
  a + total bs <= heapStart h + allocsize h ->
  rd (mem h) (a + total bs) = 1 ->
  best_fit fuel h size a mA blk pb =
    if (length bs <? fuel)%nat then Some (pick size a p bs (mA, blk, pb))
    else None.
Proof.
  geo_facts HG.
  induction bs as [|[s al] bs IH]; intros fuel a p mA blk pb Hseg Ha Ha8 Ht He;
    (destruct fuel as [|fuel]; [reflexivity|]); simpl in Ht.
  - cbn [best_fit]. do_load HG. rewrite Z.add_0_r in He. rewrite He. reflexivity.
  - destruct Hseg as (Hs & H8 & Hr & Hseg).
    pose proof (seg_total _ _ _ _ Hseg) as Hpos.
    assert (Hi : is_int (hdr s al p))
      by (unfold is_int, hdr; destruct al, p; lia).
    cbn [best_fit length pick]. do_load HG. rewrite Hr.
    assert (E1 : (hdr s al p =? 1) = false)
      by (apply Z.eqb_neq; unfold hdr; destruct al, p; lia).
    rewrite E1.
    rewrite hdr_true_size, hdr_rem_2, hdr_land_2, negb_involutive by (assumption || lia).
    cbn [fst].
    change (S (length bs) <? S fuel)%nat with (length bs <? fuel)%nat.
    destruct (negb al && (size <=? s) && ((mA =? -1) || (s <? mA)));
      rewrite (IH fuel (a + s) al)
        by (try assumption; try lia; now rewrite <- Z.add_assoc);
      reflexivity.
Qed.

Lemma pick_spec size m bs :
  forall a p mA blk pb, seg m a p bs ->
  let r := pick size a p bs (mA, blk, pb) in
  (r = (mA, blk, pb) /\
   forall s, In (s, false) bs -> size <= s -> mA <> -1 /\ mA <= s) \/
  (exists pre s post,
     bs = pre ++ (s, false) :: post /\
     r = (s, a + total pre, if last_used p pre then 2 else 0) /\
     size <= s /\ (mA = -1 \/ s < mA) /\
     (forall s', In (s', false) pre -> size <= s' -> s < s') /\
     (forall s', In (s', false) post -> size <= s' -> s <= s')).
Proof.
  induction bs as [|[s0 al0] bs IH]; intros a p mA blk pb Hseg; cbn [pick fst].
  - left. split; [reflexivity|]. intros s [].
  - destruct Hseg as (Hs & H8 & Hr & Hseg).
    destruct (negb al0 && (size <=? s0) && ((mA =? -1) || (s0 <? mA))) eqn:Hc.
    + apply andb_true_iff in Hc as [Hc Hc3]. apply andb_true_iff in Hc as [Hc1 Hc2].
      apply negb_true_iff in Hc1. subst al0. apply Z.leb_le in Hc2.
      assert (HmA : mA = -1 \/ s0 < mA)
        by (apply orb_true_iff in Hc3 as [?%Z.eqb_eq | ?%Z.ltb_lt]; auto).
      right.
      destruct (IH (a + s0) false s0 a (if p then 2 else 0) Hseg)
        as [[-> Hall] | (pre & s & post & -> & -> & Hsz & Hlt & Hpre & Hpost)].
      * exists [], s0, bs. cbn [total last_used app]. rewrite Z.add_0_r.
        repeat split; try assumption; try reflexivity.
        -- intros s' [].
        -- intros s' Hin Hs'. now apply Hall.
      * exists ((s0, false) :: pre), s, post. cbn [total last_used app].
        rewrite Z.add_assoc. repeat split; try assumption; try reflexivity.
        -- lia.
        -- intros s' [[= <-]|Hin] Hs'; [lia|auto].
    + assert (Hhead : al0 = false -> size <= s0 -> mA <> -1 /\ mA <= s0).
      { intros -> Hsz. cbn [negb andb] in Hc.
        rewrite (proj2 (Z.leb_le _ _) Hsz) in Hc. cbn [andb] in Hc.
        apply orb_false_iff in Hc as [?%Z.eqb_neq ?%Z.ltb_ge]. lia. }
      destruct (IH (a + s0) al0 mA blk pb Hseg)
        as [[-> Hall] | (pre & s & post & -> & -> & Hsz & Hlt & Hpre & Hpost)].
      * left. split; [reflexivity|]. intros s' [[= <- ->]|Hin] Hs'; auto.
      * right. exists ((s0, al0) :: pre), s, post. cbn [total last_used app].
        rewrite Z.add_assoc. repeat split; try assumption; try reflexivity.
        intros s' [[= <- ->]|Hin] Hs'; [|auto].
        destruct (Hhead eq_refl Hs'). lia.
Qed.

Lemma block_size_int sz :
  0 < sz <= 2147483647 ->
  block_size sz mod 8 = 0 /\ is_int (block_size sz) /\
  (8 <= block_size sz \/ block_size sz <= -2147483632).
Proof.
  intros Hsz. unfold block_size, hdr_size.
  assert (Ht : wrap (4 + sz) = 4 + sz \/ wrap (4 + sz) = 4 + sz - 4294967296)
    by (unfold wrap; lia).
  pose proof (wrap_is_int (4 + sz)) as Hti. revert Ht Hti.
  generalize (wrap (4 + sz)). intros t Ht Hti.
  destruct (Z.eqb_spec (Z.rem t 8) 0) as [H0|H0]; cbn [negb].
  - unfold is_int in *. lia.
  - pose proof (wrap_is_int (wrap (t + 8) - Z.rem t 8)) as Hbi.
    unfold is_int in *. unfold wrap in *. lia.
Qed.

(** The three ways in which [myAlloc] takes a free block of size [s]:
    whole, split in two, or cut short because the word where the
    remainder's header goes reads 1. *)
Lemma myAlloc_Rep fuel h bs sz h' ptr :
  Rep h bs -> is_int sz -> myAlloc fuel h sz = Some (h', ptr) ->
  (ptr = NULL /\ h' = h) \/
  (exists pre s post,
     bs = pre ++ (s, false) :: post /\ ptr = heapStart h + total pre + 4 /\
     0 < sz /\ 8 <= block_size sz <= s /\
     (forall s', In (s', false) pre -> block_size sz <= s' -> s < s') /\
     (forall s', In (s', false) post -> block_size sz <= s' -> s <= s') /\
     heapStart h' = heapStart h /\
     ((s = block_size sz /\ Rep h' (pre ++ (s, true) :: post)) \/
      (block_size sz < s /\
       rd (mem h) (heapStart h + total pre + block_size sz) <> 1 /\
       Rep h' (pre ++ (block_size sz, true) :: (s - block_size sz, false) :: post) /\
       rd (mem h') (heapStart h + total pre + s - 4) =
       rd (mem h) (heapStart h + total pre + s - 4)) \/
      (block_size sz < s /\
       rd (mem h) (heapStart h + total pre + block_size sz) = 1 /\
       Rep h' (pre ++ [(block_size sz, true)])))).
Proof.
  intros HR Hi. unfold myAlloc.
  destruct (sz <=? 0) eqn:Hsz; [intros [= <- <-]; now left|].
  apply Z.leb_gt in Hsz.
  destruct (block_size_int sz) as (HB8 & HBi & HB); [unfold is_int in Hi; lia|].
  set (B := block_size sz) in *.
  destruct (allocsize h <? B) eqn:Hfit; [intros [= <- <-]; now left|].
  apply Z.ltb_ge in Hfit.
  pose proof (rep_geo _ _ HR) as HG. geo_facts HG.
  pose proof (rep_total _ _ HR) as Htotal.
  rewrite (best_fit_seg h HG B bs fuel _ true)
    by (try apply HR; try lia).
  destruct (length bs <? fuel)%nat; [|discriminate].
  cbn [mbind option_bind].
  destruct (pick_spec B (mem h) bs (heapStart h) true (-1) NULL 0 (rep_seg _ _ HR))
    as [[-> Hall] | (pre & s & post & -> & -> & Hsz' & _ & Hpre & Hpost)].
  - destruct (Z.ltb_spec B (-1)).
    + unfold store, mapped. replace (map_lo h <=? NULL) with false
        by (symmetry; apply Z.leb_gt; unfold NULL; lia).
      discriminate.
    + destruct (Z.eqb_spec (-1) B); [lia|]. intros [= <- <-]. now left.
  - destruct (Rep_block_bounds _ _ _ _ _ HR)
      as (Hs & Hs8 & Hpre0 & Hpost0 & Htot & Hpre8 & Hrd).
    destruct (Rep_split h pre [(s, false)] post HR)
      as (Spre & _ & Spost & _ & _ & _ & _ & _ & _ & Hend).
    cbn [total last_used] in Spost, Hend. rewrite Z.add_0_r in Spost, Hend.
    remember (heapStart h + total pre) as c eqn:Hc.
    set (p := last_used true pre) in *.
    destruct HB as [HB|HB].
    2:{ (* the block size wrapped around: the access at [block + size] faults *)
      destruct (Z.ltb_spec B s); [|lia].
      do_store HG. unfold load, mapped.
      replace (map_lo (set_mem h _) <=? c + B) with false
        by (symmetry; apply Z.leb_gt; cbn [set_mem map_lo]; lia).
      discriminate. }
    intros Hres. right. exists pre, s, post. rewrite <- Hc.
    split; [reflexivity|].
    destruct (Z.ltb_spec B s) as [Hlt|Hge].
    + (* the block is larger than the block size *)
      assert (Hw1 : wrap (wrap (B + (if p then 2 else 0)) + 1) = hdr B true p).
      { unfold hdr. rewrite !wrap_id; unfold is_int; try rewrite wrap_id;
          unfold is_int; destruct p; lia. }
      assert (Hw2 : wrap (wrap (s - B) + 2) = hdr (s - B) false true).
      { unfold hdr. rewrite !wrap_id; unfold is_int; try rewrite wrap_id;
          unfold is_int; lia. }
      rewrite Hw1, Hw2 in Hres. revert Hres. do_store HG. do_load HG. rd_simpl.
      destruct (Z.eqb_spec (rd (mem h) (c + B)) 1) as [Hsp|Hsp].
      * (* the early return *)
        intros [= <- <-]. split_and!; try assumption; try lia; try reflexivity.
        right. right. split_and!; try assumption.
        apply (Rep_rebuild h _ pre [(B, true)] []); try assumption;
          cbn [total last_used seg]; rewrite <- ?Hc, ?Z.add_0_r.
        -- simpl in Htot. lia.
        -- apply seg_insert; [|lia]. assumption.
        -- rd_simpl. repeat split; try lia; reflexivity.
        -- exact I.
        -- match goal with |- rd _ ?a = 1 => replace a with (c + B) by lia end.
           rd_simpl. assumption.
      * do_store HG. intros [= <- <-].
        split_and!; try assumption; try lia; try reflexivity.
        right. left. split_and!; try assumption.
        -- apply (Rep_rebuild h _ pre [(B, true); (s - B, false)] post); try assumption;
             cbn [total last_used seg]; rewrite <- ?Hc, ?Z.add_0_r.
           ++ simpl in Htot. lia.
           ++ do 2 (apply seg_insert; [|lia]). assumption.
           ++ rd_simpl. repeat split; try lia; reflexivity.
           ++ replace (c + (B + (s - B))) with (c + s) by lia.
              do 2 (apply seg_insert; [|lia]). assumption.
           ++ replace (c + (B + (s - B)) + total post) with (c + s + total post) by lia.
              rd_simpl. assumption.
        -- cbn [set_mem mem]. rd_simpl. reflexivity.
    + (* exact fit *)
      assert (s = B) by lia. subst s. rewrite Z.eqb_refl in Hres.
      revert Hres. do_load HG. rewrite Hrd.
      assert (Hw1 : wrap (hdr B false p + 1) = hdr B true p).
      { unfold hdr. rewrite !wrap_id; unfold is_int; destruct p; lia. }
      rewrite Hw1. do_store HG. do_load HG. rd_simpl. intros Hres.
      assert (E : ptr = c + 4 /\ heapStart h' = heapStart h /\
                  Rep h' (pre ++ (B, true) :: post));
        [|destruct E as (? & ? & ?); split_and!; try assumption; try lia; left; auto].
      destruct post as [|[s2 al2] post2].
      * cbn [total] in Hend. rewrite Z.add_0_r in Hend.
        rewrite Hend in Hres. cbn [Z.eqb Pos.eqb] in Hres. injection Hres as <- <-.
        split; [reflexivity|]. split; [reflexivity|].
        apply (Rep_rebuild h _ pre [(B, true)] []); try assumption;
          cbn [total last_used seg]; rewrite <- ?Hc, ?Z.add_0_r.
        -- simpl in Htot. lia.
        -- apply seg_insert; [|lia]. assumption.
        -- rd_simpl. repeat split; try lia; reflexivity.
        -- rd_simpl. assumption.
      * destruct Spost as (Hs2 & Hs28 & Hr2 & Spost2). cbn [total] in *.
        pose proof (seg_total _ _ _ _ Spost2).
        rewrite Hr2 in Hres.
        assert (E1 : (hdr s2 al2 false =? 1) = false)
          by (apply Z.eqb_neq; unfold hdr; destruct al2; lia).
        rewrite E1 in Hres. revert Hres. do_store HG. intros [= <- <-].
        assert (Hw2 : wrap (hdr s2 al2 false + 2) = hdr s2 al2 true)
          by (rewrite wrap_id; unfold is_int, hdr; destruct al2; lia).
        rewrite Hw2. split; [reflexivity|]. split; [reflexivity|].
        apply (Rep_rebuild h _ pre [(B, true)] ((s2, al2) :: post2)); try assumption;
          cbn [total last_used seg]; rewrite <- ?Hc, ?Z.add_0_r.
        -- lia.
        -- do 2 (apply seg_insert; [|lia]). assumption.
        -- rd_simpl. repeat split; try lia; reflexivity.
        -- repeat split; try assumption.
           ++ rd_simpl. reflexivity.
           ++ do 2 (apply seg_insert; [|lia]). assumption.
        -- rd_simpl. assumption.
Qed.

(** ** [coalesce] on a well-formed heap *)

Ltac do_load_at HG a :=
  rewrite (load_Some _ a) by mapped_tac HG; cbn [mbind option_bind mem set_mem].

(** *** The block list after [coalesce] *)

Lemma squash_cons_free s bs :
  squash ((s, false) :: bs) =
    match squash bs with
    | (s2, false) :: t => (s + s2, false) :: t
    | t => (s, false) :: t
    end.
Proof. reflexivity. Qed.

Lemma squash_app_r l1 l2 : squash (l1 ++ l2) = squash (l1 ++ squash l2).
Proof.
  assert (Hid : forall l, squash (squash l) = squash l).
  { induction l as [|[s [|]] l IH]; [reflexivity| |].
    - simpl. destruct (squash l) as [|[s2 [|]] t]; simpl in *; now rewrite ?IH.
    - rewrite squash_cons_free. destruct (squash l) as [|[s2 [|]] t] eqn:E;
        try (rewrite squash_cons_free, IH; reflexivity).
      rewrite squash_cons_free. rewrite squash_cons_free in IH.
      destruct (squash t) as [|[s3 [|]] t'] eqn:E'; try assumption; try congruence.
      injection IH as Hs Ht. assert (s3 = 0) by lia. subst. now rewrite Z.add_0_r. }
  induction l1 as [|[s al] l1 IH]; simpl; [now rewrite Hid|]. now rewrite IH.
Qed.

Lemma squash_merge l1 s s2 l2 :
  squash (l1 ++ (s, false) :: (s2, false) :: l2) = squash (l1 ++ (s + s2, false) :: l2).
Proof.
  rewrite squash_app_r, (squash_app_r l1 ((s + s2, false) :: l2)). f_equal.
  rewrite !squash_cons_free. destruct (squash l2) as [|[s3 [|]] t]; try reflexivity.
  now rewrite Z.add_assoc.
Qed.

Lemma squash_nadj bs : nadj (squash bs) = true.
Proof.
  induction bs as [|[s [|]] bs IH]; [reflexivity| |].
  - simpl. destruct (squash bs) as [|[s2 al2] t]; [reflexivity|]. simpl in *. assumption.
  - rewrite squash_cons_free. destruct (squash bs) as [|[s2 [|]] t]; try reflexivity.
    + simpl in *. assumption.
    + destruct t as [|[s3 al3] t]; [reflexivity|]. simpl in *.
      apply andb_true_iff in IH as [H1 H2]. destruct al3; [assumption|discriminate].
Qed.

Lemma nadj_squash bs : nadj bs = true -> squash bs = bs.
Proof.
  induction bs as [|[s al] bs IH]; [reflexivity|]. intros Hn.
  assert (Hn' : nadj bs = true).
  { destruct bs as [|[s2 al2] bs]; [reflexivity|]. simpl in Hn.
    now apply andb_true_iff in Hn as [_ ?]. }
  destruct al; simpl; rewrite (IH Hn'); [reflexivity|].
  destruct bs as [|[s2 [|]] bs]; try reflexivity. discriminate.
Qed.

Lemma total_squash bs : total (squash bs) = total bs.
Proof.
  induction bs as [|[s [|]] bs IH]; [reflexivity| |]; simpl.
  - now rewrite IH.
  - destruct (squash bs) as [|[s2 [|]] t]; simpl in *; lia.
Qed.

Lemma used_sat_app P a l1 l2 :
  used_sat P a (l1 ++ l2) <-> used_sat P a l1 \/ used_sat P (a + total l1) l2.
Proof.
  revert a. induction l1 as [|[s al] l1 IH]; simpl; intros a.
  - rewrite Z.add_0_r. tauto.
  - rewrite IH, Z.add_assoc. tauto.
Qed.

Lemma used_sat_squash P a bs : used_sat P a (squash bs) <-> used_sat P a bs.
Proof.
  revert a. induction bs as [|[s [|]] bs IH]; intros a; [reflexivity| |].
  - simpl. now rewrite IH.
  - rewrite squash_cons_free. specialize (IH (a + s)).
    destruct (squash bs) as [|[s2 [|]] t]; simpl in *; rewrite <- IH;
      rewrite ?Z.add_assoc; intuition congruence.
Qed.

Lemma nadj_app_free l1 s s2 l2 :
  nadj (l1 ++ (s, false) :: (s2, false) :: l2) = false.
Proof.
  induction l1 as [|[s1 al1] [|[s3 al3] l1] IH]; try reflexivity.
  - simpl. now rewrite andb_false_r.
  - change (nadj (((s1, al1) :: (s3, al3) :: l1) ++ (s, false) :: (s2, false) :: l2))
      with (negb (negb al1 && negb al3) &&
            nadj (((s3, al3) :: l1) ++ (s, false) :: (s2, false) :: l2)).
    rewrite IH. apply andb_false_r.
Qed.

Lemma in_used_bounds m x a p bs :
  seg m a p bs -> used_sat (in_used x) a bs -> a + 4 <= x <= a + total bs - 4.
Proof.
  revert a p. induction bs as [|[s al] bs IH]; simpl; intros a p; [tauto|].
  intros (Hs & H8 & Hr & Hseg) [[_ Hx]|Hu].
  - pose proof (seg_total _ _ _ _ Hseg). unfold in_used in Hx. lia.
  - specialize (IH _ _ Hseg Hu). lia.
Qed.

(** *** The two merges and the loop *)

Lemma merge_next_Rep h pre s rest :
  Rep h (pre ++ (s, false) :: rest) ->
  let c := heapStart h + total pre in
  exists h1 s1 rest',
    merge_next h c = Some h1 /\ heapStart h1 = heapStart h /\
    Rep h1 (pre ++ (s1, false) :: rest') /\
    (length rest' <= length rest)%nat /\
    rd (mem h1) (c - 4) = rd (mem h) (c - 4) /\
    (forall s3 r3, rest' = (s3, false) :: r3 -> rd (mem h1) (c + s1 - 4) = s1) /\
    squash (pre ++ (s1, false) :: rest') = squash (pre ++ (s, false) :: rest) /\
    (forall x, used_sat (in_used x) (heapStart h) (pre ++ (s, false) :: rest) ->
               rd (mem h1) x = rd (mem h) x) /\
    (nadj (pre ++ (s, false) :: rest) = true -> h1 = h /\ s1 = s /\ rest' = rest).
Proof.
  intros HR c. subst c.
  destruct (Rep_block_bounds _ _ _ _ _ HR)
    as (Hs & Hs8 & Hpre0 & Hpost0 & Htot & Hpre8 & Hrd).
  pose proof (rep_geo _ _ HR) as HG. geo_facts HG.
  pose proof (rep_end _ _ HR) as Hend. rewrite total_app, Z.add_assoc in Hend.
  remember (heapStart h + total pre) as c eqn:Hc.
  set (p := last_used true pre) in *.
  unfold merge_next. do_load HG. rewrite Hrd, hdr_quot_8 by lia.
  destruct rest as [|[s2 [|]] rest2].
  - (* the end mark follows *)
    simpl in Htot, Hend. rewrite Z.add_0_r in Hend. do_load HG. rewrite Hend.
    cbn [Z.rem Z.quotrem Z.eqb Pos.eqb negb andb]. simpl.
    exists h, s, []. split_and!; auto; intros; discriminate.
  - (* an allocated block follows *)
    destruct (Rep_split h pre [(s, false)] ((s2, true) :: rest2) HR)
      as (_ & _ & (Hs2 & Hs28 & Hr2 & Spost2) & _).
    cbn [total last_used] in Hr2, Htot. rewrite Z.add_0_r, <- Hc in Hr2.
    pose proof (seg_total _ _ _ _ Spost2).
    do_load HG. rewrite Hr2, hdr_rem_2 by lia. cbn [negb andb].
    exists h, s, ((s2, true) :: rest2). split_and!; auto; intros; discriminate.
  - (* a free block follows *)
    change (pre ++ (s, false) :: (s2, false) :: rest2)
      with (pre ++ [(s, false); (s2, false)] ++ rest2) in HR.
    destruct (Rep_split _ _ _ _ HR)
      as (Spre & (_ & _ & _ & Hs2 & Hs28 & Hr2 & _) & Spost & _ & _ & _ & _ & _ & _ & He).
    cbn [total last_used] in Spost, Hr2, Htot, He.
    rewrite <- Hc, ?Z.add_0_r in Spost, Hr2, He.
    replace (c + (s + (s2 + 0))) with (c + (s + s2)) in * by lia.
    pose proof (seg_total _ _ _ _ Spost).
    do_load HG. rewrite Hr2, hdr_rem_2 by lia.
    assert (E1 : (hdr s2 false false =? 1) = false)
      by (apply Z.eqb_neq; unfold hdr; lia).
    rewrite E1, hdr_quot_8 by lia. cbn [negb andb].
    assert (Hw : wrap (hdr s false p + s2) = hdr (s + s2) false p)
      by (rewrite wrap_id; unfold is_int, hdr; destruct p; lia).
    rewrite Hw. do_store HG. do_load HG. rd_simpl. rewrite hdr_quot_8 by lia.
    do_store HG.
    eexists _, (s + s2), rest2. split; [reflexivity|]. cbn [set_mem mem length].
    split_and!.
    + reflexivity.
    + apply (Rep_rebuild h _ pre [(s + s2, false)] rest2); try assumption;
        cbn [total last_used seg]; rewrite <- ?Hc, ?Z.add_0_r.
      * lia.
      * do 2 (apply seg_insert; [|lia]). assumption.
      * rd_simpl. repeat split; try lia; reflexivity.
      * do 2 (apply seg_insert; [|lia]). assumption.
      * rd_simpl. assumption.
    + lia.
    + rd_simpl. reflexivity.
    + rd_simpl. reflexivity.
    + symmetry. apply squash_merge.
    + intros x [Hu|Hu]%used_sat_app.
      * apply (in_used_bounds _ _ _ _ _ Spre) in Hu. rd_simpl. reflexivity.
      * rewrite <- Hc in Hu. cbn [used_sat] in Hu.
        destruct Hu as [[[=] _]|[[[=] _]|Hu]].
        replace (c + s + s2) with (c + (s + s2)) in Hu by lia.
        apply (in_used_bounds _ _ _ _ _ Spost) in Hu. rd_simpl. reflexivity.
    + intros Hn. now rewrite nadj_app_free in Hn.
Qed.

Lemma nadj_snoc l s al :
  nadj (l ++ [(s, al)]) = nadj l && (last_used true l || al).
Proof.
  induction l as [|[s1 al1] [|[s2 al2] l] IH].
  - reflexivity.
  - simpl. now destruct al1, al.
  - change (nadj (((s1, al1) :: (s2, al2) :: l) ++ [(s, al)]))
      with (negb (negb al1 && negb al2) && nadj (((s2, al2) :: l) ++ [(s, al)])).
    rewrite IH. cbn [nadj last_used]. now rewrite andb_assoc.
Qed.

Lemma merge_prev_Rep h pre s rest :
  Rep h (pre ++ (s, false) :: rest) -> nadj pre = true ->
  let c := heapStart h + total pre in
  foot_ok (mem h) c pre ((s, false) :: rest) ->
  (forall s3 r3, rest = (s3, false) :: r3 -> rd (mem h) (c + s - 4) = s) ->
  exists h2 pre',
    merge_prev h c = Some h2 /\ heapStart h2 = heapStart h /\
    Rep h2 (pre' ++ rest) /\ nadj pre' = true /\
    heapStart h + total pre' = c + s /\
    Z.quot (rd (mem h2) c) 8 * 8 = s /\
    foot_ok (mem h2) (c + s) pre' rest /\
    squash (pre' ++ rest) = squash (pre ++ (s, false) :: rest) /\
    (forall x, used_sat (in_used x) (heapStart h) (pre ++ (s, false) :: rest) ->
               rd (mem h2) x = rd (mem h) x) /\
    (nadj (pre ++ (s, false) :: rest) = true ->
     h2 = h /\ pre' = pre ++ [(s, false)]).
Proof.
  intros HR Hnadj c Hfoot Hfresh. subst c.
  destruct (Rep_block_bounds _ _ _ _ _ HR)
    as (Hs & Hs8 & Hpre0 & Hpost0 & Htot & Hpre8 & Hrd).
  pose proof (rep_geo _ _ HR) as HG. geo_facts HG.
  pose proof (rep_end _ _ HR) as Hend.
  remember (heapStart h + total pre) as c eqn:Hc.
  unfold merge_prev. do_load_at HG c. rewrite Hrd, hdr_rem_8 by lia.
  destruct (last_used true pre) eqn:Hp; cbn [negb andb].
  - (* the block before is allocated, or there is none *)
    exists h, (pre ++ [(s, false)]). rewrite <- app_assoc, nadj_snoc, Hnadj, Hp.
    rewrite total_app, Hrd, hdr_quot_8 by lia. cbn [total app].
    split_and!; auto; try lia.
    intros pre0 s0 s3 r3 [-> [= ->]]%app_inj_tail ->.
    now apply (Hfresh s3 r3).
  - (* the block before is free *)
    destruct (last_used_false _ Hp) as (pre0 & s0 & ->).
    rewrite nadj_snoc in Hnadj. apply andb_true_iff in Hnadj as [Hnadj0 Hp0].
    rewrite orb_false_r in Hp0.
    pose proof (Hfoot pre0 s0 s rest eq_refl eq_refl) as Hft.
    rewrite <- app_assoc in HR.
    change (pre0 ++ [(s0, false)] ++ (s, false) :: rest)
      with (pre0 ++ [(s0, false); (s, false)] ++ rest) in HR.
    destruct (Rep_split _ _ _ _ HR)
      as (Spre & (Hs0 & Hs08 & Hr0 & _) & Spost & _ & Hpre00 & _ & _ & Hpre08 & _ & He).
    rewrite total_app in Hc, Htot. cbn [total last_used] in *.
    rewrite Hp0 in Hr0.
    remember (heapStart h + total pre0) as q eqn:Hq.
    replace (q + (s0 + (s + 0))) with (q + (s0 + s)) in * by lia.
    do_load_at HG (c - 4). rewrite Hft.
    replace (c - s0) with q by lia.
    do_load_at HG q. rewrite Hr0.
    assert (Hw : wrap (hdr s0 false true + Z.quot (hdr s false false) 8 * 8)
                 = hdr (s0 + s) false true).
    { rewrite hdr_quot_8 by lia. rewrite wrap_id; unfold is_int, hdr; lia. }
    rewrite Hw. do_store HG. do_load HG. rd_simpl. rewrite hdr_quot_8 by lia.
    do_store HG.
    eexists _, (pre0 ++ [(s0 + s, false)]). split; [reflexivity|].
    cbn [set_mem mem heapStart]. rewrite nadj_snoc, Hnadj0, Hp0, total_app.
    cbn [total]. split_and!; auto; try lia.
    + rewrite <- app_assoc.
      apply (Rep_rebuild h _ pre0 [(s0 + s, false)] rest); try assumption;
        cbn [total last_used seg]; rewrite <- ?Hq, ?Z.add_0_r.
      * lia.
      * do 2 (apply seg_insert; [|lia]). assumption.
      * rd_simpl. rewrite Hp0. repeat split; try lia; reflexivity.
      * do 2 (apply seg_insert; [|lia]). assumption.
      * rd_simpl. assumption.
    + rd_simpl. rewrite Hrd. apply hdr_quot_8; lia.
    + intros pre1 s1 s3 r3 [-> [= <-]]%app_inj_tail ->.
      replace (c + s - 4) with (q + (s0 + s) - 4) by lia. rd_simpl. reflexivity.
    + rewrite <- !app_assoc. cbn [app]. symmetry. apply squash_merge.
    + intros x. rewrite <- app_assoc. intros [Hu|Hu]%used_sat_app.
      * apply (in_used_bounds _ _ _ _ _ Spre) in Hu. rd_simpl. reflexivity.
      * rewrite <- Hq in Hu. cbn [used_sat app] in Hu.
        destruct Hu as [[[=] _]|[[[=] _]|Hu]].
        cbn [total] in Spost. rewrite ?Z.add_0_r in Spost.
        replace (q + s0 + s) with (q + (s0 + s)) in Hu by lia.
        pose proof (seg_total _ _ _ _ Spost).
        apply (in_used_bounds _ _ _ _ _ Spost) in Hu. rd_simpl. reflexivity.
    + rewrite <- app_assoc. cbn [app]. intros Hn.
      now rewrite nadj_app_free in Hn.
Qed.

Lemma coalesce_loop_Rep fuel :
  forall h pre suf,
  Rep h (pre ++ suf) -> nadj pre = true ->
  foot_ok (mem h) (heapStart h + total pre) pre suf ->
  (length suf < fuel)%nat ->
  exists h' bs',
    coalesce_loop fuel h (heapStart h + total pre) = Some h' /\
    Rep h' bs' /\ nadj bs' = true /\
    heapStart h' = heapStart h /\
    squash bs' = squash (pre ++ suf) /\
    (forall x, used_sat (in_used x) (heapStart h) (pre ++ suf) ->
               rd (mem h') x = rd (mem h) x) /\
    (nadj (pre ++ suf) = true -> h' = h).
Proof.
  induction fuel as [|fuel IH]; intros h pre suf HR Hnadj Hfoot Hlen; [lia|].
  pose proof (rep_geo _ _ HR) as HG. geo_facts HG.
  cbn [coalesce_loop].
  destruct suf as [|[s [|]] rest].
  - (* the end mark *)
    rewrite app_nil_r in HR.
    pose proof (rep_total _ _ HR). pose proof (seg_total _ _ _ _ (rep_seg _ _ HR)).
    pose proof (seg_total8 _ _ _ _ (rep_seg _ _ HR)).
    do_load HG. rewrite (rep_end _ _ HR). cbn [Z.eqb Pos.eqb].
    exists h, pre. rewrite app_nil_r. split_and!; auto.
  - (* an allocated block *)
    destruct (Rep_block_bounds _ _ _ _ _ HR)
      as (Hs & Hs8 & Hpre0 & Hpost0 & Htot & Hpre8 & Hrd).
    remember (heapStart h + total pre) as c eqn:Hc.
    do_load_at HG c. rewrite Hrd.
    assert (E1 : (hdr s true (last_used true pre) =? 1) = false)
      by (apply Z.eqb_neq; unfold hdr; destruct (last_used true pre); lia).
    rewrite E1, hdr_rem_2 by lia. cbn [negb mbind option_bind].
    do_load_at HG c. rewrite Hrd, hdr_quot_8 by lia.
    destruct (IH h (pre ++ [(s, true)]) rest)
      as (h' & bs' & Hrun & HR' & Hn' & Hst' & Hsq' & Hfr' & Hfix').
    + now rewrite <- app_assoc.
    + now rewrite nadj_snoc, Hnadj, orb_true_r.
    + intros pre0 s0 s3 r3 [_ [=]]%app_inj_tail.
    + simpl in Hlen. lia.
    + rewrite total_app in Hrun. cbn [total] in Hrun.
      replace (heapStart h + (total pre + (s + 0))) with (c + s) in Hrun by lia.
      rewrite <- app_assoc in Hsq', Hfr', Hfix'. eauto 10.
  - (* a free block *)
    destruct (Rep_block_bounds _ _ _ _ _ HR)
      as (Hs & Hs8 & Hpre0 & Hpost0 & Htot & Hpre8 & Hrd).
    destruct (merge_next_Rep h pre s rest HR)
      as (h1 & s1 & rest' & Hm1 & Hst1 & HR1 & Hlen1 & Hkeep & Hfresh
          & Hsq1 & Hfr1 & Hfix1).
    destruct (merge_prev_Rep h1 pre s1 rest' HR1 Hnadj)
      as (h2 & pre' & Hm2 & Hst2 & HR2 & Hnadj2 & Htot2 & Hq & Hfoot2
          & Hsq2 & Hfr2 & Hfix2).
    { rewrite Hst1. intros pre0 s0 s3 r3 -> _. rewrite Hkeep.
      now apply (Hfoot pre0 s0 s rest). }
    { rewrite Hst1. exact Hfresh. }
    rewrite Hst1 in *.
    remember (heapStart h + total pre) as c eqn:Hc.
    do_load_at HG c. rewrite Hrd.
    assert (E1 : (hdr s false (last_used true pre) =? 1) = false)
      by (apply Z.eqb_neq; unfold hdr; destruct (last_used true pre); lia).
    rewrite E1, hdr_rem_2 by lia. cbn [negb]. rewrite Hm1. cbn [mbind option_bind].
    rewrite Hm2. cbn [mbind option_bind].
    pose proof (rep_geo _ _ HR2) as HG2.
    destruct (Rep_block_bounds _ _ _ _ _ HR1) as (Hs1 & Hs18 & _ & _ & Htot1 & _).
    rewrite load_Some.
    2:{ destruct (Rep_split h2 pre' [] rest' HR2)
          as (_ & _ & _ & Ht2 & Hp2 & _ & Hr2 & _).
        cbn [total] in Ht2.
        apply (Geo_mapped_hdr _ _ HG2); rewrite Hst2; lia. }
    cbn [mbind option_bind]. rewrite Hq.
    destruct (IH h2 pre' rest')
      as (h' & bs' & Hrun & HR' & Hn' & Hst' & Hsq' & Hfr' & Hfix');
      try assumption.
    + now rewrite Hst2, Htot2.
    + simpl in Hlen. lia.
    + rewrite Hst2, Htot2 in Hrun. exists h', bs'. split_and!; auto.
      * congruence.
      * congruence.
      * intros x Hu. rewrite Hfr', Hfr2, Hfr1; auto.
        -- apply used_sat_squash. rewrite Hsq1. now apply used_sat_squash.
        -- rewrite Hst2. apply used_sat_squash. rewrite Hsq2, Hsq1.
           now apply used_sat_squash.
      * intros Hn. destruct (Hfix1 Hn) as (-> & -> & ->).
        destruct (Hfix2 Hn) as (-> & ->). apply Hfix'.
        now rewrite <- app_assoc.
Qed.

Lemma coalesce_loop_mono fuel :
  forall fuel' h c h',
  coalesce_loop fuel h c = Some h' -> (fuel <= fuel')%nat ->
  coalesce_loop fuel' h c = Some h'.
Proof.
  induction fuel as [|fuel IH]; intros fuel' h c h' Hrun Hle; [discriminate|].
  destruct fuel' as [|fuel']; [lia|]. cbn [coalesce_loop] in *.
  destruct (load h c) as [v|]; [|discriminate]. cbn [mbind option_bind] in *.
  destruct (v =? 1); [assumption|].
  destruct (if Z.rem v 2 =? 0 then _ else _) as [h1|]; [|discriminate].
  cbn [mbind option_bind] in *.
  destruct (load h1 c) as [v'|]; [|discriminate]. cbn [mbind option_bind] in *.
  apply IH; [assumption|lia].
Qed.

Lemma coalesce_Rep h bs :
  Rep h bs ->
  exists h' bs', coalesce (S (length bs)) h = Some h' /\ Rep h' bs' /\ nadj bs' = true.
Proof.
  intros HR. unfold coalesce.
  destruct (coalesce_loop_Rep (S (length bs)) h [] bs)
    as (h' & bs' & Hrun & HR' & Hn' & _); try assumption; try reflexivity.
  - intros pre0 s0 s3 r3 E. now destruct pre0.
  - lia.
  - cbn [total] in Hrun. rewrite Z.add_0_r in Hrun. eauto.
Qed.

Lemma coalesce_Rep_any fuel h bs h' :
  Rep h bs -> coalesce fuel h = Some h' -> exists bs', Rep h' bs' /\ nadj bs' = true.
Proof.
  intros HR Hrun. destruct (coalesce_Rep h bs HR) as (h2 & bs' & Hrun2 & HR2 & Hn).
  unfold coalesce in *.
  apply (coalesce_loop_mono _ (fuel + S (length bs))) in Hrun; [|lia].
  apply (coalesce_loop_mono _ (fuel + S (length bs))) in Hrun2; [|lia].
  assert (h' = h2) by congruence. subst. eauto.
Qed.

(** ** Every reachable state is a well-formed heap *)

Lemma rows_of_In_split a p n bs r :
  In r (rows_of a p n bs) ->
  exists pre post,
    bs = pre ++ (t_size r, r_used r) :: post /\ t_begin r = a + total pre /\
    t_end r = t_begin r + t_size r - 1.
Proof.
  revert a p n. induction bs as [|[s al] bs IH]; simpl; intros a p n; [tauto|].
  intros [<-|Hin]; simpl.
  - exists [], bs. simpl. split; [reflexivity|lia].
  - destruct (IH _ _ _ Hin) as (pre & post & -> & Hb & He).
    exists ((s, al) :: pre), post. simpl. split; [reflexivity|lia].
Qed.

Lemma rows_of_sizes a p n bs :
  fold_right Z.add 0 (map t_size (rows_of a p n bs)) = total bs.
Proof.
  revert a p n. induction bs as [|[s al] bs IH]; simpl; intros a p n; [reflexivity|].
  now rewrite IH.
Qed.

Lemma myFree_fail h ptr h' : myFree h ptr = Some (h', -1) -> h' = h.
Proof.
  unfold myFree.
  destruct (ptr =? NULL); [now intros [= <-]|].
  destruct (negb _); [now intros [= <-]|].
  destruct (_ <? _); [now intros [= <-]|].
  destruct (load h (ptr - 4)) as [hd|]; [|discriminate]. cbn [mbind option_bind].
  destruct (negb _); [now intros [= <-]|].
  destruct (store h _ _) as [h1|]; [|discriminate]. cbn [mbind option_bind].
  destruct (load h1 _) as [c1|]; [|discriminate]. cbn [mbind option_bind].
  destruct (store h1 _ _) as [h2|]; [|discriminate]. cbn [mbind option_bind].
  destruct (load h2 _) as [c2|]; [|discriminate]. cbn [mbind option_bind].
  destruct (load h2 _) as [n|]; [|discriminate]. cbn [mbind option_bind].
  destruct (negb _); [|discriminate].
  destruct (store h2 _ _) as [h3|]; discriminate.
Qed.

Lemma live_Rep h bs ptr :
  Rep h bs -> live h ptr ->
  exists pre s post,
    bs = pre ++ (s, true) :: post /\ ptr = heapStart h + total pre + 4.
Proof.
  intros HR (rows & r & Hch & Hin & Hu & ->).
  rewrite (Rep_chain_inv _ _ _ HR Hch) in Hin.
  destruct (rows_of_In_split _ _ _ _ _ Hin) as (pre & post & -> & -> & _).
  rewrite Hu. eauto.
Qed.

(** A store of the client leaves the headers and the end mark alone. *)
Lemma store_Rep h bs x v h' :
  Rep h bs -> client_word h x -> store h x v = Some h' -> Rep h' bs.
Proof.
  intros HR (rows & Hch & Hx) [_ ->]%store_inv.
  rewrite (Rep_chain_inv _ _ _ HR Hch) in Hx.
  pose proof (rep_geo _ _ HR) as HG.
  destruct Hx as [(r & Hin & Hu & Hx) | Hx].
  - destruct (rows_of_In_split _ _ _ _ _ Hin) as (pre & post & -> & Hb & He).
    rewrite Hu in *. set (s := t_size r) in *.
    destruct (Rep_block_bounds _ _ _ _ _ HR)
      as (Hs & Hs8 & Hpre & Hpost & Htot & Hpre8 & Hrd).
    destruct (Rep_split h pre [(s, true)] post HR)
      as (Spre & _ & Spost & _ & _ & _ & _ & _ & _ & Hend).
    cbn [total last_used] in Spost, Hend. rewrite Z.add_0_r in Spost, Hend.
    apply (Rep_rebuild h _ pre [(s, true)] post); try assumption;
      cbn [total last_used seg]; rewrite ?Z.add_0_r.
    + simpl in Htot. lia.
    + apply seg_insert; [assumption|lia].
    + rewrite rd_insert_ne by lia. repeat split; try lia; assumption.
    + apply seg_insert; [assumption|lia].
    + rewrite rd_insert_ne by lia. assumption.
  - unfold chain_end in Hx. rewrite rows_of_sizes in Hx.
    destruct HR as [_ Ht Hs He]. constructor; cbn [set_mem mem heapStart allocsize].
    + now apply Geo_set_mem.
    + assumption.
    + apply seg_insert; [assumption|lia].
    + rewrite rd_insert_ne by lia. assumption.
Qed.

Lemma reachable_Rep h : reachable h -> exists bs, Rep h bs.
Proof.
  induction 1 as [e sz h Hos Hi Hinit
                 |e sz h h' r _ [bs HR] Hinit
                 |fuel sz h h' p _ [bs HR] Hi Hrun
                 |ptr h h' r _ [bs HR] Hin Hrun
                 |fuel h h' _ [bs HR] Hrun
                 |x v h h' _ [bs HR] Hx _ Hst].
  - eexists. eapply myInit_Rep; eassumption.
  - unfold myInit in Hinit. rewrite (geo_once _ (rep_geo _ _ HR)) in Hinit.
    injection Hinit as <- _. eauto.
  - destruct (myAlloc_Rep _ _ _ _ _ _ HR Hi Hrun)
      as [[_ ->] | (pre & s & post & -> & _ & _ & _ & _ & _ & _ &
                    [[_ HR']|[(_ & _ & HR' & _)|(_ & _ & HR')]])];
      eauto.
  - destruct Hin as [Hlive | ->].
    + destruct (live_Rep _ _ _ HR Hlive) as (pre & s & post & -> & ->).
      destruct (myFree_Rep _ _ _ _ HR) as (h2 & Hrun2 & HR2 & _).
      assert (h' = h2) by congruence. subst. eauto.
    + apply myFree_fail in Hrun as ->. eauto.
  - destruct (coalesce_Rep_any _ _ _ _ HR Hrun) as (bs' & HR' & _). eauto.
  - eauto using store_Rep.
Qed.

Lemma rows_of_In_inv a p n bs s al :
  In (s, al) bs -> exists r, In r (rows_of a p n bs) /\ t_size r = s /\ r_used r = al.
Proof.
  revert a p n. induction bs as [|[s0 al0] bs IH]; simpl; intros a p n; [tauto|].
  intros [[= -> ->]|Hin].
  - eexists. split; [left; reflexivity|]. split; reflexivity.
  - destruct (IH (a + s0) al0 (wrap (n + 1)) Hin) as (r & Hr & Hsz & Hal).
    exists r. auto.
Qed.

Lemma myAlloc_no_fit h bs sz fuel :
  Rep h bs -> 0 < sz -> 8 <= block_size sz ->
  (forall s, In (s, false) bs -> s < block_size sz) ->
  (length bs < fuel)%nat -> myAlloc fuel h sz = Some (h, NULL).
Proof.
  intros HR Hsz HB Hnone Hfuel. unfold myAlloc.
  destruct (Z.leb_spec sz 0); [lia|].
  destruct (allocsize h <? block_size sz); [reflexivity|].
  pose proof (rep_geo _ _ HR) as HG. geo_facts HG.
  pose proof (rep_total _ _ HR).
  rewrite (best_fit_seg h HG _ bs fuel _ true) by (try apply HR; lia).
  rewrite (proj2 (Nat.ltb_lt _ _) Hfuel). cbn [mbind option_bind].
  destruct (pick_spec (block_size sz) (mem h) bs (heapStart h) true (-1) NULL 0
              (rep_seg _ _ HR))
    as [[-> _] | (pre & s & post & -> & _ & Hle & _)].
  - destruct (Z.ltb_spec (block_size sz) (-1)); [lia|].
    destruct (Z.eqb_spec (-1) (block_size sz)); [lia|]. reflexivity.
  - specialize (Hnone s). rewrite in_app_iff in Hnone. simpl in Hnone.
    assert (s < block_size sz) by auto. lia.
Qed.

(** ** [coalesce] on the block list *)

Lemma map_shape_rows a p n bs : map shape (rows_of a p n bs) = bs.
Proof.
  revert a p n. induction bs as [|[s al] bs IH]; intros a p n; [reflexivity|].
  cbn [rows_of map]. now rewrite IH.
Qed.

Lemma set_mem_self h : h = set_mem h (mem h).
Proof. now destruct h. Qed.

Lemma same_arena_trans h h1 h2 :
  h1 = set_mem h (mem h1) -> h2 = set_mem h1 (mem h2) -> h2 = set_mem h (mem h2).
Proof. intros E1 E2. rewrite E2 at 1. rewrite E1 at 1. reflexivity. Qed.

Lemma store_same h a v h' : store h a v = Some h' -> h' = set_mem h (mem h').
Proof. now intros [_ ->]%store_inv. Qed.

Lemma merge_next_same h c h' : merge_next h c = Some h' -> h' = set_mem h (mem h').
Proof.
  unfold merge_next.
  destruct (load h c) as [v|]; [|discriminate]. cbn [mbind option_bind].
  destruct (load h _) as [n|]; [|discriminate]. cbn [mbind option_bind].
  destruct (_ && _); [|intros [= <-]; apply set_mem_self].
  destruct (store h c _) as [h1|] eqn:E1; [|discriminate]. cbn [mbind option_bind].
  destruct (load h1 c) as [c1|]; [|discriminate]. cbn [mbind option_bind].
  intros E2. eauto using same_arena_trans, store_same.
Qed.

Lemma merge_prev_same h c h' : merge_prev h c = Some h' -> h' = set_mem h (mem h').
Proof.
  unfold merge_prev.
  destruct (load h c) as [v|]; [|discriminate]. cbn [mbind option_bind].
  destruct (_ =? 0); [|intros [= <-]; apply set_mem_self].
  destruct (load h _) as [pb|]; [|discriminate]. cbn [mbind option_bind].
  destruct (load h _) as [ps|]; [|discriminate]. cbn [mbind option_bind].
  destruct (store h _ _) as [h1|] eqn:E1; [|discriminate]. cbn [mbind option_bind].
  destruct (load h1 _) as [p1|]; [|discriminate]. cbn [mbind option_bind].
  intros E2. eauto using same_arena_trans, store_same.
Qed.

Lemma coalesce_loop_same fuel :
  forall h c h', coalesce_loop fuel h c = Some h' -> h' = set_mem h (mem h').
Proof.
  induction fuel as [|fuel IH]; intros h c h'; [discriminate|].
  cbn [coalesce_loop].
  destruct (load h c) as [v|]; [|discriminate]. cbn [mbind option_bind].
  destruct (v =? 1); [intros [= <-]; apply set_mem_self|].
  destruct (Z.rem v 2 =? 0).
  - destruct (merge_next h c) as [h1|] eqn:E1; [|discriminate].
    cbn [mbind option_bind].
    destruct (merge_prev h1 c) as [h2|] eqn:E2; [|discriminate].
    cbn [mbind option_bind].
    destruct (load h2 c) as [c'|]; [|discriminate]. cbn [mbind option_bind].
    intros E3%IH.
    eauto using same_arena_trans, merge_next_same, merge_prev_same.
  - cbn [mbind option_bind].
    destruct (load h c) as [c'|]; [|discriminate]. cbn [mbind option_bind].
    apply IH.
Qed.

(** [coalesce] on the block list is [squash]; it leaves the payloads of
    the allocated blocks alone, and a heap without neighbouring free
    blocks as it is. *)
Lemma coalesce_squash fuel h bs h' :
  Rep h bs -> coalesce fuel h = Some h' ->
  Rep h' (squash bs) /\ h' = set_mem h (mem h') /\
  (forall x, used_sat (in_used x) (heapStart h) bs -> rd (mem h') x = rd (mem h) x) /\
  (nadj bs = true -> h' = h).
Proof.
  intros HR Hrun.
  destruct (coalesce_loop_Rep (S (length bs)) h [] bs)
    as (h2 & bs' & Hrun2 & HR2 & Hn2 & _ & Hsq & Hfr & Hfix);
    try assumption; try reflexivity.
  { intros pre0 s0 s3 r3 E. now destruct pre0. }
  { lia. }
  cbn [total app] in *. rewrite Z.add_0_r in Hrun2. unfold coalesce in Hrun.
  apply (coalesce_loop_mono _ (fuel + S (length bs))) in Hrun; [|lia].
  apply (coalesce_loop_mono _ (fuel + S (length bs))) in Hrun2; [|lia].
  assert (h' = h2) by congruence. subst h2.
  rewrite <- Hsq, (nadj_squash _ Hn2).
  split_and!; auto. eapply coalesce_loop_same; eassumption.
Qed.

(** * The concrete run *)

Lemma run_init : myInit linux boot 4096 = Some (st_init, 0).
Proof. vm_compute. reflexivity. Qed.

Lemma run_a1 : myAlloc 2 st_init 40 = Some (st_a1, 65544).
Proof. vm_compute. reflexivity. Qed.

Lemma run_a2 : myAlloc 3 st_a1 40 = Some (st_a2, 65592).
Proof. vm_compute. reflexivity. Qed.

Lemma run_f2 : myFree st_a2 65592 = Some (st_f2, 0).
Proof. vm_compute. reflexivity. Qed.

Lemma run_f1 : myFree st_f2 65544 = Some (st_f1, 0).
Proof. vm_compute. reflexivity. Qed.

Lemma run_co : coalesce 3 st_f1 = Some st_co.
Proof. vm_compute. reflexivity. Qed.

Lemma int_40 : is_int 40.
Proof. unfold is_int. lia. Qed.

Lemma st_init_reachable : reachable st_init.
Proof.
  apply (reach_init linux 4096); [|unfold is_int; lia|exact run_init].
  unfold os_ok. cbn. repeat split; try lia; discriminate.
Qed.

Lemma st_a1_reachable : reachable st_a1.
Proof. exact (reach_alloc _ _ _ _ _ st_init_reachable int_40 run_a1). Qed.

Lemma st_a2_reachable : reachable st_a2.
Proof. exact (reach_alloc _ _ _ _ _ st_a1_reachable int_40 run_a2). Qed.

Lemma live_a2 : live st_a2 65592.
Proof.
  exists [mkRow 1 true true 65540 65587 48; mkRow 2 true true 65588 65635 48;
          mkRow 3 false true 65636 69627 3992], (mkRow 2 true true 65588 65635 48).
  split; [exists 4%nat; vm_compute; reflexivity|].
  split; [right; left; reflexivity|]. split; reflexivity.
Qed.

Lemma st_f2_reachable : reachable st_f2.
Proof. exact (reach_free _ _ _ _ st_a2_reachable (or_introl live_a2) run_f2). Qed.

Lemma live_f2 : live st_f2 65544.
Proof.
  exists [mkRow 1 true true 65540 65587 48; mkRow 2 false true 65588 65635 48;
          mkRow 3 false false 65636 69627 3992], (mkRow 1 true true 65540 65587 48).
  split; [exists 4%nat; vm_compute; reflexivity|].
  split; [left; reflexivity|]. split; reflexivity.
Qed.

Lemma st_f1_reachable : reachable st_f1.
Proof. exact (reach_free _ _ _ _ st_f2_reachable (or_introl live_f2) run_f1). Qed.

Lemma int_100 : is_int 100.
Proof. unfold is_int. lia. Qed.

Lemma run_b1 : myAlloc 2 st_init 100 = Some (st_b1, 65544).
Proof. vm_compute. reflexivity. Qed.

Lemma run_b2 : store st_b1 (65544 + 44) 1 = Some st_b2.
Proof. vm_compute. reflexivity. Qed.

Lemma run_b3 : myFree st_b2 65544 = Some (st_b3, 0).
Proof. vm_compute. reflexivity. Qed.

Lemma st_b1_reachable : reachable st_b1.
Proof. exact (reach_alloc _ _ _ _ _ st_init_reachable int_100 run_b1). Qed.

Lemma st_b2_reachable : reachable st_b2.
Proof.
  apply (reach_store _ _ _ _ st_b1_reachable) with (3 := run_b2);
    [|unfold is_int; lia].
  exists [mkRow 1 true true 65540 65643 104; mkRow 2 false true 65644 69627 3984].
  split; [exists 3%nat; vm_compute; reflexivity|].
  left. exists (mkRow 1 true true 65540 65643 104).
  split; [left; reflexivity|]. split; [reflexivity|]. cbn. lia.
Qed.

Lemma st_b3_reachable : reachable st_b3.
Proof.
  apply (reach_free _ _ _ _ st_b2_reachable) with (2 := run_b3). left.
  exists [mkRow 1 true true 65540 65643 104; mkRow 2 false true 65644 69627 3984],
    (mkRow 1 true true 65540 65643 104).
  split; [exists 3%nat; vm_compute; reflexivity|].
  split; [left; reflexivity|]. split; reflexivity.
Qed.

(** * The claims *)

(** C1. In every reachable state the chain is decoded and [coalesce]
    returns.  The chain of the heap it returns is the chain before the
    call with every run of neighbouring free blocks replaced by one free
    block of the size of the run: no two neighbouring blocks of it, from
    [heapStart] to the end mark, are both free, the other blocks keep
    their sizes and a-bits, and the end mark is where it was. *)
Theorem coalesce_complete h :
  reachable h ->
  (exists rows fuel h', chain h rows /\ coalesce fuel h = Some h') /\
  (forall rows fuel h', chain h rows -> coalesce fuel h = Some h' ->
     exists rows',
       chain h' rows' /\ no_adjacent_free rows' = true /\
       map shape rows' = squash (map shape rows) /\
       chain_end h' rows' = chain_end h rows).
Proof.
  intros [bs HR]%reachable_Rep. split.
  - destruct (coalesce_Rep h bs HR) as (h' & _ & Hrun & _).
    exists (rows_of (heapStart h) true 1 bs). eauto using Rep_chain.
  - intros rows fuel h' Hch Hrun.
    rewrite (Rep_chain_inv _ _ _ HR Hch).
    destruct (coalesce_squash _ _ _ _ HR Hrun) as (HR' & Hsame & _).
    exists (rows_of (heapStart h') true 1 (squash bs)). split_and!.
    + now apply Rep_chain.
    + rewrite no_adjacent_free_rows. apply squash_nadj.
    + now rewrite !map_shape_rows.
    + unfold chain_end. rewrite !rows_of_sizes, total_squash.
      now rewrite Hsame.
Qed.

Lemma coalesce_complete_witness :
  reachable st_f1 /\
  chain st_f1 [mkRow 1 false true 65540 65587 48; mkRow 2 false false 65588 65635 48;
               mkRow 3 false false 65636 69627 3992] /\
  coalesce 3 st_f1 = Some st_co /\
  chain st_co [mkRow 1 false true 65540 69627 4088] /\
  exists rows',
    chain st_co rows' /\ no_adjacent_free rows' = true /\
    map shape rows' =
      squash (map shape [mkRow 1 false true 65540 65587 48;
                         mkRow 2 false false 65588 65635 48;
                         mkRow 3 false false 65636 69627 3992]) /\
    chain_end st_co rows' =
      chain_end st_f1 [mkRow 1 false true 65540 65587 48;
                       mkRow 2 false false 65588 65635 48;
                       mkRow 3 false false 65636 69627 3992].
Proof.
  assert (Hch : chain st_f1 [mkRow 1 false true 65540 65587 48;
                             mkRow 2 false false 65588 65635 48;
                             mkRow 3 false false 65636 69627 3992])
    by (exists 4%nat; vm_compute; reflexivity).
  assert (Hch' : chain st_co [mkRow 1 false true 65540 69627 4088])
    by (exists 2%nat; vm_compute; reflexivity).
  split; [exact st_f1_reachable|]. split; [exact Hch|]. split; [exact run_co|].
  split; [exact Hch'|].
  exact (proj2 (coalesce_complete st_f1 st_f1_reachable) _ 3%nat st_co Hch run_co).
Defined.

(** C2. In every reachable state, when [myAlloc] returns a block, that
    block is a free block of the chain at least as large as the rounded
    block size; no free block that is large enough is smaller, and every
    one of the same size starts at the same or a higher address. *)
Theorem alloc_best_fit fuel h size h' ptr :
  reachable h -> is_int size ->
  myAlloc fuel h size = Some (h', ptr) -> ptr <> NULL ->
  exists rows r,
    chain h rows /\ In r rows /\ t_begin r = ptr - 4 /\ r_used r = false /\
    0 < size /\ block_size size <= t_size r /\
    forall r', In r' rows -> r_used r' = false -> block_size size <= t_size r' ->
      t_size r <= t_size r' /\ (t_size r' = t_size r -> t_begin r <= t_begin r').
Proof.
  intros [bs HR]%reachable_Rep Hi Hrun Hnn.
  destruct (myAlloc_Rep _ _ _ _ _ _ HR Hi Hrun)
    as [[-> _] | (pre & s & post & -> & -> & Hsz & [HB Hle] & Hpre & Hpost & _)];
    [contradiction|].
  destruct (Rep_split h pre [(s, false)] post HR) as (Spre & _ & Spost & _).
  cbn [total last_used] in Spost. rewrite Z.add_0_r in Spost.
  pose proof (seg_total _ _ _ _ Spre) as Hpre0.
  destruct (Rep_block_bounds _ _ _ _ _ HR) as (Hs & _).
  destruct (rows_of_app (heapStart h) true 1 pre ((s, false) :: post)) as [n' Hrows].
  cbn [rows_of] in Hrows.
  eexists _, _. split; [apply (Rep_chain _ _ HR)|]. rewrite Hrows.
  split; [apply in_elt|]. cbn [t_begin r_used t_size].
  split_and!; try reflexivity; try lia.
  intros r' [Hin|[<-|Hin]]%in_app_iff Hfree Hfit.
  - destruct (rows_of_In _ _ _ _ _ _ Spre Hin) as (Hb & _).
    rewrite Hfree in Hb. specialize (Hpre _ Hb Hfit). lia.
  - cbn [t_begin t_size]. lia.
  - destruct (rows_of_In _ _ _ _ _ _ Spost Hin) as (Hb & Ha & _).
    rewrite Hfree in Hb. specialize (Hpost _ Hb Hfit). lia.
Qed.

Lemma alloc_best_fit_witness :
  reachable st_f1 /\ is_int 40 /\
  myAlloc 4 st_f1 40 =
    Some (arena [(65540, 51); (65584, 48); (65588, 50); (65632, 48);
                 (65636, 3992); (69624, 4088); (69628, 1)], 65544) /\
  65544 <> NULL /\
  exists rows r,
    chain st_f1 rows /\ In r rows /\ t_begin r = 65544 - 4 /\ r_used r = false /\
    0 < 40 /\ block_size 40 <= t_size r /\
    forall r', In r' rows -> r_used r' = false -> block_size 40 <= t_size r' ->
      t_size r <= t_size r' /\ (t_size r' = t_size r -> t_begin r <= t_begin r').
Proof.
  assert (Hrun : myAlloc 4 st_f1 40 =
    Some (arena [(65540, 51); (65584, 48); (65588, 50); (65632, 48);
                 (65636, 3992); (69624, 4088); (69628, 1)], 65544))
    by (vm_compute; reflexivity).
  assert (Hnn : 65544 <> NULL) by (unfold NULL; lia).
  split_and!; [exact st_f1_reachable|exact int_40|exact Hrun|exact Hnn|].
  exact (alloc_best_fit 4 st_f1 40 _ 65544 st_f1_reachable int_40 Hrun Hnn).
Defined.

(** C3. [myInit(4096)] followed by [myAlloc(40)] splits the initial block
    of 4088 bytes: the chosen block gets the header 48 + 2 + 1 and the
    remainder the header 4040 + 2, but the footer of the remainder, the
    word at 69624, still holds 4088, the size of the block before the
    split. *)
Theorem split_keeps_old_footer :
  myInit linux boot 4096 = Some (st_init, 0) /\
  myAlloc 2 st_init 40 = Some (st_a1, 65544) /\
  block_size 40 = 48 /\
  load st_a1 65540 = Some (hdr 48 true true) /\
  load st_a1 (65540 + 48) = Some (hdr (4088 - 48) false true) /\
  load st_a1 (65540 + 4088 - 4) = Some 4088.
Proof. split_and!; vm_compute; reflexivity. Qed.

(** C4. The state after [myInit(4096)] and [myAlloc(40)] is reachable
    and its chain has the free block [65588, 69627] of size 4040 whose
    footer holds 4088. *)
Theorem free_block_with_other_footer :
  reachable st_a1 /\
  dispMem 3 st_a1 = Some [mkRow 1 true true 65540 65587 48;
                          mkRow 2 false true 65588 69627 4040] /\
  footer st_a1 (mkRow 2 false true 65588 69627 4040) = Some 4088.
Proof.
  split; [exact st_a1_reachable|]. split; vm_compute; reflexivity.
Qed.

(** C5. In every reachable state the chain is decoded up to the end
    mark, and the p-bit of every block with a predecessor is the a-bit of
    that predecessor. *)
Theorem pbits_invariant h :
  reachable h -> exists rows, chain h rows /\ pbits_consistent rows = true.
Proof.
  intros [bs HR]%reachable_Rep.
  exists (rows_of (heapStart h) true 1 bs). split.
  - now apply Rep_chain.
  - apply pbits_consistent_rows.
Qed.

Lemma pbits_invariant_witness :
  reachable st_f1 /\ exists rows, chain st_f1 rows /\ pbits_consistent rows = true.
Proof.
  split; [exact st_f1_reachable|].
  apply (pbits_invariant st_f1). exact st_f1_reachable.
Defined.

(** C6. In the state after [myInit(4096)] the pointer 69632 is one past
    the end of the arena, the header it implies is the end mark; [myFree]
    returns 0 for it and overwrites the end mark and the footer before
    it. *)
Theorem free_past_the_end :
  reachable st_init /\
  69632 - 4 = heapStart st_init + allocsize st_init /\
  load st_init (69632 - 4) = Some 1 /\
  myFree st_init 69632 = Some (st_bad, 0) /\
  load st_bad (69632 - 4) = Some (-2) /\
  load st_init (69632 - 8) = Some 4088 /\ load st_bad (69632 - 8) = Some 0.
Proof.
  split; [exact st_init_reachable|]. split_and!; vm_compute; reflexivity.
Qed.

(** C7. A call of [myFree] that returns -1 returns the heap it was
    given.  [myFree] returns -1 for the null pointer, for a pointer that
    is not a multiple of 8, for a pointer below [heapStart] and for a
    pointer whose header is not that of an allocated block (its a-bit is
    clear).  After a call that returns 0, a second call with the same
    pointer returns -1 and the same heap. *)
Theorem free_failure_unchanged h ptr :
  (forall h', myFree h ptr = Some (h', -1) -> h' = h) /\
  (ptr = NULL -> myFree h ptr = Some (h, -1)) /\
  (to_uint ptr mod 8 <> 0 -> myFree h ptr = Some (h, -1)) /\
  (to_uint ptr < to_uint (heapStart h) -> myFree h ptr = Some (h, -1)) /\
  (forall hd, load h (ptr - 4) = Some hd -> Z.rem hd 2 <> 1 ->
     myFree h ptr = Some (h, -1)) /\
  (forall h1, myFree h ptr = Some (h1, 0) -> myFree h1 ptr = Some (h1, -1)).
Proof.
  split_and!.
  - intros h'. apply myFree_fail.
  - intros ->. reflexivity.
  - intros Hm. unfold myFree. destruct (ptr =? NULL); [reflexivity|].
    destruct (Z.eqb_spec (to_uint ptr mod 8) 0); [contradiction|reflexivity].
  - intros Hm. unfold myFree. destruct (ptr =? NULL); [reflexivity|].
    destruct (negb _); [reflexivity|].
    destruct (Z.ltb_spec (to_uint ptr) (to_uint (heapStart h))); [reflexivity|lia].
  - intros hd Hl Hev. unfold myFree. destruct (ptr =? NULL); [reflexivity|].
    destruct (negb _); [reflexivity|]. destruct (_ <? _); [reflexivity|].
    rewrite Hl. cbn [mbind option_bind].
    destruct (Z.eqb_spec (Z.rem hd 2) 1); [contradiction|reflexivity].
  - intros h1. unfold myFree.
    destruct (ptr =? NULL); [discriminate|].
    destruct (negb (to_uint ptr mod 8 =? 0)); [discriminate|].
    destruct (to_uint ptr <? to_uint (heapStart h)) eqn:Hlow; [discriminate|].
    destruct (load h (ptr - 4)) as [hd|] eqn:Ehd; [|discriminate].
    cbn [mbind option_bind].
    destruct (Z.eqb_spec (Z.rem hd 2) 1) as [Hodd|]; [|discriminate].
    cbn [negb]. apply load_inv in Ehd as [Hmap ->].
    remember (ptr - 4) as c eqn:Hc.
    rewrite (store_Some h c) by assumption. cbn [mbind option_bind].
    rewrite (load_Some _ c) by assumption. cbn [mbind option_bind set_mem mem].
    rewrite rd_insert_eq.
    set (c1 := wrap (rd (mem h) c - 1)).
    assert (Hc1 : Z.rem c1 2 = 0) by (unfold c1, wrap; lia).
    set (sz := Z.quot c1 8 * 8).
    assert (Hsz : sz mod 8 = 0) by (unfold sz; lia).
    destruct (store _ (c + sz - 4) sz) as [h2|] eqn:E2; [|discriminate].
    apply store_inv in E2 as [Hmap2 ->]. cbn [mbind option_bind set_mem mem].
    rewrite (load_Some _ c) by assumption. cbn [mbind option_bind set_mem mem].
    rewrite rd_insert_ne, rd_insert_eq by lia. fold sz.
    destruct (load _ (c + sz)) as [n|] eqn:En; [|discriminate].
    apply load_inv in En as [Hmapn ->]. cbn [mbind option_bind set_mem mem] in *.
    destruct (Z.eqb_spec (rd (<[c + sz - 4:=sz]> (<[c:=c1]> (mem h))) (c + sz)) 1)
      as [En|En]; cbn [negb].
    + intros [= <-]. cbn [set_mem heapStart mem].
      rewrite Hlow, (load_Some _ c) by assumption.
      cbn [mbind option_bind set_mem mem].
      rewrite rd_insert_ne, rd_insert_eq by lia.
      destruct (Z.eqb_spec (Z.rem c1 2) 1); [lia|]. reflexivity.
    + rewrite (store_Some _ (c + sz)) by assumption.
      cbn [mbind option_bind set_mem mem]. intros [= <-].
      cbn [set_mem heapStart mem].
      rewrite Hlow, (load_Some _ c) by assumption.
      cbn [mbind option_bind set_mem mem].
      match goal with |- context [Z.rem ?v 2 =? 1] =>
        assert (Hv : Z.rem v 2 = 0) end.
      { destruct (Z.eq_dec sz 0) as [E0|E0].
        - rewrite E0, Z.add_0_r in *. rewrite rd_insert_eq.
          rewrite rd_insert_ne, rd_insert_eq by lia. unfold wrap. lia.
        - rewrite !rd_insert_ne, rd_insert_eq by lia. assumption. }
      rewrite Hv. reflexivity.
Qed.

Lemma free_failure_unchanged_witness :
  myFree st_a2 65592 = Some (st_f2, 0) /\
  myFree st_f2 65592 = Some (st_f2, -1).
Proof.
  split; [exact run_f2|].
  exact (proj2 (proj2 (proj2 (proj2 (proj2 (free_failure_unchanged st_a2 65592)))))
           st_f2 run_f2).
Defined.

(** C8. [heapStart] is 4 modulo 8 in every reachable state, and every
    non-null pointer that [myAlloc] returns there is a multiple of 8. *)
Theorem alloc_aligned fuel h size h' ptr :
  reachable h -> is_int size ->
  myAlloc fuel h size = Some (h', ptr) -> ptr <> NULL ->
  heapStart h mod 8 = 4 /\ ptr mod 8 = 0.
Proof.
  intros [bs HR]%reachable_Rep Hi Hrun Hnn.
  pose proof (rep_geo _ _ HR) as HG. geo_facts HG.
  destruct (myAlloc_Rep _ _ _ _ _ _ HR Hi Hrun)
    as [[-> _] | (pre & s & post & -> & -> & _)]; [contradiction|].
  destruct (Rep_block_bounds _ _ _ _ _ HR) as (_ & _ & _ & _ & _ & Hpre8 & _).
  lia.
Qed.

Lemma alloc_aligned_witness :
  reachable st_a1 /\ is_int 40 /\ myAlloc 3 st_a1 40 = Some (st_a2, 65592) /\
  65592 <> NULL /\ heapStart st_a1 mod 8 = 4 /\ 65592 mod 8 = 0.
Proof.
  assert (Hnn : 65592 <> NULL) by (unfold NULL; lia).
  split_and!; [exact st_a1_reachable|exact int_40|exact run_a2|exact Hnn|..];
    apply (alloc_aligned 3 st_a1 40 st_a2 65592 st_a1_reachable int_40 run_a2 Hnn).
Defined.

(** C9. In every reachable state a call of [myAlloc] that returns [NULL]
    returns the heap it was given.  [myAlloc] returns [NULL] for a
    request that is not positive, for a block size above [allocsize],
    and, when the block size is positive, if no free block of the chain
    is large enough. *)
Theorem alloc_null_unchanged h size :
  reachable h -> is_int size ->
  (forall fuel h', myAlloc fuel h size = Some (h', NULL) -> h' = h) /\
  (size <= 0 -> forall fuel, myAlloc fuel h size = Some (h, NULL)) /\
  (allocsize h < block_size size -> forall fuel, myAlloc fuel h size = Some (h, NULL)) /\
  (0 < size -> 8 <= block_size size ->
   forall rows, chain h rows ->
   (forall r, In r rows -> r_used r = false -> t_size r < block_size size) ->
   exists fuel, myAlloc fuel h size = Some (h, NULL)).
Proof.
  intros [bs HR]%reachable_Rep Hi. split_and!.
  - intros fuel h' Hrun.
    pose proof (rep_geo _ _ HR) as HG. geo_facts HG.
    destruct (myAlloc_Rep _ _ _ _ _ _ HR Hi Hrun)
      as [[_ ->] | (pre & s & post & -> & Hp & _)]; [reflexivity|].
    destruct (Rep_block_bounds _ _ _ _ _ HR) as (_ & _ & Hpre0 & _).
    unfold NULL in Hp. lia.
  - intros Hsz fuel. unfold myAlloc.
    destruct (Z.leb_spec size 0); [reflexivity|lia].
  - intros Hbig fuel. unfold myAlloc. destruct (size <=? 0); [reflexivity|].
    destruct (Z.ltb_spec (allocsize h) (block_size size)); [reflexivity|lia].
  - intros Hsz HB rows Hch Hnone. exists (S (length bs)).
    apply (myAlloc_no_fit h bs); try assumption; [|lia].
    intros s Hin. rewrite (Rep_chain_inv _ _ _ HR Hch) in Hnone.
    destruct (rows_of_In_inv (heapStart h) true 1 bs s false Hin) as (r & Hr & <- & Hf).
    now apply Hnone.
Qed.

Lemma alloc_null_unchanged_witness :
  reachable st_a2 /\ is_int 5000 /\
  (forall fuel h', myAlloc fuel st_a2 5000 = Some (h', NULL) -> h' = st_a2) /\
  (5000 <= 0 -> forall fuel, myAlloc fuel st_a2 5000 = Some (st_a2, NULL)) /\
  (allocsize st_a2 < block_size 5000 ->
   forall fuel, myAlloc fuel st_a2 5000 = Some (st_a2, NULL)) /\
  (0 < 5000 -> 8 <= block_size 5000 ->
   forall rows, chain st_a2 rows ->
   (forall r, In r rows -> r_used r = false -> t_size r < block_size 5000) ->
   exists fuel, myAlloc fuel st_a2 5000 = Some (st_a2, NULL)).
Proof.
  assert (Hi : is_int 5000) by (unfold is_int; lia).
  split; [exact st_a2_reachable|]. split; [exact Hi|].
  exact (alloc_null_unchanged st_a2 5000 st_a2_reachable Hi).
Defined.

(** C10. In the reachable state [st_b3] the chain has the free blocks
    [65540, 65643] of 104 bytes and [65644, 69627] of 3984 bytes, and
    the word at 65588 holds the 1 that the client stored there while the
    first block was allocated.  [myAlloc(40)] needs 48 bytes and takes
    the first block, which is larger; it writes the header 48 + 2 + 1,
    finds 1 where the header of the remainder goes and returns: no free
    block of 104 - 48 bytes follows, the chain ends at 65588. *)
Theorem split_without_remainder :
  reachable st_b3 /\
  dispMem 3 st_b3 = Some [mkRow 1 false true 65540 65643 104;
                          mkRow 2 false false 65644 69627 3984] /\
  block_size 40 = 48 /\
  load st_b3 (65540 + 48) = Some 1 /\
  myAlloc 3 st_b3 40 = Some (st_b4, 65544) /\
  dispMem 3 st_b4 = Some [mkRow 1 true true 65540 65587 48] /\
  myAlloc 3 st_b4 8 = Some (st_b4, NULL).
Proof.
  split; [exact st_b3_reachable|]. split_and!; vm_compute; reflexivity.
Qed.

(** * Further properties

    Properties of the five functions beside those of the specification:
    what [myAlloc], [myFree] and [coalesce] do to the chain, to the
    payloads and to the set of allocated blocks, the layout after
    [myInit], the termination of the loops and the totals of [dispMem]. *)

(** ** Rows and block lists *)

Lemma map_begin_rows a p p' n n' bs bs' :
  map fst bs = map fst bs' ->
  map t_begin (rows_of a p n bs) = map t_begin (rows_of a p' n' bs').
Proof.
  revert a p p' n n' bs'.
  induction bs as [|[s al] bs IH]; intros a p p' n n' [|[s' al'] bs'] [=];
    [reflexivity|]. subst. cbn [rows_of map t_begin]. f_equal. now apply IH.
Qed.

Lemma rows_used_sat P a p n bs :
  (exists r, In r (rows_of a p n bs) /\ r_used r = true /\
             P (t_begin r) (t_size r)) <->
  used_sat P a bs.
Proof.
  revert a p n. induction bs as [|[s al] bs IH]; intros a p n; cbn [rows_of used_sat In].
  - split; [intros (r & [] & _)|tauto].
  - rewrite <- (IH (a + s) al (wrap (n + 1))). split.
    + intros (r & [<-|Hin] & Hu & HP); [left; auto|right; eauto].
    + intros [[-> HP]|(r & Hin & Hu & HP)]; [|eauto].
      eexists. split; [left; reflexivity|]. auto.
Qed.

Lemma used_sat_mid P a pre s al post :
  used_sat P a (pre ++ (s, al) :: post) <->
  used_sat P a pre \/ (al = true /\ P (a + total pre) s) \/
  used_sat P (a + total pre + s) post.
Proof. rewrite used_sat_app. reflexivity. Qed.

Lemma in_payload_Rep h bs x :
  Rep h bs -> in_payload h x <-> used_sat (in_used x) (heapStart h) bs.
Proof.
  intros HR. rewrite <- (rows_used_sat _ _ true 1). split.
  - intros (rows & r & Hch & Hin & Hu & Hx).
    rewrite (Rep_chain_inv _ _ _ HR Hch) in Hin.
    destruct (rows_of_In_split _ _ _ _ _ Hin) as (_ & _ & _ & _ & He).
    exists r. unfold in_used. split_and!; auto; lia.
  - intros (r & Hin & Hu & Hx).
    destruct (rows_of_In_split _ _ _ _ _ Hin) as (_ & _ & _ & _ & He).
    exists (rows_of (heapStart h) true 1 bs), r. unfold in_used in Hx.
    split_and!; auto; try lia. now apply Rep_chain.
Qed.

Lemma live_Rep_iff h bs q :
  Rep h bs -> live h q <-> used_sat (starts q) (heapStart h) bs.
Proof.
  intros HR. rewrite <- (rows_used_sat _ _ true 1). split.
  - intros (rows & r & Hch & Hin & Hu & Hx).
    rewrite (Rep_chain_inv _ _ _ HR Hch) in Hin. exists r. auto.
  - intros (r & Hin & Hu & Hx).
    exists (rows_of (heapStart h) true 1 bs), r.
    split_and!; auto. now apply Rep_chain.
Qed.

Lemma load_same h h' x :
  h' = set_mem h (mem h') -> rd (mem h') x = rd (mem h) x -> load h' x = load h x.
Proof.
  intros -> E. unfold load. rewrite mapped_set_mem. cbn [set_mem mem] in *.
  now rewrite E.
Qed.

(** ** Lemmas on [myAlloc] *)

Lemma block_size_round sz :
  0 < sz <= 2147483636 ->
  block_size sz = 8 * ((sz + 11) / 8) /\ sz + 4 <= block_size sz <= sz + 11.
Proof.
  intros Hsz. unfold block_size, hdr_size.
  rewrite (wrap_id (4 + sz)) by (unfold is_int; lia).
  destruct (Z.eqb_spec (Z.rem (4 + sz) 8) 0) as [H0|H0]; cbn [negb].
  - lia.
  - rewrite (wrap_id (4 + sz + 8)) by (unfold is_int; lia).
    rewrite wrap_id by (unfold is_int; lia). lia.
Qed.

Lemma block_size_wrapped sz :
  2147483637 <= sz <= 2147483647 -> block_size sz <= -2147483632.
Proof.
  intros Hsz. destruct (block_size_int sz) as (_ & _ & [HB|HB]); [lia| |assumption].
  exfalso. revert HB. unfold block_size, hdr_size.
  assert (Ht : wrap (4 + sz) = 4 + sz \/ wrap (4 + sz) = 4 + sz - 4294967296)
    by (unfold wrap; lia).
  pose proof (wrap_is_int (4 + sz)) as Hti. revert Ht Hti.
  generalize (wrap (4 + sz)). intros t Ht Hti.
  destruct (Z.eqb_spec (Z.rem t 8) 0) as [H0|H0]; cbn [negb].
  - unfold is_int in *. lia.
  - unfold is_int in *. unfold wrap in *. lia.
Qed.

(** With a block size that wrapped around, [myAlloc] stores or loads
    outside the mapped region. *)
Lemma myAlloc_wrapped fuel h bs sz :
  Rep h bs -> 0 < sz -> block_size sz <= -2147483632 ->
  myAlloc fuel h sz = None.
Proof.
  intros HR Hsz HB. unfold myAlloc.
  destruct (Z.leb_spec sz 0); [lia|].
  set (B := block_size sz) in *.
  pose proof (rep_geo _ _ HR) as HG. geo_facts HG.
  pose proof (rep_total _ _ HR) as Htotal.
  destruct (Z.ltb_spec (allocsize h) B); [lia|].
  rewrite (best_fit_seg h HG B bs fuel _ true)
    by (try apply HR; try lia).
  destruct (length bs <? fuel)%nat; [|reflexivity].
  cbn [mbind option_bind].
  destruct (pick_spec B (mem h) bs (heapStart h) true (-1) NULL 0 (rep_seg _ _ HR))
    as [[-> Hall] | (pre & s & post & -> & -> & Hsz' & _ & Hpre & Hpost)].
  - destruct (Z.ltb_spec B (-1)); [|lia].
    unfold store, mapped. replace (map_lo h <=? NULL) with false
      by (symmetry; apply Z.leb_gt; unfold NULL; lia).
    reflexivity.
  - destruct (Rep_block_bounds _ _ _ _ _ HR)
      as (Hs & Hs8 & Hpre0 & Hpost0 & Htot & Hpre8 & Hrd).
    remember (heapStart h + total pre) as c eqn:Hc.
    destruct (Z.ltb_spec B s); [|lia].
    do_store HG. unfold load, mapped.
    replace (map_lo (set_mem h _) <=? c + B) with false
      by (symmetry; apply Z.leb_gt; cbn [set_mem map_lo]; lia).
    reflexivity.
Qed.

(** If a free block is large enough, [myAlloc] returns a block. *)
Lemma myAlloc_fit fuel h bs sz s0 :
  Rep h bs -> 0 < sz <= 2147483647 -> 8 <= block_size sz ->
  In (s0, false) bs -> block_size sz <= s0 -> (length bs < fuel)%nat ->
  exists h' ptr, myAlloc fuel h sz = Some (h', ptr) /\ ptr <> NULL.
Proof.
  intros HR Hsz HB Hin Hfit Hfuel. unfold myAlloc.
  destruct (Z.leb_spec sz 0); [lia|].
  set (B := block_size sz) in *.
  pose proof (rep_geo _ _ HR) as HG. geo_facts HG.
  pose proof (rep_total _ _ HR) as Htotal.
  assert (Hs0 : s0 <= allocsize h).
  { apply in_split in Hin as (l1 & l2 & ->).
    destruct (Rep_block_bounds _ _ _ _ _ HR) as (_ & _ & ? & ? & ? & _). lia. }
  destruct (Z.ltb_spec (allocsize h) B); [lia|].
  rewrite (best_fit_seg h HG B bs fuel _ true)
    by (try apply HR; try lia).
  rewrite (proj2 (Nat.ltb_lt _ _) Hfuel). cbn [mbind option_bind].
  destruct (pick_spec B (mem h) bs (heapStart h) true (-1) NULL 0 (rep_seg _ _ HR))
    as [[-> Hall] | (pre & s & post & -> & -> & Hsz' & _ & Hpre & Hpost)].
  - destruct (Hall _ Hin Hfit) as [E _]. contradiction.
  - destruct (Rep_block_bounds _ _ _ _ _ HR)
      as (Hs & Hs8 & Hpre0 & Hpost0 & Htot & Hpre8 & Hrd).
    destruct (block_size_int sz) as (HB8 & _); [lia|fold B in HB8].
    remember (heapStart h + total pre) as c eqn:Hc.
    assert (Hnn : c + 4 <> NULL) by (unfold NULL; lia).
    destruct (Z.ltb_spec B s) as [Hlt|Hge].
    + do_store HG. do_load HG.
      destruct (_ =? 1); [eauto|]. do_store HG. eauto.
    + assert (s = B) by lia. subst s. rewrite Z.eqb_refl.
      do_load HG. do_store HG. do_load HG.
      destruct (_ =? 1); [eauto|]. do_store HG. eauto.
Qed.

(** [myAlloc] writes at most the header of the block it returns and the
    word after that block. *)
Lemma myAlloc_writes fuel h sz h' ptr :
  myAlloc fuel h sz = Some (h', ptr) ->
  h' = set_mem h (mem h') /\
  forall x, x <> ptr - 4 -> x <> ptr - 4 + block_size sz ->
            rd (mem h') x = rd (mem h) x.
Proof.
  unfold myAlloc.
  destruct (sz <=? 0); [intros [= <- <-]; split; [apply set_mem_self|reflexivity]|].
  set (B := block_size sz).
  destruct (allocsize h <? B);
    [intros [= <- <-]; split; [apply set_mem_self|reflexivity]|].
  destruct (best_fit _ _ _ _ _ _ _) as [[[mA blk] pb]|]; [|discriminate].
  cbn [mbind option_bind].
  destruct (B <? mA).
  - destruct (store h blk _) as [h1|] eqn:E1; [|discriminate].
    apply store_inv in E1 as [_ ->]. cbn [mbind option_bind].
    destruct (load _ _) as [sp|]; [|discriminate]. cbn [mbind option_bind].
    destruct (sp =? 1).
    + intros [= <- <-]. replace (blk + 4 - 4) with blk by lia.
      split; [reflexivity|]. intros x ? ?. cbn [set_mem mem]. now rd_simpl.
    + destruct (store _ (blk + B) _) as [h2|] eqn:E2; [|discriminate].
      apply store_inv in E2 as [_ ->]. cbn [mbind option_bind].
      intros [= <- <-]. replace (blk + 4 - 4) with blk by lia.
      split; [reflexivity|]. intros x ? ?. cbn [set_mem mem]. now rd_simpl.
  - destruct (mA =? B);
      [|intros [= <- <-]; split; [apply set_mem_self|reflexivity]].
    destruct (load h blk) as [b|]; [|discriminate]. cbn [mbind option_bind].
    destruct (store h blk _) as [h1|] eqn:E1; [|discriminate].
    apply store_inv in E1 as [_ ->]. cbn [mbind option_bind].
    destruct (load _ _) as [sp|]; [|discriminate]. cbn [mbind option_bind].
    destruct (sp =? 1).
    + intros [= <- <-]. replace (blk + 4 - 4) with blk by lia.
      split; [reflexivity|]. intros x ? ?. cbn [set_mem mem]. now rd_simpl.
    + destruct (store _ (blk + B) _) as [h2|] eqn:E2; [|discriminate].
      apply store_inv in E2 as [_ ->]. cbn [mbind option_bind].
      intros [= <- <-]. replace (blk + 4 - 4) with blk by lia.
      split; [reflexivity|]. intros x ? ?. cbn [set_mem mem]. now rd_simpl.
Qed.

Lemma block_size_fits sz :
  0 < sz <= 2147483647 -> 8 <= block_size sz ->
  sz + 4 <= block_size sz <= sz + 11.
Proof.
  intros Hsz HB. destruct (Z.le_gt_cases sz 2147483636).
  - apply block_size_round. lia.
  - pose proof (block_size_wrapped sz). lia.
Qed.

(** After a call that returns a block, the block list has the block as
    an allocated block of the block size. *)
Lemma myAlloc_block fuel h bs sz h' ptr :
  Rep h bs -> is_int sz -> myAlloc fuel h sz = Some (h', ptr) -> ptr <> NULL ->
  exists pre post',
    Rep h' (pre ++ (block_size sz, true) :: post') /\
    ptr = heapStart h' + total pre + 4 /\ 0 < sz /\ 8 <= block_size sz.
Proof.
  intros HR Hi Hrun Hnn.
  destruct (myAlloc_Rep _ _ _ _ _ _ HR Hi Hrun)
    as [[-> _] | (pre & s & post & -> & -> & Hsz & [HB Hle] & _ & _ & Hst &
                  [[-> HR']|[(_ & _ & HR' & _)|(_ & _ & HR')]])];
    [contradiction|..]; rewrite Hst; eauto 10.
Qed.

(** [myAlloc] leaves the payloads of the allocated blocks alone. *)
Lemma myAlloc_keeps_used fuel h bs sz h' ptr x :
  Rep h bs -> is_int sz -> myAlloc fuel h sz = Some (h', ptr) ->
  used_sat (in_used x) (heapStart h) bs -> rd (mem h') x = rd (mem h) x.
Proof.
  intros HR Hi Hrun Hu.
  destruct (myAlloc_writes _ _ _ _ _ Hrun) as [_ Hfr].
  destruct (myAlloc_Rep _ _ _ _ _ _ HR Hi Hrun)
    as [[_ ->] | (pre & s & post & -> & -> & Hsz & [HB Hle] & _)];
    [reflexivity|].
  destruct (Rep_split h pre [(s, false)] post HR) as (Spre & _ & Spost & _).
  cbn [total last_used] in Spost. rewrite Z.add_0_r in Spost.
  apply used_sat_mid in Hu as [Hu|[[[=] _]|Hu]].
  - apply (in_used_bounds _ _ _ _ _ Spre) in Hu. apply Hfr; lia.
  - apply (in_used_bounds _ _ _ _ _ Spost) in Hu. apply Hfr; lia.
Qed.

(** ** Lemmas on [myFree] *)

Lemma map_freed_above m c bs :
  forall a p n, seg m a p bs -> c < a -> map (freed c) (rows_of a p n bs) = bs.
Proof.
  induction bs as [|[s al] bs IH]; intros a p n; [reflexivity|].
  intros (Hs & _ & _ & Hseg) Hc. cbn [rows_of map]. unfold freed at 1.
  cbn [t_begin t_size r_used]. destruct (Z.eqb_spec a c); [lia|].
  rewrite IH by (assumption || lia). reflexivity.
Qed.

Lemma map_freed_rows m pre s al post :
  forall a p n, seg m a p (pre ++ (s, al) :: post) ->
  map (freed (a + total pre)) (rows_of a p n (pre ++ (s, al) :: post)) =
  pre ++ (s, false) :: post.
Proof.
  induction pre as [|[s0 al0] pre IH]; intros a p n; cbn [app total rows_of map].
  - intros (Hs & _ & _ & Hseg). unfold freed at 1. cbn [t_begin t_size r_used].
    rewrite Z.add_0_r, Z.eqb_refl.
    rewrite (map_freed_above m) by (assumption || lia). reflexivity.
  - intros (Hs & _ & _ & Hseg). unfold freed at 1. cbn [t_begin t_size r_used].
    apply seg_app in Hseg as Hsp. destruct Hsp as [Hsp _].
    pose proof (seg_total _ _ _ _ Hsp).
    destruct (Z.eqb_spec a (a + (s0 + total pre))); [lia|].
    rewrite Z.add_assoc, IH by assumption. reflexivity.
Qed.

(** ** More on rows and block lists *)

Lemma rows_of_length a p n bs : length (rows_of a p n bs) = length bs.
Proof.
  revert a p n. induction bs as [|[s al] bs IH]; intros a p n; [reflexivity|].
  cbn [rows_of length]. now rewrite IH.
Qed.

Lemma seg_length m a p bs : seg m a p bs -> 8 * Z.of_nat (length bs) <= total bs.
Proof.
  revert a p. induction bs as [|[s al] bs IH]; intros a p; cbn [seg total length];
    [lia|].
  intros (Hs & _ & _ & Hseg). specialize (IH _ _ Hseg). lia.
Qed.

Lemma tiles_rows m a p n bs : seg m a p bs -> tiles a (rows_of a p n bs).
Proof.
  revert a p n. induction bs as [|[s al] bs IH]; intros a p n; cbn [seg rows_of tiles];
    [trivial|].
  intros (Hs & Hs8 & _ & Hseg). cbn [t_begin t_end t_size]. eauto 10.
Qed.

Lemma fit_dec B bs :
  (forall s, In (s, false) bs -> s < B) \/ (exists s, In (s, false) bs /\ B <= s).
Proof.
  induction bs as [|[s al] bs [IH|(s' & Hin & Hle)]].
  - left. intros s [].
  - destruct al.
    + left. intros s' [[=]|Hin]. now apply IH.
    + destruct (Z.lt_ge_cases s B).
      * left. intros s' [[= <-]|Hin]; [assumption|now apply IH].
      * right. exists s. split; [now left|lia].
  - right. exists s'. split; [now right|assumption].
Qed.

(** The row of a block of the block list. *)
Lemma Rep_row h pre s al post :
  Rep h (pre ++ (s, al) :: post) ->
  exists rows r,
    chain h rows /\ In r rows /\ t_begin r = heapStart h + total pre /\
    t_size r = s /\ r_used r = al /\ t_end r = t_begin r + s - 1.
Proof.
  intros HR.
  destruct (rows_of_app (heapStart h) true 1 pre ((s, al) :: post)) as [n' Hrows].
  cbn [rows_of] in Hrows.
  eexists _, _. split; [apply (Rep_chain _ _ HR)|]. rewrite Hrows.
  split; [apply in_elt|]. cbn [t_begin r_used t_size t_end]. auto.
Qed.

Lemma myFree_same h ptr h' r : myFree h ptr = Some (h', r) -> h' = set_mem h (mem h').
Proof.
  unfold myFree.
  destruct (ptr =? NULL); [intros [= <- _]; apply set_mem_self|].
  destruct (negb _); [intros [= <- _]; apply set_mem_self|].
  destruct (_ <? _); [intros [= <- _]; apply set_mem_self|].
  destruct (load h (ptr - 4)) as [hd|]; [|discriminate]. cbn [mbind option_bind].
  destruct (negb _); [intros [= <- _]; apply set_mem_self|].
  destruct (store h _ _) as [h1|] eqn:E1; [|discriminate]. cbn [mbind option_bind].
  destruct (load h1 _) as [c1|]; [|discriminate]. cbn [mbind option_bind].
  destruct (store h1 _ _) as [h2|] eqn:E2; [|discriminate]. cbn [mbind option_bind].
  destruct (load h2 _) as [c2|]; [|discriminate]. cbn [mbind option_bind].
  destruct (load h2 _) as [n|]; [|discriminate]. cbn [mbind option_bind].
  destruct (negb _).
  - destruct (store h2 _ _) as [h3|] eqn:E3; [|discriminate].
    cbn [mbind option_bind]. intros [= <- _].
    apply store_same in E1, E2, E3.
    exact (same_arena_trans _ _ _ (same_arena_trans _ _ _ E1 E2) E3).
  - intros [= <- _]. apply store_same in E1, E2.
    exact (same_arena_trans _ _ _ E1 E2).
Qed.

(** ** Properties of [myAlloc], [myFree] and [coalesce] *)

(** X1. For a request of 1 to 2147483636 bytes the block size of
    [myAlloc] is the request plus the 4 bytes of the header, rounded up
    to the next multiple of 8: it exceeds the request by 4 to 11 bytes. *)
Theorem block_size_rounds_up size :
  0 < size <= 2147483636 ->
  block_size size = 8 * ((size + 11) / 8) /\
  size + 4 <= block_size size <= size + 11 /\ block_size size mod 8 = 0.
Proof.
  intros Hsz. destruct (block_size_round size Hsz) as [E Hb].
  split; [assumption|]. split; [assumption|]. rewrite E. lia.
Qed.

Lemma block_size_rounds_up_witness :
  0 < 40 <= 2147483636 /\
  block_size 40 = 8 * ((40 + 11) / 8) /\
  40 + 4 <= block_size 40 <= 40 + 11 /\ block_size 40 mod 8 = 0.
Proof.
  assert (H : 0 < 40 <= 2147483636) by lia.
  split; [exact H|]. exact (block_size_rounds_up 40 H).
Defined.

(** X2. In every reachable state a request of 2147483637 bytes or more
    has no result: the block size wraps around to a negative number,
    every free block passes for large enough, and [myAlloc] accesses an
    address outside the mapped region. *)
Theorem alloc_wrapped_size_faults fuel h size :
  reachable h -> 2147483637 <= size <= 2147483647 -> myAlloc fuel h size = None.
Proof.
  intros [bs HR]%reachable_Rep Hsz.
  apply (myAlloc_wrapped fuel h bs); [assumption|lia|].
  now apply block_size_wrapped.
Qed.

Lemma alloc_wrapped_size_faults_witness :
  reachable st_a1 /\ 2147483637 <= 2147483640 <= 2147483647 /\
  myAlloc 3 st_a1 2147483640 = None.
Proof.
  assert (H : 2147483637 <= 2147483640 <= 2147483647) by lia.
  split; [exact st_a1_reachable|]. split; [exact H|].
  exact (alloc_wrapped_size_faults 3 st_a1 2147483640 st_a1_reachable H).
Defined.

(** X3. In every reachable state [myAlloc] returns for a request of 1 to
    2147483636 bytes once the fuel exceeds the number of blocks of the
    chain, and it returns [NULL] exactly if every free block of the
    chain is smaller than the block size. *)
Theorem alloc_null_iff_no_fit fuel h size rows :
  reachable h -> chain h rows -> 0 < size <= 2147483636 ->
  (length rows < fuel)%nat ->
  exists h' ptr,
    myAlloc fuel h size = Some (h', ptr) /\
    (ptr = NULL <->
     forall r, In r rows -> r_used r = false -> t_size r < block_size size).
Proof.
  intros [bs HR]%reachable_Rep Hch Hsz Hfuel.
  rewrite (Rep_chain_inv _ _ _ HR Hch) in *. rewrite rows_of_length in Hfuel.
  destruct (block_size_round size Hsz) as [E HB].
  assert (HB8 : 8 <= block_size size) by lia. clear E.
  destruct (fit_dec (block_size size) bs) as [Hnone|(s & Hin & Hle)].
  - exists h, NULL. split.
    + apply (myAlloc_no_fit h bs); try assumption; lia.
    + split; [|reflexivity]. intros _ r Hr Hfree.
      destruct (rows_of_In_split _ _ _ _ _ Hr) as (pre & post & E & _).
      apply Hnone. rewrite E, <- Hfree. apply in_elt.
  - destruct (myAlloc_fit fuel h bs size s HR ltac:(lia) HB8 Hin Hle Hfuel)
      as (h' & ptr & Hrun & Hnn).
    exists h', ptr. split; [assumption|]. split; [contradiction|].
    intros Hnone.
    destruct (rows_of_In_inv (heapStart h) true 1 bs s false Hin)
      as (r & Hr & Hs & Hf).
    specialize (Hnone r Hr Hf). lia.
Qed.

Lemma alloc_null_iff_no_fit_witness :
  reachable st_a1 /\
  chain st_a1 [mkRow 1 true true 65540 65587 48;
               mkRow 2 false true 65588 69627 4040] /\
  0 < 40 <= 2147483636 /\ (2 < 3)%nat /\
  exists h' ptr,
    myAlloc 3 st_a1 40 = Some (h', ptr) /\
    (ptr = NULL <->
     forall r, In r [mkRow 1 true true 65540 65587 48;
                     mkRow 2 false true 65588 69627 4040] ->
               r_used r = false -> t_size r < block_size 40).
Proof.
  assert (Hch : chain st_a1 [mkRow 1 true true 65540 65587 48;
                             mkRow 2 false true 65588 69627 4040])
    by (exists 3%nat; vm_compute; reflexivity).
  assert (Hsz : 0 < 40 <= 2147483636) by lia.
  assert (Hf : (2 < 3)%nat) by lia.
  split; [exact st_a1_reachable|]. split; [exact Hch|].
  split; [exact Hsz|]. split; [exact Hf|].
  exact (alloc_null_iff_no_fit 3 st_a1 40 _ st_a1_reachable Hch Hsz Hf).
Defined.

(** X4. In every reachable state, a pointer that [myAlloc] returns is
    the payload address of an allocated block of the new chain; the
    block has the block size, 4 to 11 bytes more than the request, and
    lies inside the arena. *)
Theorem alloc_returns_block fuel h size h' ptr :
  reachable h -> is_int size ->
  myAlloc fuel h size = Some (h', ptr) -> ptr <> NULL ->
  exists rows r,
    chain h' rows /\ In r rows /\ r_used r = true /\ t_begin r = ptr - 4 /\
    t_size r = block_size size /\ size + 4 <= t_size r <= size + 11 /\
    heapStart h' <= t_begin r /\ t_end r < heapStart h' + allocsize h'.
Proof.
  intros [bs HR]%reachable_Rep Hi Hrun Hnn.
  destruct (myAlloc_block _ _ _ _ _ _ HR Hi Hrun Hnn)
    as (pre & post & HR' & -> & Hsz & HB).
  destruct (Rep_row _ _ _ _ _ HR') as (rows & r & Hch & Hin & Hb & Hs & Hu & He).
  destruct (Rep_block_bounds _ _ _ _ _ HR') as (_ & _ & Hpre0 & Hpost0 & Htot & _).
  exists rows, r. rewrite Hs. split_and!; try assumption; try lia;
    apply block_size_fits; unfold is_int in Hi; try assumption; lia.
Qed.

Lemma alloc_returns_block_witness :
  reachable st_a1 /\ is_int 40 /\ myAlloc 3 st_a1 40 = Some (st_a2, 65592) /\
  65592 <> NULL /\
  exists rows r,
    chain st_a2 rows /\ In r rows /\ r_used r = true /\ t_begin r = 65592 - 4 /\
    t_size r = block_size 40 /\ 40 + 4 <= t_size r <= 40 + 11 /\
    heapStart st_a2 <= t_begin r /\ t_end r < heapStart st_a2 + allocsize st_a2.
Proof.
  assert (Hnn : 65592 <> NULL) by (unfold NULL; lia).
  split_and!; [exact st_a1_reachable|exact int_40|exact run_a2|exact Hnn|].
  exact (alloc_returns_block 3 st_a1 40 st_a2 65592 st_a1_reachable int_40 run_a2 Hnn).
Defined.

(** X5. In every reachable state [myAlloc] leaves every word in the
    payload of an allocated block as it is. *)
Theorem alloc_keeps_payloads fuel h size h' ptr x :
  reachable h -> is_int size -> myAlloc fuel h size = Some (h', ptr) ->
  in_payload h x -> load h' x = load h x.
Proof.
  intros [bs HR]%reachable_Rep Hi Hrun Hx.
  apply (in_payload_Rep _ _ _ HR) in Hx.
  destruct (myAlloc_writes _ _ _ _ _ Hrun) as [Hsame _].
  apply load_same; [assumption|].
  now apply (myAlloc_keeps_used fuel h bs size h' ptr).
Qed.

Lemma alloc_keeps_payloads_witness :
  reachable st_a1 /\ is_int 40 /\ myAlloc 3 st_a1 40 = Some (st_a2, 65592) /\
  in_payload st_a1 65544 /\ load st_a2 65544 = load st_a1 65544.
Proof.
  assert (Hx : in_payload st_a1 65544).
  { exists [mkRow 1 true true 65540 65587 48; mkRow 2 false true 65588 69627 4040],
      (mkRow 1 true true 65540 65587 48).
    split; [exists 3%nat; vm_compute; reflexivity|].
    split; [left; reflexivity|]. split; [reflexivity|]. cbn. lia. }
  split_and!; [exact st_a1_reachable|exact int_40|exact run_a2|exact Hx|].
  exact (alloc_keeps_payloads 3 st_a1 40 st_a2 65592 65544
           st_a1_reachable int_40 run_a2 Hx).
Defined.

(** A block list has one block at an address. *)
Lemma split_unique m pre s al post :
  forall a p pre1 s1 al1 post1,
  seg m a p (pre ++ (s, al) :: post) ->
  pre ++ (s, al) :: post = pre1 ++ (s1, al1) :: post1 ->
  total pre1 = total pre -> pre1 = pre /\ s1 = s /\ al1 = al /\ post1 = post.
Proof.
  induction pre as [|[s0 al0] pre IH]; intros a p [|[s2 al2] pre1] s1 al1 post1;
    cbn [app total seg].
  - intros _ [= <- <- <-] _. auto.
  - intros (Hs & _ & _ & Hseg) [= <- <- E] Ht. rewrite E in Hseg.
    apply seg_app in Hseg as [H1 H2]. pose proof (seg_total _ _ _ _ H1).
    lia.
  - intros (Hs & _ & _ & Hseg) [= <- <- E] Ht.
    apply seg_app in Hseg as [H1 H2]. pose proof (seg_total _ _ _ _ H1).
    destruct H2 as (? & _). lia.
  - intros (Hs & _ & _ & Hseg) [= <- <- E] Ht.
    destruct (IH _ _ _ _ _ _ Hseg E) as (-> & -> & -> & ->); [lia|]. auto.
Qed.

(** X6. In every reachable state [myFree] of the payload address of an
    allocated block returns 0.  The new chain has the blocks of the old
    one at the same addresses and with the same sizes; the block of the
    pointer is free, the others are as they were, and the footer of the
    freed block holds its size. *)
Theorem free_marks_block h ptr rows :
  reachable h -> live h ptr -> chain h rows ->
  exists h' rows',
    myFree h ptr = Some (h', 0) /\ chain h' rows' /\
    map shape rows' = map (freed (ptr - 4)) rows /\
    map t_begin rows' = map t_begin rows /\
    forall r, In r rows' -> t_begin r = ptr - 4 -> footer h' r = Some (t_size r).
Proof.
  intros [bs HR]%reachable_Rep Hlive Hch.
  destruct (live_Rep _ _ _ HR Hlive) as (pre & s & post & -> & ->).
  rewrite (Rep_chain_inv _ _ _ HR Hch).
  destruct (myFree_Rep _ _ _ _ HR) as (h' & Hrun & HR' & Hsame & Hfoot & _).
  pose proof (rep_geo _ _ HR') as HG'. geo_facts HG'.
  assert (Hst : heapStart h' = heapStart h) by (now rewrite Hsame).
  exists h', (rows_of (heapStart h') true 1 (pre ++ (s, false) :: post)).
  split_and!.
  - assumption.
  - now apply Rep_chain.
  - rewrite map_shape_rows. symmetry.
    replace (heapStart h + total pre + 4 - 4) with (heapStart h + total pre) by lia.
    apply (map_freed_rows (mem h)), (rep_seg _ _ HR).
  - rewrite Hst. apply map_begin_rows. rewrite !map_app. reflexivity.
  - intros r Hin Hb.
    destruct (rows_of_In_split _ _ _ _ _ Hin) as (pre1 & post1 & E & Hb1 & He).
    destruct (Rep_block_bounds _ _ _ _ _ HR')
      as (Hs & Hs8 & Hpre0 & Hpost0 & Htot & Hpre8 & _).
    destruct (split_unique _ _ _ _ _ _ _ _ _ _ _ (rep_seg _ _ HR') E)
      as (_ & Hsz & _); [lia|].
    unfold footer. rewrite He, Hb, Hsz.
    replace (heapStart h + total pre + 4 - 4 + s - 1 - 3)
      with (heapStart h + total pre + s - 4) by lia.
    rewrite load_Some; [now rewrite Hfoot|].
    apply (Geo_mapped _ _ HG'); lia.
Qed.

Lemma free_marks_block_witness :
  reachable st_a2 /\ live st_a2 65592 /\
  chain st_a2 [mkRow 1 true true 65540 65587 48; mkRow 2 true true 65588 65635 48;
               mkRow 3 false true 65636 69627 3992] /\
  exists h' rows',
    myFree st_a2 65592 = Some (h', 0) /\ chain h' rows' /\
    map shape rows' =
      map (freed (65592 - 4))
          [mkRow 1 true true 65540 65587 48; mkRow 2 true true 65588 65635 48;
           mkRow 3 false true 65636 69627 3992] /\
    map t_begin rows' =
      map t_begin
          [mkRow 1 true true 65540 65587 48; mkRow 2 true true 65588 65635 48;
           mkRow 3 false true 65636 69627 3992] /\
    forall r, In r rows' -> t_begin r = 65592 - 4 -> footer h' r = Some (t_size r).
Proof.
  assert (Hch : chain st_a2 [mkRow 1 true true 65540 65587 48;
                             mkRow 2 true true 65588 65635 48;
                             mkRow 3 false true 65636 69627 3992])
    by (exists 4%nat; vm_compute; reflexivity).
  split; [exact st_a2_reachable|]. split; [exact live_a2|]. split; [exact Hch|].
  exact (free_marks_block st_a2 65592 _ st_a2_reachable live_a2 Hch).
Defined.

(** X7. In every reachable state [myFree] of the payload address of an
    allocated block leaves every word in the payload of a block that is
    allocated afterwards as it is. *)
Theorem free_keeps_payloads h ptr h' r x :
  reachable h -> live h ptr -> myFree h ptr = Some (h', r) ->
  in_payload h' x -> load h' x = load h x.
Proof.
  intros [bs HR]%reachable_Rep Hlive Hrun Hx.
  destruct (live_Rep _ _ _ HR Hlive) as (pre & s & post & -> & ->).
  destruct (myFree_Rep _ _ _ _ HR) as (h2 & Hrun2 & HR' & Hsame & _ & Hfr).
  assert (h2 = h') by congruence. subst h2.
  apply load_same; [assumption|].
  apply (in_payload_Rep _ _ _ HR') in Hx.
  assert (Hst : heapStart h' = heapStart h) by (now rewrite Hsame).
  rewrite Hst in Hx.
  destruct (Rep_split h pre [(s, true)] post HR) as (Spre & _ & Spost & _).
  destruct (Rep_block_bounds _ _ _ _ _ HR) as (Hs & _).
  cbn [total last_used] in Spost. rewrite Z.add_0_r in Spost.
  apply used_sat_mid in Hx as [Hu|[[[=] _]|Hu]].
  - apply (in_used_bounds _ _ _ _ _ Spre) in Hu. apply Hfr; lia.
  - apply (in_used_bounds _ _ _ _ _ Spost) in Hu. apply Hfr; lia.
Qed.

Lemma free_keeps_payloads_witness :
  reachable st_a2 /\ live st_a2 65592 /\ myFree st_a2 65592 = Some (st_f2, 0) /\
  in_payload st_f2 65544 /\ load st_f2 65544 = load st_a2 65544.
Proof.
  assert (Hx : in_payload st_f2 65544).
  { exists [mkRow 1 true true 65540 65587 48; mkRow 2 false true 65588 65635 48;
            mkRow 3 false false 65636 69627 3992], (mkRow 1 true true 65540 65587 48).
    split; [exists 4%nat; vm_compute; reflexivity|].
    split; [left; reflexivity|]. split; [reflexivity|]. cbn. lia. }
  split_and!; [exact st_a2_reachable|exact live_a2|exact run_f2|exact Hx|].
  exact (free_keeps_payloads st_a2 65592 st_f2 0 65544
           st_a2_reachable live_a2 run_f2 Hx).
Defined.

(** X8. In every reachable state the chain after [coalesce] is the chain
    before it with every run of neighbouring free blocks replaced by one
    free block of the size of the run; the other blocks keep their sizes
    and a-bits, and the chain ends where it ended before. *)
Theorem coalesce_merges_runs fuel h h' rows :
  reachable h -> chain h rows -> coalesce fuel h = Some h' ->
  exists rows',
    chain h' rows' /\ map shape rows' = squash (map shape rows) /\
    chain_end h' rows' = chain_end h rows.
Proof.
  intros [bs HR]%reachable_Rep Hch Hrun.
  rewrite (Rep_chain_inv _ _ _ HR Hch).
  destruct (coalesce_squash _ _ _ _ HR Hrun) as (HR' & Hsame & _).
  exists (rows_of (heapStart h') true 1 (squash bs)). split_and!.
  - now apply Rep_chain.
  - now rewrite !map_shape_rows.
  - unfold chain_end. rewrite !rows_of_sizes, total_squash.
    now rewrite Hsame.
Qed.

Lemma coalesce_merges_runs_witness :
  reachable st_f1 /\
  chain st_f1 [mkRow 1 false true 65540 65587 48; mkRow 2 false false 65588 65635 48;
               mkRow 3 false false 65636 69627 3992] /\
  coalesce 3 st_f1 = Some st_co /\
  exists rows',
    chain st_co rows' /\
    map shape rows' =
      squash (map shape [mkRow 1 false true 65540 65587 48;
                         mkRow 2 false false 65588 65635 48;
                         mkRow 3 false false 65636 69627 3992]) /\
    chain_end st_co rows' =
      chain_end st_f1 [mkRow 1 false true 65540 65587 48;
                       mkRow 2 false false 65588 65635 48;
                       mkRow 3 false false 65636 69627 3992].
Proof.
  assert (Hch : chain st_f1 [mkRow 1 false true 65540 65587 48;
                             mkRow 2 false false 65588 65635 48;
                             mkRow 3 false false 65636 69627 3992])
    by (exists 4%nat; vm_compute; reflexivity).
  split; [exact st_f1_reachable|]. split; [exact Hch|]. split; [exact run_co|].
  exact (coalesce_merges_runs 3 st_f1 st_co _ st_f1_reachable Hch run_co).
Defined.

(** X9. In a reachable state whose chain has no two neighbouring free
    blocks, [coalesce] returns the heap it was given. *)
Theorem coalesce_nothing_to_merge fuel h h' rows :
  reachable h -> chain h rows -> no_adjacent_free rows = true ->
  coalesce fuel h = Some h' -> h' = h.
Proof.
  intros [bs HR]%reachable_Rep Hch Hn Hrun.
  rewrite (Rep_chain_inv _ _ _ HR Hch), no_adjacent_free_rows in Hn.
  now apply (coalesce_squash _ _ _ _ HR Hrun).
Qed.

Lemma coalesce_nothing_to_merge_witness :
  reachable st_a2 /\
  chain st_a2 [mkRow 1 true true 65540 65587 48; mkRow 2 true true 65588 65635 48;
               mkRow 3 false true 65636 69627 3992] /\
  no_adjacent_free [mkRow 1 true true 65540 65587 48;
                    mkRow 2 true true 65588 65635 48;
                    mkRow 3 false true 65636 69627 3992] = true /\
  coalesce 4 st_a2 = Some st_a2 /\ st_a2 = st_a2.
Proof.
  assert (Hch : chain st_a2 [mkRow 1 true true 65540 65587 48;
                             mkRow 2 true true 65588 65635 48;
                             mkRow 3 false true 65636 69627 3992])
    by (exists 4%nat; vm_compute; reflexivity).
  assert (Hn : no_adjacent_free [mkRow 1 true true 65540 65587 48;
                                 mkRow 2 true true 65588 65635 48;
                                 mkRow 3 false true 65636 69627 3992] = true)
    by reflexivity.
  assert (Hrun : coalesce 4 st_a2 = Some st_a2) by (vm_compute; reflexivity).
  split; [exact st_a2_reachable|]. split; [exact Hch|]. split; [exact Hn|].
  split; [exact Hrun|].
  exact (coalesce_nothing_to_merge 4 st_a2 st_a2 _ st_a2_reachable Hch Hn Hrun).
Defined.

(** X10. [coalesce] is idempotent on reachable states: a second call
    returns the heap that the first call returned. *)
Theorem coalesce_idempotent fuel fuel' h h1 h2 :
  reachable h -> coalesce fuel h = Some h1 -> coalesce fuel' h1 = Some h2 ->
  h2 = h1.
Proof.
  intros [bs HR]%reachable_Rep Hrun1 Hrun2.
  destruct (coalesce_squash _ _ _ _ HR Hrun1) as (HR1 & _).
  apply (coalesce_squash _ _ _ _ HR1 Hrun2). apply squash_nadj.
Qed.

Lemma coalesce_idempotent_witness :
  reachable st_f1 /\ coalesce 3 st_f1 = Some st_co /\
  coalesce 2 st_co = Some st_co /\ st_co = st_co.
Proof.
  assert (Hrun : coalesce 2 st_co = Some st_co) by (vm_compute; reflexivity).
  split; [exact st_f1_reachable|]. split; [exact run_co|]. split; [exact Hrun|].
  exact (coalesce_idempotent 3 2 st_f1 st_co st_co st_f1_reachable run_co Hrun).
Defined.

(** X11. In every reachable state [coalesce] keeps the allocated blocks:
    the payload addresses of allocated blocks and the words of their
    payloads are the same before and after, and every such word holds
    what it held. *)
Theorem coalesce_keeps_allocated fuel h h' q x :
  reachable h -> coalesce fuel h = Some h' ->
  (live h q <-> live h' q) /\ (in_payload h x <-> in_payload h' x) /\
  (in_payload h x -> load h' x = load h x).
Proof.
  intros [bs HR]%reachable_Rep Hrun.
  destruct (coalesce_squash _ _ _ _ HR Hrun) as (HR' & Hsame & Hfr & _).
  assert (Hst : heapStart h' = heapStart h) by (now rewrite Hsame).
  rewrite (live_Rep_iff _ _ _ HR), (live_Rep_iff _ _ _ HR').
  rewrite (in_payload_Rep _ _ _ HR), (in_payload_Rep _ _ _ HR').
  rewrite Hst, !used_sat_squash. split_and!; try reflexivity.
  intros Hx. apply load_same; auto.
Qed.

Lemma coalesce_keeps_allocated_witness :
  reachable st_f2 /\ coalesce 4 st_f2 = Some st_f2_co /\
  (live st_f2 65544 <-> live st_f2_co 65544) /\
  (in_payload st_f2 65548 <-> in_payload st_f2_co 65548) /\
  (in_payload st_f2 65548 -> load st_f2_co 65548 = load st_f2 65548).
Proof.
  assert (Hrun : coalesce 4 st_f2 = Some st_f2_co) by (vm_compute; reflexivity).
  split; [exact st_f2_reachable|]. split; [exact Hrun|].
  exact (coalesce_keeps_allocated 4 st_f2 st_f2_co 65544 65548 st_f2_reachable Hrun).
Defined.

(** X12. From a reachable state whose chain has no two neighbouring free
    blocks, [myAlloc] that returns a block and leaves the end of the
    chain where it was, then [myFree] of that block, then [coalesce],
    lead to a heap with the chain of the first state. *)
Theorem alloc_free_coalesce_restores fuel fuel' h size h1 ptr rows rows1 h2 r h3 :
  reachable h -> is_int size ->
  chain h rows -> no_adjacent_free rows = true ->
  myAlloc fuel h size = Some (h1, ptr) -> ptr <> NULL ->
  chain h1 rows1 -> chain_end h1 rows1 = chain_end h rows ->
  myFree h1 ptr = Some (h2, r) -> coalesce fuel' h2 = Some h3 ->
  r = 0 /\ chain h3 rows.
Proof.
  intros [bs HR]%reachable_Rep Hi Hch Hn Hrun Hnn Hch1 Hend Hfree Hco.
  rewrite (Rep_chain_inv _ _ _ HR Hch) in *. rewrite no_adjacent_free_rows in Hn.
  assert (E : exists pre s1 post1,
             Rep h1 (pre ++ (s1, true) :: post1) /\
             ptr = heapStart h1 + total pre + 4 /\ heapStart h1 = heapStart h /\
             squash (pre ++ (s1, false) :: post1) = bs).
  { destruct (myAlloc_Rep _ _ _ _ _ _ HR Hi Hrun)
      as [[-> _] | (pre & s & post & -> & -> & Hsz & [HB Hle] & _ & _ & Hst &
                    [[-> HR']|[(Hlt & _ & HR' & _)|(Hlt & _ & HR')]])];
      [contradiction|..].
    - exists pre, (block_size size), post.
      rewrite Hst. split_and!; auto. now apply nadj_squash.
    - exists pre, (block_size size), ((s - block_size size, false) :: post).
      rewrite Hst. split_and!; auto. rewrite squash_merge.
      replace (block_size size + (s - block_size size)) with s by lia.
      now apply nadj_squash.
    - exfalso. rewrite (Rep_chain_inv _ _ _ HR' Hch1) in Hend.
      unfold chain_end in Hend. rewrite !rows_of_sizes, !total_app in Hend.
      cbn [total] in Hend.
      destruct (Rep_block_bounds _ _ _ _ _ HR) as (_ & _ & _ & Hpost0 & _).
      lia. }
  destruct E as (pre & s1 & post1 & HR1 & -> & Hst1 & Hsq).
  destruct (myFree_Rep _ _ _ _ HR1) as (h2' & Hfree' & HR2 & Hsame2 & _).
  assert (E : h2' = h2 /\ r = 0) by (split; congruence). destruct E as [-> ->].
  destruct (coalesce_squash _ _ _ _ HR2 Hco) as (HR3 & Hsame3 & _).
  split; [reflexivity|]. rewrite Hsq in HR3.
  replace (heapStart h) with (heapStart h3); [now apply Rep_chain|].
  rewrite Hsame3. cbn [set_mem heapStart]. rewrite Hsame2. cbn [set_mem heapStart].
  assumption.
Qed.

Lemma alloc_free_coalesce_restores_witness :
  reachable st_a1 /\ is_int 40 /\
  chain st_a1 [mkRow 1 true true 65540 65587 48;
               mkRow 2 false true 65588 69627 4040] /\
  no_adjacent_free [mkRow 1 true true 65540 65587 48;
                    mkRow 2 false true 65588 69627 4040] = true /\
  myAlloc 3 st_a1 40 = Some (st_a2, 65592) /\ 65592 <> NULL /\
  chain st_a2 [mkRow 1 true true 65540 65587 48; mkRow 2 true true 65588 65635 48;
               mkRow 3 false true 65636 69627 3992] /\
  chain_end st_a2 [mkRow 1 true true 65540 65587 48;
                   mkRow 2 true true 65588 65635 48;
                   mkRow 3 false true 65636 69627 3992] =
  chain_end st_a1 [mkRow 1 true true 65540 65587 48;
                   mkRow 2 false true 65588 69627 4040] /\
  myFree st_a2 65592 = Some (st_f2, 0) /\ coalesce 4 st_f2 = Some st_f2_co /\
  0 = 0 /\
  chain st_f2_co [mkRow 1 true true 65540 65587 48;
                  mkRow 2 false true 65588 69627 4040].
Proof.
  assert (Hch : chain st_a1 [mkRow 1 true true 65540 65587 48;
                             mkRow 2 false true 65588 69627 4040])
    by (exists 3%nat; vm_compute; reflexivity).
  assert (Hn : no_adjacent_free [mkRow 1 true true 65540 65587 48;
                                 mkRow 2 false true 65588 69627 4040] = true)
    by reflexivity.
  assert (Hnn : 65592 <> NULL) by (unfold NULL; lia).
  assert (Hch1 : chain st_a2 [mkRow 1 true true 65540 65587 48;
                              mkRow 2 true true 65588 65635 48;
                              mkRow 3 false true 65636 69627 3992])
    by (exists 4%nat; vm_compute; reflexivity).
  assert (Hend : chain_end st_a2 [mkRow 1 true true 65540 65587 48;
                                  mkRow 2 true true 65588 65635 48;
                                  mkRow 3 false true 65636 69627 3992] =
                 chain_end st_a1 [mkRow 1 true true 65540 65587 48;
                                  mkRow 2 false true 65588 69627 4040])
    by reflexivity.
  assert (Hco : coalesce 4 st_f2 = Some st_f2_co) by (vm_compute; reflexivity).
  split_and!; [exact st_a1_reachable|exact int_40|exact Hch|exact Hn|exact run_a2
              |exact Hnn|exact Hch1|exact Hend|exact run_f2|exact Hco|..];
    apply (alloc_free_coalesce_restores 3 4 st_a1 40 st_a2 65592 _ _ st_f2 0 st_f2_co
             st_a1_reachable int_40 Hch Hn run_a2 Hnn Hch1 Hend run_f2 Hco).
Defined.

(** ** Properties of [myInit] *)

Lemma round_up_pages sz ps :
  0 < sz -> 0 < ps ->
  sz + (ps - sz mod ps) mod ps = ps * ((sz + ps - 1) / ps).
Proof.
  intros Hsz Hps.
  pose proof (Z.mod_pos_bound sz ps Hps) as Hr.
  pose proof (Z.div_mod sz ps ltac:(lia)) as Hdm.
  destruct (Z.eq_dec (sz mod ps) 0) as [Hr0|Hr0].
  - rewrite Hr0, Z.sub_0_r, Z.mod_same, Z.add_0_r in * by lia.
    replace ((sz + ps - 1) / ps) with (sz / ps); [lia|].
    apply Z.div_unique with (ps - 1); lia.
  - rewrite (Z.mod_small (ps - sz mod ps)) by lia.
    replace ((sz + ps - 1) / ps) with (sz / ps + 1); [lia|].
    apply Z.div_unique with (sz mod ps - 1); lia.
Qed.

Lemma init_allocsize_eq sz ps :
  0 < sz <= 2147483647 -> 16 <= ps <= 2147483647 -> ps mod 8 = 0 ->
  let a0 := wrap (sz + Z.rem (wrap (ps - Z.rem sz ps)) ps) in
  to_uint a0 <= 2147483647 -> a0 = ps * ((sz + ps - 1) / ps).
Proof.
  intros Hsz Hps Hps8 a0 Hu.
  destruct (init_allocsize sz ps Hsz Hps Hps8 Hu) as (H16 & _ & Hid).
  fold a0 in H16, Hid. rewrite <- round_up_pages by lia.
  revert Hid Hu H16. subst a0.
  rewrite (Z.rem_mod_nonneg sz ps) by lia.
  pose proof (Z.mod_pos_bound sz ps ltac:(lia)) as Hr.
  rewrite (wrap_id (ps - sz mod ps)) by (unfold is_int; lia).
  rewrite Z.rem_mod_nonneg by lia.
  pose proof (Z.mod_pos_bound (ps - sz mod ps) ps ltac:(lia)) as Hp.
  revert Hp. generalize ((ps - sz mod ps) mod ps). intros pad Hp.
  unfold to_uint, wrap. lia.
Qed.

(** The state after a successful first [myInit]. *)
Lemma myInit_layout e sz h :
  os_ok e h -> is_int sz -> myInit e boot sz = Some (h, 0) ->
  0 < sz /\ map_lo h = mmap e /\ heapStart h = mmap e + 4 /\
  allocsize h = getpagesize e * ((sz + getpagesize e - 1) / getpagesize e) - 8 /\
  map_hi h = mmap e + allocsize h + 8 /\
  rd (mem h) (heapStart h + allocsize h - 4) = allocsize h /\
  (forall x, x <> heapStart h -> x <> heapStart h + allocsize h - 4 ->
             x <> heapStart h + allocsize h -> rd (mem h) x = 0).
Proof.
  intros (Hps & Hps8 & Hlo & Hal & Htop & Hlen) Hi. revert Hlen Htop.
  unfold myInit. cbn [allocated_once boot].
  destruct (sz <=? 0) eqn:Hsz; [discriminate|]. apply Z.leb_gt in Hsz.
  destruct (open_dev_zero e =? -1); [discriminate|].
  destruct (mmap e =? MAP_FAILED); [discriminate|].
  set (a0 := wrap (sz + Z.rem (wrap (getpagesize e - Z.rem sz (getpagesize e)))
                             (getpagesize e))).
  intros Hlen Htop H.
  repeat match type of H with
         | (?x ≫= _) = Some _ =>
             let E := fresh "E" in
             destruct x eqn:E; cbn [mbind option_bind] in H; [|discriminate]
         end.
  injection H as <-.
  apply store_inv in E as [_ ->]. apply store_inv in E0 as [_ ->].
  apply load_inv in E1 as [_ ->]. apply store_inv in E2 as [_ ->].
  apply store_inv in E3 as [_ ->].
  cbn [set_mem mem map_lo map_hi heapStart allocsize allocated_once] in *.
  assert (Hu : to_uint a0 <= 2147483647) by lia.
  destruct (init_allocsize sz (getpagesize e)) as (H16 & H8 & Hid);
    [unfold is_int in Hi; lia|lia|assumption|exact Hu|].
  pose proof (init_allocsize_eq sz (getpagesize e)) as Heq.
  cbv zeta in Heq. fold a0 in H16, H8, Hid, Heq.
  rewrite <- Heq by (unfold is_int in Hi; try assumption; lia).
  assert (Ha : wrap (a0 - 8) = a0 - 8) by (apply wrap_id; unfold is_int; lia).
  rewrite Ha in *. clearbody a0.
  split_and!; try reflexivity; try lia.
  - rd_simpl. reflexivity.
  - intros x ? ? ?. rd_simpl. reflexivity.
Qed.

(** X13. A successful first [myInit] rounds the size up to a multiple of
    the page size and keeps 8 bytes of it for the alignment and the end
    mark: [allocsize] is the rest.  [heapStart] is 4 bytes into the
    mapping; the chain is one free block of [allocsize] bytes whose p-bit
    is set and whose footer holds its size, the end mark follows it and
    the other words of the mapping are 0. *)
Theorem init_layout e sz h :
  os_ok e h -> is_int sz -> myInit e boot sz = Some (h, 0) ->
  allocsize h = getpagesize e * ((sz + getpagesize e - 1) / getpagesize e) - 8 /\
  heapStart h = mmap e + 4 /\
  chain h [mkRow 1 false true (heapStart h) (heapStart h + allocsize h - 1)
                 (allocsize h)] /\
  load h (heapStart h + allocsize h - 4) = Some (allocsize h) /\
  load h (heapStart h + allocsize h) = Some 1 /\
  forall x, x <> heapStart h -> x <> heapStart h + allocsize h - 4 ->
            x <> heapStart h + allocsize h -> rd (mem h) x = 0.
Proof.
  intros Hos Hi Hrun.
  destruct (myInit_layout e sz h Hos Hi Hrun) as (_ & _ & Hst & Ha & _ & Hfoot & Hz).
  pose proof (myInit_Rep e sz h Hos Hi Hrun) as HR.
  pose proof (rep_geo _ _ HR) as HG. geo_facts HG.
  pose proof (rep_end _ _ HR) as Hend. cbn [total] in Hend.
  rewrite Z.add_0_r in Hend.
  split_and!; try assumption.
  - apply (Rep_chain _ _ HR).
  - rewrite load_Some by (apply (Geo_mapped _ _ HG); lia). now rewrite Hfoot.
  - rewrite load_Some by (apply (Geo_mapped _ _ HG); lia). now rewrite Hend.
Qed.

Lemma init_layout_witness :
  os_ok linux st_init /\ is_int 4096 /\ myInit linux boot 4096 = Some (st_init, 0) /\
  allocsize st_init =
    getpagesize linux * ((4096 + getpagesize linux - 1) / getpagesize linux) - 8 /\
  heapStart st_init = mmap linux + 4 /\
  chain st_init [mkRow 1 false true (heapStart st_init)
                       (heapStart st_init + allocsize st_init - 1)
                       (allocsize st_init)] /\
  load st_init (heapStart st_init + allocsize st_init - 4) =
    Some (allocsize st_init) /\
  load st_init (heapStart st_init + allocsize st_init) = Some 1 /\
  forall x, x <> heapStart st_init ->
            x <> heapStart st_init + allocsize st_init - 4 ->
            x <> heapStart st_init + allocsize st_init -> rd (mem st_init) x = 0.
Proof.
  assert (Hos : os_ok linux st_init).
  { unfold os_ok. cbn. repeat split; try lia; discriminate. }
  assert (Hi : is_int 4096) by (unfold is_int; lia).
  split; [exact Hos|]. split; [exact Hi|]. split; [exact run_init|].
  exact (init_layout linux 4096 st_init Hos Hi run_init).
Defined.

(** X14. In every reachable state a further call of [myInit] returns -1
    and the heap it was given, whatever the operating system answers. *)
Theorem reinit_rejected e h sz :
  reachable h -> myInit e h sz = Some (h, -1).
Proof.
  intros [bs HR]%reachable_Rep. unfold myInit.
  now rewrite (geo_once _ (rep_geo _ _ HR)).
Qed.

Lemma reinit_rejected_witness :
  reachable st_a1 /\ myInit linux st_a1 8192 = Some (st_a1, -1).
Proof.
  split; [exact st_a1_reachable|].
  exact (reinit_rejected linux st_a1 8192 st_a1_reachable).
Defined.

(** ** Properties of the chain *)

(** X15. In every reachable state the blocks of the chain lie one after
    the other from [heapStart] on; the size of each is a multiple of 8
    and at least 8, so every payload address is a multiple of 8; the
    chain ends inside the arena, at a word that holds 1, and it is the
    only chain of the heap. *)
Theorem chain_tiles_arena h rows :
  reachable h -> chain h rows ->
  tiles (heapStart h) rows /\
  (forall r, In r rows -> (t_begin r + 4) mod 8 = 0) /\
  chain_end h rows <= heapStart h + allocsize h /\
  load h (chain_end h rows) = Some 1 /\
  (forall rows', chain h rows' -> rows' = rows).
Proof.
  intros [bs HR]%reachable_Rep Hch.
  rewrite (Rep_chain_inv _ _ _ HR Hch).
  pose proof (rep_geo _ _ HR) as HG. geo_facts HG.
  pose proof (rep_total _ _ HR) as Ht. pose proof (rep_seg _ _ HR) as Hs.
  pose proof (seg_total _ _ _ _ Hs) as Ht0.
  pose proof (seg_total8 _ _ _ _ Hs) as Ht8.
  unfold chain_end. rewrite rows_of_sizes. split_and!.
  - now apply (tiles_rows (mem h)).
  - intros r Hin.
    destruct (rows_of_In_split _ _ _ _ _ Hin) as (pre & post & E & Hb & _).
    rewrite E in HR.
    destruct (Rep_block_bounds _ _ _ _ _ HR) as (_ & _ & _ & _ & _ & Hpre8 & _).
    lia.
  - lia.
  - rewrite load_Some by (apply (Geo_mapped _ _ HG); lia).
    now rewrite (rep_end _ _ HR).
  - intros rows' Hch'. now apply Rep_chain_inv.
Qed.

Lemma chain_tiles_arena_witness :
  reachable st_a2 /\
  chain st_a2 [mkRow 1 true true 65540 65587 48; mkRow 2 true true 65588 65635 48;
               mkRow 3 false true 65636 69627 3992] /\
  tiles (heapStart st_a2)
        [mkRow 1 true true 65540 65587 48; mkRow 2 true true 65588 65635 48;
         mkRow 3 false true 65636 69627 3992].
Proof.
  assert (Hch : chain st_a2 [mkRow 1 true true 65540 65587 48;
                             mkRow 2 true true 65588 65635 48;
                             mkRow 3 false true 65636 69627 3992])
    by (exists 4%nat; vm_compute; reflexivity).
  split; [exact st_a2_reachable|]. split; [exact Hch|].
  exact (proj1 (chain_tiles_arena st_a2 _ st_a2_reachable Hch)).
Defined.

(** X16. In every reachable state the chain has at most [allocsize / 8]
    blocks, and with more fuel than that the three loops come to an end:
    the walk of [dispMem] returns the chain, [coalesce] returns a heap
    and [myAlloc] returns for every request of 1 to 2147483636 bytes. *)
Theorem loops_terminate fuel h :
  reachable h -> (Z.to_nat (allocsize h / 8) < fuel)%nat ->
  (exists rows, dispMem fuel h = Some rows /\
                Z.of_nat (length rows) <= allocsize h / 8) /\
  (exists h', coalesce fuel h = Some h') /\
  (forall size, 0 < size <= 2147483636 ->
     exists h' ptr, myAlloc fuel h size = Some (h', ptr)).
Proof.
  intros [bs HR]%reachable_Rep Hfuel.
  pose proof (rep_geo _ _ HR) as HG. geo_facts HG.
  pose proof (rep_total _ _ HR) as Ht. pose proof (rep_seg _ _ HR) as Hs.
  pose proof (seg_length _ _ _ _ Hs) as Hl.
  assert (Hlen : (length bs < fuel)%nat) by lia.
  split_and!.
  - exists (rows_of (heapStart h) true 1 bs). rewrite rows_of_length. split; [|lia].
    unfold dispMem.
    rewrite (walk_seg h HG bs fuel _ true) by (try apply HR; lia).
    now rewrite (proj2 (Nat.ltb_lt _ _) Hlen).
  - destruct (coalesce_Rep h bs HR) as (h' & _ & Hrun & _). exists h'.
    unfold coalesce in *. apply (coalesce_loop_mono _ _ _ _ _ Hrun). lia.
  - intros size Hsz.
    destruct (block_size_round size Hsz) as [E HB].
    assert (HB8 : 8 <= block_size size) by lia. clear E.
    destruct (fit_dec (block_size size) bs) as [Hnone|(s & Hin & Hle)].
    + exists h, NULL. apply (myAlloc_no_fit h bs); try assumption; lia.
    + destruct (myAlloc_fit fuel h bs size s HR ltac:(lia) HB8 Hin Hle Hlen)
        as (h' & ptr & Hrun & _). eauto.
Qed.

Lemma loops_terminate_witness :
  reachable st_a2 /\ (Z.to_nat (allocsize st_a2 / 8) < 512)%nat /\
  (exists rows, dispMem 512 st_a2 = Some rows /\
                Z.of_nat (length rows) <= allocsize st_a2 / 8) /\
  (exists h', coalesce 512 st_a2 = Some h') /\
  (forall size, 0 < size <= 2147483636 ->
     exists h' ptr, myAlloc 512 st_a2 size = Some (h', ptr)).
Proof.
  assert (Hf : (Z.to_nat (allocsize st_a2 / 8) < 512)%nat) by (vm_compute; lia).
  split; [exact st_a2_reachable|]. split; [exact Hf|].
  exact (loops_terminate 512 st_a2 st_a2_reachable Hf).
Defined.

(** X17. [myAlloc], [myFree] and [coalesce] only write to the memory:
    the heap they return has the [heapStart], the [allocsize], the
    mapping and the flag of [myInit] of the heap they were given. *)
Theorem arena_stays h :
  (forall fuel size h' ptr, myAlloc fuel h size = Some (h', ptr) -> same_arena h h') /\
  (forall ptr h' r, myFree h ptr = Some (h', r) -> same_arena h h') /\
  (forall fuel h', coalesce fuel h = Some h' -> same_arena h h').
Proof.
  split_and!.
  - intros fuel size h' ptr Hrun. now apply (myAlloc_writes _ _ _ _ _ Hrun).
  - intros ptr h' r. apply myFree_same.
  - intros fuel h'. apply coalesce_loop_same.
Qed.

Lemma arena_stays_witness :
  myAlloc 3 st_a1 40 = Some (st_a2, 65592) /\ same_arena st_a1 st_a2 /\
  myFree st_a2 65592 = Some (st_f2, 0) /\ same_arena st_a2 st_f2 /\
  coalesce 3 st_f1 = Some st_co /\ same_arena st_f1 st_co.
Proof.
  split_and!; [exact run_a2| |exact run_f2| |exact run_co|].
  - exact (proj1 (arena_stays st_a1) 3%nat 40 st_a2 65592 run_a2).
  - exact (proj1 (proj2 (arena_stays st_a2)) 65592 st_f2 0 run_f2).
  - exact (proj2 (proj2 (arena_stays st_f1)) 3%nat st_co run_co).
Defined.

(** X18. In every reachable state, if a free block of the chain has
    exactly the block size, [myAlloc] returns a block once the fuel
    exceeds the number of blocks of the chain, and it does not split:
    the new chain has the blocks of the old one at the same addresses
    and with the same sizes. *)
Theorem alloc_exact_fit_no_split fuel h size rows r :
  reachable h -> 0 < size <= 2147483647 -> chain h rows ->
  In r rows -> r_used r = false -> t_size r = block_size size ->
  (length rows < fuel)%nat ->
  exists h' ptr rows',
    myAlloc fuel h size = Some (h', ptr) /\ ptr <> NULL /\
    chain h' rows' /\ map t_size rows' = map t_size rows /\
    map t_begin rows' = map t_begin rows.
Proof.
  intros [bs HR]%reachable_Rep Hpos Hch Hin Hfree Hsz Hfuel.
  assert (Hi : is_int size) by (unfold is_int; lia).
  rewrite (Rep_chain_inv _ _ _ HR Hch) in *. rewrite rows_of_length in Hfuel.
  destruct (rows_of_In_split _ _ _ _ _ Hin) as (pre0 & post0 & E0 & _).
  rewrite Hfree, Hsz in E0.
  assert (Hin0 : In (block_size size, false) bs) by (rewrite E0; apply in_elt).
  assert (HB : 8 <= block_size size).
  { rewrite E0 in HR. now destruct (Rep_block_bounds _ _ _ _ _ HR). }
  destruct (myAlloc_fit fuel h bs size (block_size size) HR Hpos HB Hin0
              ltac:(lia) Hfuel) as (h' & ptr & Hrun & Hnn).
  exists h', ptr.
  destruct (myAlloc_Rep _ _ _ _ _ _ HR Hi Hrun)
    as [[-> _] | (pre & s & post & -> & -> & _ & [_ Hle] & Hpre & Hpost & Hst & Hout)];
    [contradiction|].
  assert (Hs : s = block_size size).
  { apply in_app_iff in Hin0 as [Hin0|[[= ->]|Hin0]]; [|reflexivity|].
    - specialize (Hpre _ Hin0). lia.
    - specialize (Hpost _ Hin0). lia. }
  destruct Hout as [[_ HR']|[(Hlt & _)|(Hlt & _)]]; try lia.
  exists (rows_of (heapStart h') true 1 (pre ++ (s, true) :: post)).
  split; [assumption|]. split; [assumption|].
  split; [now apply Rep_chain|]. rewrite Hst. split.
  - rewrite <- !(map_map shape fst), !map_shape_rows, !map_app. reflexivity.
  - apply map_begin_rows. rewrite !map_app. reflexivity.
Qed.

Lemma alloc_exact_fit_no_split_witness :
  reachable st_f2 /\ 0 < 40 <= 2147483647 /\
  chain st_f2 [mkRow 1 true true 65540 65587 48; mkRow 2 false true 65588 65635 48;
               mkRow 3 false false 65636 69627 3992] /\
  In (mkRow 2 false true 65588 65635 48)
     [mkRow 1 true true 65540 65587 48; mkRow 2 false true 65588 65635 48;
      mkRow 3 false false 65636 69627 3992] /\
  r_used (mkRow 2 false true 65588 65635 48) = false /\
  t_size (mkRow 2 false true 65588 65635 48) = block_size 40 /\
  (length [mkRow 1 true true 65540 65587 48; mkRow 2 false true 65588 65635 48;
           mkRow 3 false false 65636 69627 3992] < 4)%nat /\
  myAlloc 4 st_f2 40 = Some (st_f2_a, 65592) /\
  exists h' ptr rows',
    myAlloc 4 st_f2 40 = Some (h', ptr) /\ ptr <> NULL /\
    chain h' rows' /\
    map t_size rows' =
      map t_size [mkRow 1 true true 65540 65587 48; mkRow 2 false true 65588 65635 48;
                  mkRow 3 false false 65636 69627 3992] /\
    map t_begin rows' =
      map t_begin [mkRow 1 true true 65540 65587 48;
                   mkRow 2 false true 65588 65635 48;
                   mkRow 3 false false 65636 69627 3992].
Proof.
  assert (Hsz : 0 < 40 <= 2147483647) by lia.
  assert (Hch : chain st_f2 [mkRow 1 true true 65540 65587 48;
                             mkRow 2 false true 65588 65635 48;
                             mkRow 3 false false 65636 69627 3992])
    by (exists 4%nat; vm_compute; reflexivity).
  assert (Hin : In (mkRow 2 false true 65588 65635 48)
                   [mkRow 1 true true 65540 65587 48;
                    mkRow 2 false true 65588 65635 48;
                    mkRow 3 false false 65636 69627 3992])
    by (right; left; reflexivity).
  assert (Hf : (length [mkRow 1 true true 65540 65587 48;
                        mkRow 2 false true 65588 65635 48;
                        mkRow 3 false false 65636 69627 3992] < 4)%nat)
    by (simpl; lia).
  assert (Hrun : myAlloc 4 st_f2 40 = Some (st_f2_a, 65592))
    by (vm_compute; reflexivity).
  split; [exact st_f2_reachable|]. split; [exact Hsz|]. split; [exact Hch|].
  split; [exact Hin|]. split; [reflexivity|]. split; [reflexivity|].
  split; [exact Hf|]. split; [exact Hrun|].
  exact (alloc_exact_fit_no_split 4 st_f2 40 _ _
           st_f2_reachable Hsz Hch Hin eq_refl eq_refl Hf).
Defined.

(** ** The totals of [dispMem] *)

Lemma size_of_rows al a p n bs : size_of al (rows_of a p n bs) = total_of al bs.
Proof.
  revert a p n. induction bs as [|[s al'] bs IH]; intros a p n; [reflexivity|].
  unfold size_of in *. cbn [rows_of List.filter r_used total_of].
  destruct (Bool.eqb al' al); cbn [map fold_right t_size]; now rewrite IH.
Qed.

Lemma total_of_split bs : total_of true bs + total_of false bs = total bs.
Proof.
  induction bs as [|[s [|]] bs IH]; cbn [total_of total Bool.eqb]; lia.
Qed.

Lemma total_of_nonneg m a p bs al : seg m a p bs -> 0 <= total_of al bs.
Proof.
  revert a p. induction bs as [|[s al'] bs IH]; intros a p; cbn [seg total_of];
    [lia|].
  intros (Hs & _ & _ & Hseg). specialize (IH _ _ Hseg).
  destruct (Bool.eqb al' al); lia.
Qed.

Lemma walk_sizes_seg h (HG : Geo h) bs :
  forall fuel a p u f,
  seg (mem h) a p bs -> heapStart h <= a -> (a - heapStart h) mod 8 = 0 ->
  a + total bs <= heapStart h + allocsize h ->
  rd (mem h) (a + total bs) = 1 ->
  0 <= u -> 0 <= f -> u + f + total bs <= 2147483647 ->
  walk_sizes fuel h a u f =
    if (length bs <? fuel)%nat
    then Some (u + total_of true bs, f + total_of false bs) else None.
Proof.
  induction bs as [|[s al] bs IH]; intros fuel a p u f Hseg Ha Ha8 Ht He Hu Hf Hsum;
    (destruct fuel as [|fuel]; [reflexivity|]); simpl in Ht.
  - simpl. rewrite load_Some by (apply Geo_mapped_hdr; [assumption|lia|assumption]).
    simpl. rewrite Z.add_0_r in He. rewrite He, !Z.add_0_r. reflexivity.
  - destruct Hseg as (Hs & H8 & Hr & Hseg).
    pose proof (seg_total _ _ _ _ Hseg) as Hpos. cbn [total] in Hsum.
    assert (Hi : is_int (hdr s al p))
      by (destruct HG; unfold is_int, hdr; destruct al, p; lia).
    assert (Hi' : is_int (hdr s false p))
      by (destruct HG; unfold is_int, hdr; destruct p; lia).
    cbn [walk_sizes length].
    rewrite load_Some by (apply Geo_mapped_hdr; [assumption|lia|assumption]).
    cbn [mbind option_bind]. rewrite Hr.
    replace (hdr s al p =? 1) with false
      by (symmetry; apply Z.eqb_neq; unfold hdr; destruct al, p; lia).
    rewrite hdr_land_1, negb_involutive by lia.
    replace (if al then wrap (hdr s al p - 1) else hdr s al p)
      with (hdr s false p).
    2:{ destruct al; [|reflexivity]. rewrite wrap_id.
        - unfold hdr. lia.
        - unfold is_int, hdr in *. destruct p; lia. }
    rewrite hdr_land_2, negb_involutive by lia.
    replace (if p then wrap (hdr s false p - 2) else hdr s false p) with s.
    2:{ destruct p.
        - rewrite wrap_id; unfold is_int, hdr in *; lia.
        - unfold hdr. lia. }
    pose proof (total_of_nonneg _ _ _ _ true Hseg).
    pose proof (total_of_nonneg _ _ _ _ false Hseg).
    rewrite (IH fuel (a + s) al).
    + change (S (length bs) <? S fuel)%nat with (length bs <? fuel)%nat.
      destruct (length bs <? fuel)%nat; [|reflexivity].
      cbn [total_of]. destruct al; cbn [Bool.eqb];
        rewrite wrap_id by (unfold is_int; lia); do 2 f_equal; lia.
    + assumption.
    + lia.
    + lia.
    + lia.
    + now rewrite <- Z.add_assoc.
    + destruct al; [rewrite wrap_id by (unfold is_int; lia)|]; lia.
    + destruct al; [|rewrite wrap_id by (unfold is_int; lia)]; lia.
    + destruct al; rewrite wrap_id by (unfold is_int; lia); lia.
Qed.

(** X19. In every reachable state the totals of [dispMem] are the sum of
    the sizes of the allocated blocks of the chain, the sum of the sizes
    of its free blocks, and their sum, which is the length of the chain
    in bytes and at most [allocsize]; no sum wraps around. *)
Theorem dispMem_totals_sum fuel h rows :
  reachable h -> chain h rows -> (length rows < fuel)%nat ->
  dispMem_totals fuel h =
    Some (size_of true rows, size_of false rows,
          size_of true rows + size_of false rows) /\
  heapStart h + (size_of true rows + size_of false rows) = chain_end h rows /\
  0 <= size_of true rows /\ 0 <= size_of false rows /\
  size_of true rows + size_of false rows <= allocsize h.
Proof.
  intros [bs HR]%reachable_Rep Hch Hfuel.
  rewrite (Rep_chain_inv _ _ _ HR Hch) in *. rewrite rows_of_length in Hfuel.
  pose proof (rep_geo _ _ HR) as HG. geo_facts HG.
  pose proof (rep_total _ _ HR) as Ht. pose proof (rep_seg _ _ HR) as Hs.
  pose proof (total_of_nonneg _ _ _ _ true Hs).
  pose proof (total_of_nonneg _ _ _ _ false Hs).
  pose proof (total_of_split bs) as Hsplit.
  unfold chain_end. rewrite rows_of_sizes, !size_of_rows.
  split_and!; try lia.
  unfold dispMem_totals.
  rewrite (walk_sizes_seg h HG bs fuel _ true) by (try apply HR; lia).
  rewrite (proj2 (Nat.ltb_lt _ _) Hfuel). cbn [mbind option_bind].
  rewrite !Z.add_0_l, wrap_id by (unfold is_int; lia). reflexivity.
Qed.

Lemma dispMem_totals_sum_witness :
  reachable st_a2 /\
  chain st_a2 [mkRow 1 true true 65540 65587 48; mkRow 2 true true 65588 65635 48;
               mkRow 3 false true 65636 69627 3992] /\
  (3 < 4)%nat /\
  dispMem_totals 4 st_a2 = Some (96, 3992, 4088).
Proof.
  assert (Hch : chain st_a2 [mkRow 1 true true 65540 65587 48;
                             mkRow 2 true true 65588 65635 48;
                             mkRow 3 false true 65636 69627 3992])
    by (exists 4%nat; vm_compute; reflexivity).
  assert (Hf : (3 < 4)%nat) by lia.
  split; [exact st_a2_reachable|]. split; [exact Hch|]. split; [exact Hf|].
  exact (proj1 (dispMem_totals_sum 4 st_a2 _ st_a2_reachable Hch Hf)).
Defined.

(** ** More on [myFree], [myAlloc] and [coalesce] *)

(** X20. In every reachable state [myFree] of the payload address of a
    free block of the chain returns -1 and the heap it was given. *)
Theorem free_of_free_block h rows r :
  reachable h -> chain h rows -> In r rows -> r_used r = false ->
  myFree h (t_begin r + 4) = Some (h, -1).
Proof.
  intros [bs HR]%reachable_Rep Hch Hin Hfree.
  rewrite (Rep_chain_inv _ _ _ HR Hch) in Hin.
  destruct (rows_of_In_split _ _ _ _ _ Hin) as (pre & post & E & -> & _).
  rewrite Hfree in E. rewrite E in HR. clear E.
  destruct (Rep_block_bounds _ _ _ _ _ HR)
    as (Hs & Hs8 & Hpre & Hpost & Htot & Hpre8 & Hrd).
  pose proof (rep_geo _ _ HR) as HG. geo_facts HG.
  remember (heapStart h + total pre) as c eqn:Hc.
  unfold myFree.
  destruct (Z.eqb_spec (c + 4) NULL) as [E|_]; [unfold NULL in E; lia|].
  assert (Hu : to_uint (c + 4) = c + 4) by (unfold to_uint; lia).
  assert (Hus : to_uint (heapStart h) = heapStart h) by (unfold to_uint; lia).
  rewrite Hu, Hus.
  destruct (Z.eqb_spec ((c + 4) mod 8) 0) as [_|E]; [|lia]. cbn [negb].
  destruct (Z.ltb_spec (c + 4) (heapStart h)) as [E|_]; [lia|].
  replace (c + 4 - 4) with c by lia.
  do_load HG. rewrite Hrd, hdr_rem_2_1 by lia. reflexivity.
Qed.

Lemma free_of_free_block_witness :
  reachable st_a2 /\
  chain st_a2 [mkRow 1 true true 65540 65587 48; mkRow 2 true true 65588 65635 48;
               mkRow 3 false true 65636 69627 3992] /\
  In (mkRow 3 false true 65636 69627 3992)
     [mkRow 1 true true 65540 65587 48; mkRow 2 true true 65588 65635 48;
      mkRow 3 false true 65636 69627 3992] /\
  r_used (mkRow 3 false true 65636 69627 3992) = false /\
  myFree st_a2 (t_begin (mkRow 3 false true 65636 69627 3992) + 4) =
    Some (st_a2, -1).
Proof.
  assert (Hch : chain st_a2 [mkRow 1 true true 65540 65587 48;
                             mkRow 2 true true 65588 65635 48;
                             mkRow 3 false true 65636 69627 3992])
    by (exists 4%nat; vm_compute; reflexivity).
  assert (Hin : In (mkRow 3 false true 65636 69627 3992)
                   [mkRow 1 true true 65540 65587 48;
                    mkRow 2 true true 65588 65635 48;
                    mkRow 3 false true 65636 69627 3992])
    by (right; right; left; reflexivity).
  split; [exact st_a2_reachable|]. split; [exact Hch|]. split; [exact Hin|].
  split; [reflexivity|].
  exact (free_of_free_block st_a2 _ _ st_a2_reachable Hch Hin eq_refl).
Defined.

(** X21. In every reachable state, when [myAlloc] returns a block and
    the chain ends where it ended before, the new chain is the old one
    with the chosen free block replaced: by an allocated block of the
    same size if that is the block size, and else by an allocated block
    of the block size followed by a free block of the rest. *)
Theorem alloc_takes_or_splits fuel h size h' ptr rows rows' :
  reachable h -> is_int size -> chain h rows ->
  myAlloc fuel h size = Some (h', ptr) -> ptr <> NULL ->
  chain h' rows' -> chain_end h' rows' = chain_end h rows ->
  exists pre s post,
    map shape rows = pre ++ (s, false) :: post /\
    ptr = heapStart h + total pre + 4 /\
    map shape rows' =
      pre ++ (block_size size, true) ::
        (if s =? block_size size then [] else [(s - block_size size, false)]) ++ post.
Proof.
  intros [bs HR]%reachable_Rep Hi Hch Hrun Hnn Hch' Hend.
  rewrite (Rep_chain_inv _ _ _ HR Hch) in *.
  destruct (myAlloc_Rep _ _ _ _ _ _ HR Hi Hrun)
    as [[-> _] | (pre & s & post & -> & -> & Hsz & [HB Hle] & _ & _ & Hst &
                  [[Es HR']|[(Hlt & _ & HR' & _)|(Hlt & _ & HR')]])];
    [contradiction|..]; rewrite (Rep_chain_inv _ _ _ HR' Hch') in *;
    exists pre, s, post; rewrite !map_shape_rows.
  - rewrite <- Es, Z.eqb_refl. auto.
  - destruct (Z.eqb_spec s (block_size size)); [lia|]. auto.
  - exfalso. unfold chain_end in Hend. rewrite !rows_of_sizes, !total_app in Hend.
    cbn [total] in Hend.
    destruct (Rep_block_bounds _ _ _ _ _ HR) as (_ & _ & _ & Hpost0 & _).
    lia.
Qed.

Lemma alloc_takes_or_splits_witness :
  reachable st_a1 /\ is_int 40 /\
  chain st_a1 [mkRow 1 true true 65540 65587 48;
               mkRow 2 false true 65588 69627 4040] /\
  myAlloc 3 st_a1 40 = Some (st_a2, 65592) /\ 65592 <> NULL /\
  chain st_a2 [mkRow 1 true true 65540 65587 48; mkRow 2 true true 65588 65635 48;
               mkRow 3 false true 65636 69627 3992] /\
  chain_end st_a2 [mkRow 1 true true 65540 65587 48;
                   mkRow 2 true true 65588 65635 48;
                   mkRow 3 false true 65636 69627 3992] =
  chain_end st_a1 [mkRow 1 true true 65540 65587 48;
                   mkRow 2 false true 65588 69627 4040] /\
  exists pre s post,
    map shape [mkRow 1 true true 65540 65587 48;
               mkRow 2 false true 65588 69627 4040] = pre ++ (s, false) :: post /\
    65592 = heapStart st_a1 + total pre + 4 /\
    map shape [mkRow 1 true true 65540 65587 48; mkRow 2 true true 65588 65635 48;
               mkRow 3 false true 65636 69627 3992] =
      pre ++ (block_size 40, true) ::
        (if s =? block_size 40 then [] else [(s - block_size 40, false)]) ++ post.
Proof.
  assert (Hch : chain st_a1 [mkRow 1 true true 65540 65587 48;
                             mkRow 2 false true 65588 69627 4040])
    by (exists 3%nat; vm_compute; reflexivity).
  assert (Hnn : 65592 <> NULL) by (unfold NULL; lia).
  assert (Hch1 : chain st_a2 [mkRow 1 true true 65540 65587 48;
                              mkRow 2 true true 65588 65635 48;
                              mkRow 3 false true 65636 69627 3992])
    by (exists 4%nat; vm_compute; reflexivity).
  assert (Hend : chain_end st_a2 [mkRow 1 true true 65540 65587 48;
                                  mkRow 2 true true 65588 65635 48;
                                  mkRow 3 false true 65636 69627 3992] =
                 chain_end st_a1 [mkRow 1 true true 65540 65587 48;
                                  mkRow 2 false true 65588 69627 4040])
    by reflexivity.
  split; [exact st_a1_reachable|]. split; [exact int_40|]. split; [exact Hch|].
  split; [exact run_a2|]. split; [exact Hnn|]. split; [exact Hch1|].
  split; [exact Hend|].
  exact (alloc_takes_or_splits 3 st_a1 40 st_a2 65592 _ _
           st_a1_reachable int_40 Hch run_a2 Hnn Hch1 Hend).
Defined.

Lemma squash_length bs : (length (squash bs) <= length bs)%nat.
Proof.
  induction bs as [|[s [|]] bs IH]; cbn [squash length]; [lia|lia|].
  destruct (squash bs) as [|[s2 [|]] t]; cbn [length] in *; lia.
Qed.

(** Two neighbouring free blocks end up in one free block that is at
    least as large as the two together. *)
Lemma squash_pair m pre s1 s2 post :
  forall a p, seg m a p (pre ++ (s1, false) :: (s2, false) :: post) ->
  exists s, In (s, false) (squash (pre ++ (s1, false) :: (s2, false) :: post)) /\
            s1 + s2 <= s.
Proof.
  induction pre as [|[s0 al0] pre IH]; intros a p; cbn [app].
  - intros (Hs1 & _ & _ & Hs2 & _ & _ & Hseg).
    pose proof (squash_merge [] s1 s2 post) as Em. cbn [app] in Em.
    rewrite Em, squash_cons_free.
    assert (Hq : forall a p l, seg m a p l ->
                 match squash l with (s3, false) :: _ => 0 <= s3 | _ => True end).
    { clear. intros a p l. revert a p.
      induction l as [|[s [|]] l IHl]; intros a p; cbn [seg squash]; [trivial|..];
        intros (Hs & _ & _ & Hseg); [trivial|].
      specialize (IHl _ _ Hseg).
      destruct (squash l) as [|[s3 [|]] t]; lia. }
    specialize (Hq _ _ _ Hseg).
    destruct (squash post) as [|[s3 [|]] t].
    + exists (s1 + s2). split; [now left|lia].
    + exists (s1 + s2). split; [now left|lia].
    + exists (s1 + s2 + s3). split; [now left|lia].
  - intros (Hs0 & _ & _ & Hseg). destruct (IH _ _ Hseg) as (s & Hin & Hle).
    cbn [squash].
    destruct (squash (pre ++ (s1, false) :: (s2, false) :: post))
      as [|[s3 al3] t] eqn:Esq; [destruct Hin|].
    destruct al0.
    + exists s. split; [now right|assumption].
    + destruct al3.
      * exists s. split; [now right|assumption].
      * destruct Hin as [[= <-]|Hin].
        -- exists (s0 + s3). split; [now left|lia].
        -- exists s. split; [now right|assumption].
Qed.

(** X22. In every reachable state with two neighbouring free blocks in
    the chain, after [coalesce] a request whose block size is at most
    the size of the two blocks together gets a block from [myAlloc]. *)
Theorem coalesce_then_alloc fuel fuel' h h1 size rows l1 r1 r2 l2 :
  reachable h -> chain h rows -> rows = l1 ++ r1 :: r2 :: l2 ->
  r_used r1 = false -> r_used r2 = false ->
  0 < size <= 2147483636 -> block_size size <= t_size r1 + t_size r2 ->
  coalesce fuel h = Some h1 -> (length rows < fuel')%nat ->
  exists h2 ptr, myAlloc fuel' h1 size = Some (h2, ptr) /\ ptr <> NULL.
Proof.
  intros [bs HR]%reachable_Rep Hch -> Hf1 Hf2 Hsz Hfit Hco Hfuel.
  pose proof (Rep_chain_inv _ _ _ HR Hch) as E.
  rewrite E, rows_of_length in Hfuel.
  apply (f_equal (map shape)) in E. rewrite map_shape_rows, map_app in E.
  cbn [map] in E. unfold shape at 2 3 in E. rewrite Hf1, Hf2 in E.
  destruct (coalesce_squash _ _ _ _ HR Hco) as (HR1 & _).
  destruct (squash_pair (mem h) (map shape l1) (t_size r1) (t_size r2)
              (map shape l2) (heapStart h) true) as (s & Hin & Hle).
  { rewrite E. apply (rep_seg _ _ HR). }
  rewrite E in Hin.
  destruct (block_size_round size Hsz) as [E8 HB].
  assert (HB8 : 8 <= block_size size) by lia. clear E8.
  pose proof (squash_length bs).
  apply (myAlloc_fit fuel' h1 (squash bs) size s HR1); try lia; assumption.
Qed.

Lemma coalesce_then_alloc_witness :
  reachable st_f1 /\
  chain st_f1 [mkRow 1 false true 65540 65587 48; mkRow 2 false false 65588 65635 48;
               mkRow 3 false false 65636 69627 3992] /\
  [mkRow 1 false true 65540 65587 48; mkRow 2 false false 65588 65635 48;
   mkRow 3 false false 65636 69627 3992] =
  [mkRow 1 false true 65540 65587 48] ++
    mkRow 2 false false 65588 65635 48 :: mkRow 3 false false 65636 69627 3992 :: [] /\
  r_used (mkRow 2 false false 65588 65635 48) = false /\
  r_used (mkRow 3 false false 65636 69627 3992) = false /\
  0 < 4000 <= 2147483636 /\
  block_size 4000 <= t_size (mkRow 2 false false 65588 65635 48) +
                     t_size (mkRow 3 false false 65636 69627 3992) /\
  coalesce 3 st_f1 = Some st_co /\
  (length [mkRow 1 false true 65540 65587 48; mkRow 2 false false 65588 65635 48;
           mkRow 3 false false 65636 69627 3992] < 4)%nat /\
  exists h2 ptr, myAlloc 4 st_co 4000 = Some (h2, ptr) /\ ptr <> NULL.
Proof.
  assert (Hch : chain st_f1 [mkRow 1 false true 65540 65587 48;
                             mkRow 2 false false 65588 65635 48;
                             mkRow 3 false false 65636 69627 3992])
    by (exists 4%nat; vm_compute; reflexivity).
  assert (Hsz : 0 < 4000 <= 2147483636) by lia.
  assert (Hfit : block_size 4000 <=
                 t_size (mkRow 2 false false 65588 65635 48) +
                 t_size (mkRow 3 false false 65636 69627 3992))
    by (vm_compute; discriminate).
  assert (Hf : (length [mkRow 1 false true 65540 65587 48;
                        mkRow 2 false false 65588 65635 48;
                        mkRow 3 false false 65636 69627 3992] < 4)%nat)
    by (simpl; lia).
  split; [exact st_f1_reachable|]. split; [exact Hch|]. split; [reflexivity|].
  split; [reflexivity|]. split; [reflexivity|]. split; [exact Hsz|].
  split; [exact Hfit|]. split; [exact run_co|]. split; [exact Hf|].
  exact (coalesce_then_alloc 3 4 st_f1 st_co 4000 _
           [mkRow 1 false true 65540 65587 48]
           (mkRow 2 false false 65588 65635 48)
           (mkRow 3 false false 65636 69627 3992) []
           st_f1_reachable Hch eq_refl eq_refl eq_refl Hsz Hfit run_co Hf).
Defined.

(** X23. In every reachable state the block that [myAlloc] returns is
    disjoint from the payloads of the blocks that are allocated already:
    every word of such a payload ends before the header of the new block
    or starts after the end of the new block. *)
Theorem alloc_block_is_fresh fuel h size h' ptr x :
  reachable h -> is_int size ->
  myAlloc fuel h size = Some (h', ptr) -> ptr <> NULL -> in_payload h x ->
  x + 4 <= ptr - 4 \/ ptr - 4 + block_size size <= x.
Proof.
  intros [bs HR]%reachable_Rep Hi Hrun Hnn Hx.
  apply (in_payload_Rep _ _ _ HR) in Hx.
  destruct (myAlloc_Rep _ _ _ _ _ _ HR Hi Hrun)
    as [[-> _] | (pre & s & post & -> & -> & Hsz & [HB Hle] & _)];
    [contradiction|].
  destruct (Rep_split h pre [(s, false)] post HR) as (Spre & _ & Spost & _).
  cbn [total last_used] in Spost. rewrite Z.add_0_r in Spost.
  apply used_sat_mid in Hx as [Hu|[[[=] _]|Hu]].
  - apply (in_used_bounds _ _ _ _ _ Spre) in Hu. lia.
  - apply (in_used_bounds _ _ _ _ _ Spost) in Hu. lia.
Qed.

Lemma alloc_block_is_fresh_witness :
  reachable st_a1 /\ is_int 40 /\ myAlloc 3 st_a1 40 = Some (st_a2, 65592) /\
  65592 <> NULL /\ in_payload st_a1 65584 /\
  (65584 + 4 <= 65592 - 4 \/ 65592 - 4 + block_size 40 <= 65584).
Proof.
  assert (Hnn : 65592 <> NULL) by (unfold NULL; lia).
  assert (Hx : in_payload st_a1 65584).
  { exists [mkRow 1 true true 65540 65587 48; mkRow 2 false true 65588 69627 4040],
      (mkRow 1 true true 65540 65587 48).
    split; [exists 3%nat; vm_compute; reflexivity|].
    split; [left; reflexivity|]. split; [reflexivity|]. cbn. lia. }
  split; [exact st_a1_reachable|]. split; [exact int_40|]. split; [exact run_a2|].
  split; [exact Hnn|]. split; [exact Hx|].
  exact (alloc_block_is_fresh 3 st_a1 40 st_a2 65592 65584
           st_a1_reachable int_40 run_a2 Hnn Hx).
Defined.

(** X24. A first [myInit] that returns -1 maps nothing, leaves
    [heapStart] null and does not set the flag that rejects further
    calls; a later call that succeeds gives the heap that it gives as a
    first call. *)
Theorem init_failure_can_retry e1 sz1 h1 e2 sz2 h2 :
  myInit e1 boot sz1 = Some (h1, -1) ->
  (mem h1 = ∅ /\ heapStart h1 = NULL /\ map_lo h1 = map_hi h1 /\
   allocated_once h1 = false) /\
  (myInit e2 h1 sz2 = Some (h2, 0) -> myInit e2 boot sz2 = Some (h2, 0)).
Proof.
  unfold myInit at 1. cbn [allocated_once boot].
  assert (Hb : forall a,
             (mem (mkHeap ∅ 0 0 NULL a false) = ∅ /\
              heapStart (mkHeap ∅ 0 0 NULL a false) = NULL /\
              map_lo (mkHeap ∅ 0 0 NULL a false) = map_hi (mkHeap ∅ 0 0 NULL a false) /\
              allocated_once (mkHeap ∅ 0 0 NULL a false) = false) /\
             (myInit e2 (mkHeap ∅ 0 0 NULL a false) sz2 = Some (h2, 0) ->
              myInit e2 boot sz2 = Some (h2, 0))).
  { intros a. split; [auto|]. unfold myInit. cbn [allocated_once boot].
    destruct (sz2 <=? 0); [discriminate|].
    destruct (open_dev_zero e2 =? -1); [discriminate|].
    destruct (mmap e2 =? MAP_FAILED); [discriminate|]. auto. }
  destruct (sz1 <=? 0); [intros [= <-]; apply (Hb 0)|].
  destruct (open_dev_zero e1 =? -1); [intros [= <-]; apply Hb|].
  destruct (mmap e1 =? MAP_FAILED); [intros [= <-]; apply Hb|].
  cbn [mem map_lo map_hi heapStart boot].
  intros H.
  repeat match type of H with
         | (?x ≫= _) = Some _ =>
             let E := fresh "E" in
             destruct x eqn:E; cbn [mbind option_bind] in H; [|discriminate]
         end.
  discriminate.
Qed.

Lemma init_failure_can_retry_witness :
  myInit (mkOs 4096 (-1) 65536) boot 4096 = Some (mkHeap ∅ 0 0 NULL 4096 false, -1) /\
  myInit linux (mkHeap ∅ 0 0 NULL 4096 false) 4096 = Some (st_init, 0) /\
  myInit linux boot 4096 = Some (st_init, 0).
Proof.
  assert (H1 : myInit (mkOs 4096 (-1) 65536) boot 4096 =
               Some (mkHeap ∅ 0 0 NULL 4096 false, -1)) by (vm_compute; reflexivity).
  assert (H2 : myInit linux (mkHeap ∅ 0 0 NULL 4096 false) 4096 = Some (st_init, 0))
    by (vm_compute; reflexivity).
  split; [exact H1|]. split; [exact H2|].
  exact (proj2 (init_failure_can_retry _ 4096 _ linux 4096 st_init H1) H2).
Defined.

(** X25. In every reachable state the arena is the mapping without its
    first 4 and its last 4 bytes: [heapStart] is 4 bytes into the
    mapping, [allocsize] is a multiple of 8 between 8 and 2147483632,
    the mapping ends 4 bytes after [heapStart + allocsize], and the flag
    of [myInit] is set. *)
Theorem arena_geometry h :
  reachable h ->
  heapStart h = map_lo h + 4 /\ map_hi h = heapStart h + allocsize h + 4 /\
  8 <= allocsize h <= 2147483632 /\ allocsize h mod 8 = 0 /\
  map_lo h mod 8 = 0 /\ 0 < map_lo h /\ map_hi h <= 4294967296 /\
  allocated_once h = true.
Proof.
  intros [bs HR]%reachable_Rep. destruct (rep_geo _ _ HR). auto 10.
Qed.

Lemma arena_geometry_witness :
  reachable st_a2 /\
  heapStart st_a2 = map_lo st_a2 + 4 /\
  map_hi st_a2 = heapStart st_a2 + allocsize st_a2 + 4 /\
  8 <= allocsize st_a2 <= 2147483632 /\ allocsize st_a2 mod 8 = 0 /\
  map_lo st_a2 mod 8 = 0 /\ 0 < map_lo st_a2 /\ map_hi st_a2 <= 4294967296 /\
  allocated_once st_a2 = true.
Proof.
  split; [exact st_a2_reachable|].
  exact (arena_geometry st_a2 st_a2_reachable).
Defined.

(** ** The allocated blocks *)

Lemma starts_bounds m q a p bs :
  seg m a p bs -> used_sat (starts q) a bs -> a + 4 <= q <= a + total bs - 4.
Proof.
  revert a p. induction bs as [|[s al] bs IH]; simpl; intros a p; [tauto|].
  intros (Hs & H8 & Hr & Hseg) [[_ Hx]|Hu].
  - pose proof (seg_total _ _ _ _ Hseg). unfold starts in Hx. lia.
  - specialize (IH _ _ Hseg Hu). lia.
Qed.

(** X26. In every reachable state, after [myFree] of the payload address
    of an allocated block the payload addresses of allocated blocks are
    those of before without the pointer that was freed. *)
Theorem free_removes_one_pointer h ptr h' r q :
  reachable h -> live h ptr -> myFree h ptr = Some (h', r) ->
  (live h' q <-> live h q /\ q <> ptr).
Proof.
  intros [bs HR]%reachable_Rep Hlive Hrun.
  destruct (live_Rep _ _ _ HR Hlive) as (pre & s & post & -> & ->).
  destruct (myFree_Rep _ _ _ _ HR) as (h2 & Hrun2 & HR' & Hsame & _).
  assert (h2 = h') by congruence. subst h2.
  assert (Hst : heapStart h' = heapStart h) by (now rewrite Hsame).
  rewrite (live_Rep_iff _ _ _ HR), (live_Rep_iff _ _ _ HR'), Hst, !used_sat_mid.
  destruct (Rep_split h pre [(s, true)] post HR) as (Spre & _ & Spost & _).
  destruct (Rep_block_bounds _ _ _ _ _ HR) as (Hs & _).
  cbn [total last_used] in Spost. rewrite Z.add_0_r in Spost.
  unfold starts at 2 4. split.
  - intros [Hu|[[[=] _]|Hu]].
    + pose proof (starts_bounds _ _ _ _ _ Spre Hu). split; [auto|lia].
    + pose proof (starts_bounds _ _ _ _ _ Spost Hu). split; [auto|lia].
  - intros [[Hu|[[_ ->]|Hu]] Hne]; [auto|contradiction|auto].
Qed.

Lemma free_removes_one_pointer_witness :
  reachable st_a2 /\ live st_a2 65592 /\ myFree st_a2 65592 = Some (st_f2, 0) /\
  (live st_f2 65544 <-> live st_a2 65544 /\ 65544 <> 65592).
Proof.
  split; [exact st_a2_reachable|]. split; [exact live_a2|]. split; [exact run_f2|].
  exact (free_removes_one_pointer st_a2 65592 st_f2 0 65544
           st_a2_reachable live_a2 run_f2).
Defined.

(** X27. In every reachable state, when [myAlloc] returns a block and
    the chain still ends where it ended, the payload addresses of
    allocated blocks are those of before and the pointer returned, which
    was not one of them. *)
Theorem alloc_adds_one_pointer fuel h size h' ptr rows rows' q :
  reachable h -> is_int size -> chain h rows ->
  myAlloc fuel h size = Some (h', ptr) -> ptr <> NULL ->
  chain h' rows' -> chain_end h' rows' = chain_end h rows ->
  (live h' q <-> live h q \/ q = ptr) /\ ~ live h ptr.
Proof.
  intros [bs HR]%reachable_Rep Hi Hch Hrun Hnn Hch' Hend.
  rewrite (Rep_chain_inv _ _ _ HR Hch) in *.
  destruct (myAlloc_Rep _ _ _ _ _ _ HR Hi Hrun)
    as [[-> _] | (pre & s & post & -> & -> & Hsz & [HB Hle] & _ & _ & Hst & Hout)];
    [contradiction|].
  destruct (Rep_split h pre [(s, false)] post HR) as (Spre & _ & Spost & _).
  destruct (Rep_block_bounds _ _ _ _ _ HR) as (Hs & _ & _ & Hpost0 & _).
  cbn [total last_used] in Spost. rewrite Z.add_0_r in Spost.
  rewrite !(live_Rep_iff _ _ _ HR), !used_sat_mid. split.
  - destruct Hout as [[Es HR']|[(Hlt & _ & HR' & _)|(Hlt & _ & HR')]].
    + rewrite (live_Rep_iff _ _ _ HR'), Hst, !used_sat_mid. unfold starts at 2 4.
      intuition (try discriminate; auto).
    + rewrite (live_Rep_iff _ _ _ HR'), Hst, !used_sat_mid. cbn [used_sat].
      replace (heapStart h + total pre + block_size size + (s - block_size size))
        with (heapStart h + total pre + s) by lia.
      unfold starts at 2 3 5. intuition (try discriminate; auto).
    + exfalso. rewrite (Rep_chain_inv _ _ _ HR' Hch') in Hend.
      unfold chain_end in Hend. rewrite !rows_of_sizes, !total_app in Hend.
      cbn [total] in Hend. lia.
  - intros [Hu|[[[=] _]|Hu]].
    + pose proof (starts_bounds _ _ _ _ _ Spre Hu). lia.
    + pose proof (starts_bounds _ _ _ _ _ Spost Hu). lia.
Qed.

Lemma alloc_adds_one_pointer_witness :
  reachable st_a1 /\ is_int 40 /\
  chain st_a1 [mkRow 1 true true 65540 65587 48;
               mkRow 2 false true 65588 69627 4040] /\
  myAlloc 3 st_a1 40 = Some (st_a2, 65592) /\ 65592 <> NULL /\
  chain st_a2 [mkRow 1 true true 65540 65587 48; mkRow 2 true true 65588 65635 48;
               mkRow 3 false true 65636 69627 3992] /\
  chain_end st_a2 [mkRow 1 true true 65540 65587 48;
                   mkRow 2 true true 65588 65635 48;
                   mkRow 3 false true 65636 69627 3992] =
  chain_end st_a1 [mkRow 1 true true 65540 65587 48;
                   mkRow 2 false true 65588 69627 4040] /\
  (live st_a2 65544 <-> live st_a1 65544 \/ 65544 = 65592) /\ ~ live st_a1 65592.
Proof.
  assert (Hch : chain st_a1 [mkRow 1 true true 65540 65587 48;
                             mkRow 2 false true 65588 69627 4040])
    by (exists 3%nat; vm_compute; reflexivity).
  assert (Hnn : 65592 <> NULL) by (unfold NULL; lia).
  assert (Hch1 : chain st_a2 [mkRow 1 true true 65540 65587 48;
                              mkRow 2 true true 65588 65635 48;
                              mkRow 3 false true 65636 69627 3992])
    by (exists 4%nat; vm_compute; reflexivity).
  assert (Hend : chain_end st_a2 [mkRow 1 true true 65540 65587 48;
                                  mkRow 2 true true 65588 65635 48;
                                  mkRow 3 false true 65636 69627 3992] =
                 chain_end st_a1 [mkRow 1 true true 65540 65587 48;
                                  mkRow 2 false true 65588 69627 4040])
    by reflexivity.
  split; [exact st_a1_reachable|]. split; [exact int_40|]. split; [exact Hch|].
  split; [exact run_a2|]. split; [exact Hnn|]. split; [exact Hch1|].
  split; [exact Hend|].
  exact (alloc_adds_one_pointer 3 st_a1 40 st_a2 65592 _ _ 65544
           st_a1_reachable int_40 Hch run_a2 Hnn Hch1 Hend).
Defined.

(** ** The rows of [dispMem] *)

Lemma rows_numbers bs :
  forall a p n i r,
  0 <= n -> n + Z.of_nat (length bs) <= 2147483647 ->
  nth_error (rows_of a p n bs) i = Some r -> r_no r = n + Z.of_nat i.
Proof.
  induction bs as [|[s al] bs IH]; intros a p n i r Hn Hlen; cbn [rows_of length] in *.
  - destruct i; discriminate.
  - destruct i as [|i]; cbn [nth_error].
    + intros [= <-]. cbn [r_no]. lia.
    + intros Hnth. rewrite (wrap_id (n + 1)) in Hnth by (unfold is_int; lia).
      rewrite (IH (a + s) al (n + 1) i r); [lia|lia|lia|assumption].
Qed.

(** X28. In every reachable state the rows of [dispMem] are numbered 1,
    2, 3, ... without wrap-around, and the first row shows its
    predecessor as allocated: the p-bit of the first block is set. *)
Theorem rows_numbered h rows :
  reachable h -> chain h rows ->
  (forall i r, nth_error rows i = Some r -> r_no r = Z.of_nat i + 1) /\
  (forall r, nth_error rows 0 = Some r -> r_prev_used r = true).
Proof.
  intros [bs HR]%reachable_Rep Hch.
  rewrite (Rep_chain_inv _ _ _ HR Hch).
  pose proof (rep_geo _ _ HR) as HG. geo_facts HG.
  pose proof (rep_total _ _ HR) as Ht.
  pose proof (seg_length _ _ _ _ (rep_seg _ _ HR)) as Hl.
  split.
  - intros i r Hnth.
    rewrite (rows_numbers bs (heapStart h) true 1 i r); [lia|lia|lia|assumption].
  - destruct bs as [|[s al] bs]; [discriminate|]. now intros r [= <-].
Qed.

Lemma rows_numbered_witness :
  reachable st_a2 /\
  chain st_a2 [mkRow 1 true true 65540 65587 48; mkRow 2 true true 65588 65635 48;
               mkRow 3 false true 65636 69627 3992] /\
  (forall i r,
     nth_error [mkRow 1 true true 65540 65587 48; mkRow 2 true true 65588 65635 48;
                mkRow 3 false true 65636 69627 3992] i = Some r ->
     r_no r = Z.of_nat i + 1) /\
  (forall r,
     nth_error [mkRow 1 true true 65540 65587 48; mkRow 2 true true 65588 65635 48;
                mkRow 3 false true 65636 69627 3992] 0 = Some r ->
     r_prev_used r = true).
Proof.
  assert (Hch : chain st_a2 [mkRow 1 true true 65540 65587 48;
                             mkRow 2 true true 65588 65635 48;
                             mkRow 3 false true 65636 69627 3992])
    by (exists 4%nat; vm_compute; reflexivity).
  split; [exact st_a2_reachable|]. split; [exact Hch|].
  exact (rows_numbered st_a2 _ st_a2_reachable Hch).
Defined.
